(** * Lunnel server: the per-client Control (server/serControl.go)

    A shallow embedding of the Control subsystem of the relay server: the
    doubly-linked pipe pool and its manager, the close path, the keepalive
    scheduler, the write loop, the tunnel accept handler and the two
    handshakes, followed by the properties of the specification that were
    checked against them.

    Conventions.
    - Go pointers to [pipeNode] are addresses into a node memory [mem];
      [nil] is [None].  A method with receiver [c *Control] is a
      computation in the monad [M], which threads the Control and can
      panic (Go's run-time panics) or diverge (a [for] loop that never
      leaves).
    - Channel operations that rendezvous with another goroutine are
      events given to a step function; buffered channels are queues. A
      goroutine parked at a channel operation has not returned: the
      step says so in its result ([Blocked], [AtSend], [PutBlocked],
      [InPutPipe]) and leaves the state as the goroutine found it.
    - Time is in nanoseconds, as [time.Duration] and [UnixNano] are. *)

From stdpp Require Import gmap strings list pretty.
From Stdlib Require Import ZArith Lia.

Local Open Scope Z_scope.

(** ** Tunables (lines 18-23) *)

Definition maxIdlePipes : Z := 3.
Definition maxStreams : Z := 6.

Definition Second : Z := 1000000000.
Definition pingInterval : Z := Second * 8.
Definition pingTimeout : Z := Second * 15.
Definition cleanInterval : Z := Second * 5.

(** ** Collaborators *)

(** A [crypto.UUID] is 16 bytes; it is kept as the 128-bit number they
    spell. *)
Definition UUID := N.

(** Modelled from the spec: the control-channel message types of package
    [msg] (section 6 of the specification); the package itself is not
    part of the sources at hand. *)
Inductive MsgType :=
| TypeClientKeyExchange
| TypeServerKeyExchange
| TypeClientID
| TypeSyncTunnels
| TypePing
| TypePong
| TypePipeReq.

Global Instance MsgType_eq_dec : EqDecision MsgType.
Proof. solve_decision. Defined.

(** Modelled from the spec: the bodies carried by those frames
    ([CLIENT_KEY_EXCHANGE{cipher_key}], [CLIENT_ID{client_id}], ...);
    [BNil] is Go's [nil] body. *)
Inductive Body :=
| BNil
| BCipherKeyExchange (CipherKey : list Z)
| BClientIDExchange (id : UUID)
| BSyncTunnels (addrs : list (string * string)).

Record writeReq := WriteReq { mType : MsgType; body : Body }.

(** A [*smux.Session] is the address of a session object owned by the
    multiplex library; the library's observable state of it is whether
    it is closed and how many streams it carries. *)
Definition session := nat.

Definition ptr := nat.

Record pipeNode := PipeNode {
  prev : option ptr;
  next : option ptr;
  pipe : session
}.

Record Tunnel := mkTunnel {
  LocalAddress : string;
  RemoteAddress : string;
  listener : nat
}.

(** The unbuffered channel [toDie] as the close path sees it: whether the
    moderator is parked on its receive, and whether a value was handed
    over. *)
Inductive toDieState := NoReceiver | Parked | Handed.

(** ** The Control (lines 58-76)

    [mem] is the memory holding the pipe nodes reachable from the two
    list heads; [smuxClosed] and [smuxStreams] are the multiplex
    library's state of the sessions; [lisClosed], [ctlConnClosed] and
    [ctlOut] are the state of the listeners and of the control
    connection. The rendezvous channels [pipeAdd] and [pipeGet] carry no
    state of their own. *)
Record Control := mkControl {
  mem : gmap ptr pipeNode;
  smuxClosed : gset session;
  smuxStreams : session → nat;
  ctlOut : list writeReq;
  ctlConnClosed : bool;
  lisClosed : gset nat;
  tunnels : list Tunnel;
  preMasterSecret : list Z;
  lastRead : Z;
  encryptMode : string;
  busyPipes : option ptr;
  idleCount : Z;
  idlePipes : option ptr;
  dieClosed : bool;
  toDie : toDieState;
  writeChan : list writeReq;
  ClientID : UUID
}.

Definition set_mem v c :=
  mkControl v (smuxClosed c) (smuxStreams c) (ctlOut c) (ctlConnClosed c) (lisClosed c)
    (tunnels c) (preMasterSecret c) (lastRead c) (encryptMode c) (busyPipes c)
    (idleCount c) (idlePipes c) (dieClosed c) (toDie c) (writeChan c) (ClientID c).
Definition set_smuxClosed v c :=
  mkControl (mem c) v (smuxStreams c) (ctlOut c) (ctlConnClosed c) (lisClosed c)
    (tunnels c) (preMasterSecret c) (lastRead c) (encryptMode c) (busyPipes c)
    (idleCount c) (idlePipes c) (dieClosed c) (toDie c) (writeChan c) (ClientID c).
Definition set_smuxStreams v c :=
  mkControl (mem c) (smuxClosed c) v (ctlOut c) (ctlConnClosed c) (lisClosed c)
    (tunnels c) (preMasterSecret c) (lastRead c) (encryptMode c) (busyPipes c)
    (idleCount c) (idlePipes c) (dieClosed c) (toDie c) (writeChan c) (ClientID c).
Definition set_ctlOut v c :=
  mkControl (mem c) (smuxClosed c) (smuxStreams c) v (ctlConnClosed c) (lisClosed c)
    (tunnels c) (preMasterSecret c) (lastRead c) (encryptMode c) (busyPipes c)
    (idleCount c) (idlePipes c) (dieClosed c) (toDie c) (writeChan c) (ClientID c).
Definition set_ctlConnClosed v c :=
  mkControl (mem c) (smuxClosed c) (smuxStreams c) (ctlOut c) v (lisClosed c)
    (tunnels c) (preMasterSecret c) (lastRead c) (encryptMode c) (busyPipes c)
    (idleCount c) (idlePipes c) (dieClosed c) (toDie c) (writeChan c) (ClientID c).
Definition set_lisClosed v c :=
  mkControl (mem c) (smuxClosed c) (smuxStreams c) (ctlOut c) (ctlConnClosed c) v
    (tunnels c) (preMasterSecret c) (lastRead c) (encryptMode c) (busyPipes c)
    (idleCount c) (idlePipes c) (dieClosed c) (toDie c) (writeChan c) (ClientID c).
Definition set_preMasterSecret v c :=
  mkControl (mem c) (smuxClosed c) (smuxStreams c) (ctlOut c) (ctlConnClosed c) (lisClosed c)
    (tunnels c) v (lastRead c) (encryptMode c) (busyPipes c)
    (idleCount c) (idlePipes c) (dieClosed c) (toDie c) (writeChan c) (ClientID c).
Definition set_lastRead v c :=
  mkControl (mem c) (smuxClosed c) (smuxStreams c) (ctlOut c) (ctlConnClosed c) (lisClosed c)
    (tunnels c) (preMasterSecret c) v (encryptMode c) (busyPipes c)
    (idleCount c) (idlePipes c) (dieClosed c) (toDie c) (writeChan c) (ClientID c).
Definition set_busyPipes v c :=
  mkControl (mem c) (smuxClosed c) (smuxStreams c) (ctlOut c) (ctlConnClosed c) (lisClosed c)
    (tunnels c) (preMasterSecret c) (lastRead c) (encryptMode c) v
    (idleCount c) (idlePipes c) (dieClosed c) (toDie c) (writeChan c) (ClientID c).
Definition set_idleCount v c :=
  mkControl (mem c) (smuxClosed c) (smuxStreams c) (ctlOut c) (ctlConnClosed c) (lisClosed c)
    (tunnels c) (preMasterSecret c) (lastRead c) (encryptMode c) (busyPipes c)
    v (idlePipes c) (dieClosed c) (toDie c) (writeChan c) (ClientID c).
Definition set_idlePipes v c :=
  mkControl (mem c) (smuxClosed c) (smuxStreams c) (ctlOut c) (ctlConnClosed c) (lisClosed c)
    (tunnels c) (preMasterSecret c) (lastRead c) (encryptMode c) (busyPipes c)
    (idleCount c) v (dieClosed c) (toDie c) (writeChan c) (ClientID c).
Definition set_dieClosed v c :=
  mkControl (mem c) (smuxClosed c) (smuxStreams c) (ctlOut c) (ctlConnClosed c) (lisClosed c)
    (tunnels c) (preMasterSecret c) (lastRead c) (encryptMode c) (busyPipes c)
    (idleCount c) (idlePipes c) v (toDie c) (writeChan c) (ClientID c).
Definition set_toDie v c :=
  mkControl (mem c) (smuxClosed c) (smuxStreams c) (ctlOut c) (ctlConnClosed c) (lisClosed c)
    (tunnels c) (preMasterSecret c) (lastRead c) (encryptMode c) (busyPipes c)
    (idleCount c) (idlePipes c) (dieClosed c) v (writeChan c) (ClientID c).
Definition set_writeChan v c :=
  mkControl (mem c) (smuxClosed c) (smuxStreams c) (ctlOut c) (ctlConnClosed c) (lisClosed c)
    (tunnels c) (preMasterSecret c) (lastRead c) (encryptMode c) (busyPipes c)
    (idleCount c) (idlePipes c) (dieClosed c) (toDie c) v (ClientID c).
Definition set_ClientID v c :=
  mkControl (mem c) (smuxClosed c) (smuxStreams c) (ctlOut c) (ctlConnClosed c) (lisClosed c)
    (tunnels c) (preMasterSecret c) (lastRead c) (encryptMode c) (busyPipes c)
    (idleCount c) (idlePipes c) (dieClosed c) (toDie c) (writeChan c) v.

(** [NewControl] (lines 28-40): every field the constructor does not
    name has Go's zero value; no node and no session exists yet. *)
Definition NewControl (encryptMode : string) : Control :=
  mkControl ∅ ∅ (λ _, 0%nat) [] false ∅ [] [] 0 encryptMode None 0 None
    false NoReceiver [] 0%N.

(** ** The monad of Control methods *)

Inductive res (A : Type) :=
| Ok (a : A)
| Panic (msg : string)
| Diverge.
Arguments Ok {A} a.
Arguments Panic {A} msg.
Arguments Diverge {A}.

Definition M (A : Type) : Type := Control → res (A * Control).

Global Instance M_ret : MRet M := λ A a c, Ok (a, c).
Global Instance M_bind : MBind M := λ A B f m c,
  match m c with
  | Ok (a, c') => f a c'
  | Panic msg => Panic msg
  | Diverge => Diverge
  end.

Definition gets {A} (f : Control → A) : M A := λ c, Ok (f c, c).
Definition modify (f : Control → Control) : M unit := λ c, Ok (tt, f c).
Definition panic {A} (msg : string) : M A := λ _, Panic msg.
Definition diverge {A} : M A := λ _, Diverge.

(** Reading and writing a node through a (non-nil) pointer. An address
    outside [mem] does not occur for a Go pointer; the model faults on
    it. *)
Definition load (p : ptr) : M pipeNode := λ c,
  match mem c !! p with
  | Some n => Ok (n, c)
  | None => Panic "invalid memory address or nil pointer dereference"
  end.
Definition store (p : ptr) (n : pipeNode) : M unit :=
  modify (λ c, set_mem (<[p := n]> (mem c)) c).

Definition prevOf (p : ptr) : M (option ptr) := n ← load p; mret (prev n).
Definition nextOf (p : ptr) : M (option ptr) := n ← load p; mret (next n).
Definition pipeOf (p : ptr) : M session := n ← load p; mret (pipe n).
Definition storePrev (p : ptr) (v : option ptr) : M unit :=
  n ← load p; store p (PipeNode v (next n) (pipe n)).
Definition storeNext (p : ptr) (v : option ptr) : M unit :=
  n ← load p; store p (PipeNode (prev n) v (pipe n)).

(** [&pipeNode{...}]: a cell at an address not in use. *)
Definition new (n : pipeNode) : M ptr := λ c,
  let p := fresh (dom (mem c)) in Ok (p, set_mem (<[p := n]> (mem c)) c).

(** The multiplex session's interface (section 6 of the specification):
    [is_closed], [num_streams], [close]. *)
Module smux.
Definition IsClosed (s : session) : M bool :=
  gets (λ c, bool_decide (s ∈ smuxClosed c)).
Definition NumStreams (s : session) : M Z :=
  gets (λ c, Z.of_nat (smuxStreams c s)).
Definition Close (s : session) : M unit :=
  modify (λ c, set_smuxClosed ({[s]} ∪ smuxClosed c) c).
End smux.

(** ** The pipe lists (lines 78-125) *)

Definition addIdlePipe (pipe : session) : M unit :=
  pNode ← new (PipeNode None None pipe);
  hd ← gets idlePipes;
  match hd with
  | Some q => storePrev q (Some pNode);; storeNext pNode (Some q)
  | None => mret tt
  end;;
  modify (set_idlePipes (Some pNode));;
  modify (λ c, set_idleCount (idleCount c + 1) c).

Definition addBusyPipe (pipe : session) : M unit :=
  pNode ← new (PipeNode None None pipe);
  hd ← gets busyPipes;
  match hd with
  | Some q => storePrev q (Some pNode);; storeNext pNode (Some q)
  | None => mret tt
  end;;
  modify (set_busyPipes (Some pNode)).

Definition removeIdleNode (pNode : ptr) : M unit :=
  pv ← prevOf pNode;
  match pv with
  | None =>
      nx ← nextOf pNode;
      modify (set_idlePipes nx);;
      hd ← gets idlePipes;
      match hd with
      | Some q => storePrev q None
      | None => mret tt
      end
  | Some pq =>
      nx ← nextOf pNode;
      storeNext pq nx;;
      nx' ← nextOf pNode;
      match nx' with
      | Some q => pv' ← prevOf pNode; storePrev q pv'
      | None => mret tt
      end
  end;;
  modify (λ c, set_idleCount (idleCount c - 1) c).

Definition removeBusyNode (pNode : ptr) : M unit :=
  pv ← prevOf pNode;
  match pv with
  | None =>
      nx ← nextOf pNode;
      modify (set_busyPipes nx);;
      hd ← gets busyPipes;
      match hd with
      | Some q => storePrev q None
      | None => mret tt
      end
  | Some pq =>
      nx ← nextOf pNode;
      storeNext pq nx;;
      nx' ← nextOf pNode;
      match nx' with
      | Some q => pv' ← prevOf pNode; storePrev q pv'
      | None => mret tt
      end
  end.

(** ** [clean] and [getIdleFast] (lines 146-192)

    The two [for] loops of [clean] and the one of [getIdleFast] walk a
    list through [next]; [fuel] bounds the number of iterations and a
    walk that exhausts it diverges. The entry points give one more
    iteration than there are cells in memory, which a walk over an
    acyclic list never needs. *)

Fixpoint cleanBusyLoop (fuel : nat) (busy : option ptr) : M unit :=
  match fuel with
  | O => diverge
  | S fuel =>
      match busy with
      | None => mret tt
      | Some b =>
          s ← pipeOf b;
          closed ← smux.IsClosed s;
          (if (closed : bool) then removeBusyNode b
           else
             s ← pipeOf b;
             k ← smux.NumStreams s;
             if bool_decide (k < maxStreams) then
               removeBusyNode b;;
               s ← pipeOf b;
               addIdlePipe s
             else mret tt);;
          nx ← nextOf b;
          cleanBusyLoop fuel nx
      end
  end.

Fixpoint cleanIdleLoop (fuel : nat) (idle : option ptr) : M unit :=
  match fuel with
  | O => diverge
  | S fuel =>
      match idle with
      | None => mret tt
      | Some i =>
          s ← pipeOf i;
          closed ← smux.IsClosed s;
          (if (closed : bool) then removeIdleNode i
           else
             s ← pipeOf i;
             k ← smux.NumStreams s;
             cnt ← gets idleCount;
             if bool_decide (k = 0) && bool_decide (cnt > maxIdlePipes) then
               removeIdleNode i;;
               s ← pipeOf i;
               smux.Close s
             else mret tt);;
          nx ← nextOf i;
          cleanIdleLoop fuel nx
      end
  end.

Definition walkFuel (c : Control) : nat := S (size (mem c)).

Definition clean : M unit :=
  fuel ← gets walkFuel;
  busy ← gets busyPipes;
  cleanBusyLoop fuel busy;;
  fuel ← gets walkFuel;
  idle ← gets idlePipes;
  cleanIdleLoop fuel idle.

Fixpoint getIdleFastLoop (fuel : nat) (idle : option ptr) : M (option ptr) :=
  match fuel with
  | O => diverge
  | S fuel =>
      match idle with
      | None => mret None
      | Some i =>
          s ← pipeOf i;
          closed ← smux.IsClosed s;
          if (closed : bool) then
            removeIdleNode i;;
            nx ← nextOf i;
            getIdleFastLoop fuel nx
          else
            removeIdleNode i;;
            mret (Some i)
      end
  end.

Definition getIdleFast : M (option ptr) :=
  fuel ← gets walkFuel;
  idle ← gets idlePipes;
  getIdleFastLoop fuel idle.

(** The nodes reachable from a list head through [next], in order. *)
Fixpoint walk (fuel : nat) (h : gmap ptr pipeNode) (p : option ptr) : list ptr :=
  match fuel with
  | O => []
  | S fuel =>
      match p with
      | None => []
      | Some a =>
          match h !! a with
          | Some n => a :: walk fuel h (next n)
          | None => []
          end
      end
  end.

Definition idleNodes (c : Control) : list ptr := walk (walkFuel c) (mem c) (idlePipes c).
Definition busyNodes (c : Control) : list ptr := walk (walkFuel c) (mem c) (busyPipes c).

(** The session a node holds ([0] for an address outside memory, which
    the lists never contain). *)
Definition pipeAt (c : Control) (p : ptr) : session :=
  match mem c !! p with Some n => pipe n | None => 0%nat end.
Definition idleSessions (c : Control) : list session := pipeAt c <$> idleNodes c.
Definition busySessions (c : Control) : list session := pipeAt c <$> busyNodes c.

(** ** Channels and [select]

    A [select] between one channel operation and [<-c.die] takes a ready
    case, either of them when both are ready ([pick] is the run-time's
    choice), and waits when none is. *)
Inductive sel := SelFirst | SelDie | SelBlocked.

Definition select2 (ready dead pick : bool) : sel :=
  match ready, dead with
  | true, false => SelFirst
  | false, true => SelDie
  | true, true => if pick then SelFirst else SelDie
  | false, false => SelBlocked
  end.

(** [writeChan] is made with capacity 128 (line 35). *)
Definition writeChanCap : nat := 128.

(** A plain send [c.writeChan <- w] on the buffered channel. With room
    in the queue it completes, the frame at the tail; on a full queue the
    sender is parked and the queue is as it was. The result says whether
    the send completed. *)
Definition sendWriteChan (w : writeReq) : M bool :=
  q ← gets writeChan;
  if bool_decide (length q < writeChanCap)%nat
  then modify (λ c, set_writeChan (writeChan c ++ [w]) c);; mret true
  else mret false.

(** ** [putPipe] and [getPipe] (lines 127-144)

    [mgr] says whether the manager is parked at a receive on [pipeAdd]
    (for [putPipe]) and which session it offers on [pipeGet] (for
    [getPipe]). Every receive on [pipeAdd] is a case of a [select] that
    also waits on [die], and closing [die] takes every goroutine parked
    on it out of its [select]: once [die] is closed no receiver is left
    on [pipeAdd], and the send of [putPipe] is ready only while [die]
    is open. [getPipe] takes the offer it is given; [takePipe] below is
    [getPipe] with the manager at the other end, which offers only while
    [die] is open. *)
Inductive putOutcome := PutDelivered | PutClosed | PutBlocked.

Definition putPipe (p : session) (mgr pick : bool) : M putOutcome :=
  dead ← gets dieClosed;
  match select2 (mgr && negb dead) dead pick with
  | SelFirst => mret PutDelivered
  | SelDie => smux.Close p;; mret PutClosed
  | SelBlocked => mret PutBlocked
  end.

Inductive getOutcome := GetPipe (p : option session) | GetBlocked.

Definition getPipe (mgr : option (option session)) (pick : bool) : M getOutcome :=
  dead ← gets dieClosed;
  match select2 (bool_decide (is_Some mgr)) dead pick with
  | SelFirst => mret (GetPipe (default None mgr))
  | SelDie => mret (GetPipe None)
  | SelBlocked => mret GetBlocked
  end.

(** ** [pipeManage] (lines 194-259)

    The manager is at one of these points: the [Prepare] label; the send
    of line 206, parked on a full write queue with the result of the
    second pop in [idle]; the [select] inside the wait loop, or the body
    of its [pipeAdd] case with the session received; the [select] under
    the [Available] label, or the body of its [pipeAdd] case; [Exited]
    is after its [return]. [prepare] is the code from [Prepare] to the
    next channel operation at which the manager can be parked. The step
    functions take the case of the [select] as an event, whether or not
    the run-time could deliver it in the state at hand. *)
Inductive mgrPoint :=
| AtPrepare
| AtSend (idle : option ptr)
| AtWait
| AtWaitGot (p : session)
| AtAvailable
| AtAvailGot (p : session)
| Exited.

Inductive waitEvent :=
| WTick
| WPipeAdd (p : session)
| WDie
| WTimeout.

Inductive availEvent :=
| ATick
| APipeGet
| APipeAdd (p : session)
| ADie.

(** Lines 207-232, once the send of line 206 has completed. *)
Definition afterSend (idle : option ptr) : M (option session * mgrPoint) :=
  match idle with
  | None => mret (None, AtWait)
  | Some i => s ← pipeOf i; mret (Some s, AtAvailable)
  end.

(** The send of line 206 and what follows it. *)
Definition sendStep (idle : option ptr) : M (option session * mgrPoint) :=
  sent ← sendWriteChan (WriteReq TypePipeReq BNil);
  if (sent : bool) then afterSend idle else mret (None, AtSend idle).

Definition prepare (available : option session) : M (option session * mgrPoint) :=
  stale ← match available with
          | None => mret true
          | Some a => smux.IsClosed a
          end;
  if (stale : bool) then
    idle ← getIdleFast;
    match idle with
    | None =>
        clean;;
        idle ← getIdleFast;
        sendStep idle
    | Some i => s ← pipeOf i; mret (Some s, AtAvailable)
    end
  else mret (available, AtAvailable).

(** The body of [case p := <-c.pipeAdd] in the wait loop (lines
    217-225). *)
Definition waitGot (p : session) : M (option session * mgrPoint) :=
  closed ← smux.IsClosed p;
  if (closed : bool) then mret (None, AtWait)
  else
    k ← smux.NumStreams p;
    if bool_decide (k < maxStreams) then mret (Some p, AtAvailable)
    else addBusyPipe p;; mret (None, AtWait).

Definition waitStep (ev : waitEvent) : M (option session * mgrPoint) :=
  match ev with
  | WTick =>
      clean;;
      idle ← getIdleFast;
      match idle with
      | Some i => s ← pipeOf i; mret (Some s, AtAvailable)
      | None => mret (None, AtWait)
      end
  | WPipeAdd p => mret (None, AtWaitGot p)
  | WDie => mret (None, Exited)
  | WTimeout => mret (None, AtPrepare)
  end.

(** The body of [case p := <-c.pipeAdd] under [Available] (lines
    247-254). *)
Definition availGot (available : option session) (p : session)
    : M (option session * mgrPoint) :=
  closed ← smux.IsClosed p;
  (if (closed : bool) then mret tt
   else
     k ← smux.NumStreams p;
     if bool_decide (k < maxStreams) then addIdlePipe p
     else addBusyPipe p);;
  mret (available, AtPrepare).

Definition availableStep (available : option session) (ev : availEvent)
    : M (option session * mgrPoint) :=
  match ev with
  | ATick => clean;; mret (available, AtPrepare)
  | APipeGet => mret (None, AtPrepare)
  | APipeAdd p => mret (available, AtAvailGot p)
  | ADie => mret (available, Exited)
  end.

(** One move of the manager: a case of the [select] it is parked at, or
    [MRun], the code it runs on its own from where it is (a send parked
    on a full queue is tried again). An event that is not a case of the
    [select] the manager is at does nothing. *)
Inductive mgrEvent := MWait (ev : waitEvent) | MAvail (ev : availEvent) | MRun.

Definition mgrStep (available : option session) (pt : mgrPoint) (ev : mgrEvent)
    : M (option session * mgrPoint) :=
  match pt, ev with
  | AtPrepare, MRun => prepare available
  | AtSend idle, MRun => sendStep idle
  | AtWait, MWait w => waitStep w
  | AtWaitGot p, MRun => waitGot p
  | AtAvailable, MAvail a => availableStep available a
  | AtAvailGot p, MRun => availGot available p
  | _, _ => mret (available, pt)
  end.

(** What a goroutine has come to after a turn of its loop: it goes on,
    it has returned, or it is parked at a channel operation. *)
Inductive loopCtl := Continue | Return | Blocked.

(** ** [Close], [IsClosed] and [moderator] (lines 261-307) *)

(** The non-blocking offer [select { case c.toDie <- struct{}{}: default: }]. *)
Definition offerToDie : M unit :=
  modify (λ c, match toDie c with
               | Parked => set_toDie Handed c
               | _ => c
               end).

Definition Close : M unit :=
  (panic "closing" : M unit);;
  offerToDie;;
  mret tt.

Definition IsClosed : M bool := gets dieClosed.

(** [close(c.die)]; closing a closed channel is a run-time panic. *)
Definition closeDie : M unit := λ c,
  if dieClosed c then Panic "close of closed channel"
  else Ok (tt, set_dieClosed true c).

Fixpoint closeAllLoop (fuel : nat) (node : option ptr) : M unit :=
  match fuel with
  | O => diverge
  | S fuel =>
      match node with
      | None => mret tt
      | Some i =>
          s ← pipeOf i;
          closed ← smux.IsClosed s;
          (if negb closed then s ← pipeOf i; smux.Close s else mret tt);;
          nx ← nextOf i;
          closeAllLoop fuel nx
      end
  end.

(** The body of [moderator] once its receive [<-c.toDie] has
    returned. *)
Definition moderator : M unit :=
  closeDie;;
  ts ← gets tunnels;
  modify (λ c, set_lisClosed (list_to_set (listener <$> ts) ∪ lisClosed c) c);;
  fuel ← gets walkFuel;
  idle ← gets idlePipes;
  closeAllLoop fuel idle;;
  busy ← gets busyPipes;
  closeAllLoop fuel busy;;
  modify (set_ctlConnClosed true).

(** [moderator] from its first statement: the receive [<-c.toDie]
    parks the moderator until a value is handed over. *)
Definition moderatorRun : M loopCtl :=
  td ← gets toDie;
  match td with
  | Handed => moderator;; mret Return
  | _ => modify (set_toDie Parked);; mret Blocked
  end.

(** ** The loops of [recvLoop], [writeLoop] and [Serve] (lines 309-388) *)

(** Conversion to [uint64], and subtraction in it. *)
Definition u64 (z : Z) : Z := z mod 2 ^ 64.
Definition u64_sub (a b : Z) : Z := (a - b) mod 2 ^ 64.

(** One turn of the [for] of [recvLoop]: [rd] is what
    [msg.ReadMsgWithoutTimeout] returns (message type, or an error) and
    [now] the clock read after it. The loop is parked at the send of
    line 326 when the write queue is full. *)
Definition recvLoopIter (rd : string + MsgType) (now : Z) : M loopCtl :=
  dead ← IsClosed;
  if (dead : bool) then mret Return
  else
    match rd with
    | inl _ => Close;; mret Return
    | inr mT =>
        modify (set_lastRead (u64 now));;
        match mT with
        | TypePong => mret Continue
        | TypePing =>
            sent ← sendWriteChan (WriteReq TypePong BNil);
            mret (if (sent : bool) then Continue else Blocked)
        | _ => mret Continue
        end
    end.

(** One turn of the [for] of [writeLoop]. Its locals are [lastWrite] and
    [idx]; [now1] and [now2] are the two clock reads, [werr] the error of
    [msg.WriteMsg], if any. A frame that [WriteMsg] took is appended to
    [ctlOut]. *)
Definition isKeepalive (t : MsgType) : bool :=
  bool_decide (t = TypePing) || bool_decide (t = TypePong).

Definition writeLoopIter (lastWrite : Z) (idx : Z) (now1 now2 : Z) (werr : option string)
    : M (loopCtl * (Z * Z)) :=
  dead ← IsClosed;
  if (dead : bool) then mret (Return, (lastWrite, idx))
  else
    q ← gets writeChan;
    match q with
    | [] => mret (Blocked, (lastWrite, idx))
    | msgBody :: q' =>
        modify (set_writeChan q');;
        if isKeepalive (mType msgBody) && bool_decide (now1 < lastWrite + pingInterval `quot` 2)
        then mret (Continue, (lastWrite, idx))
        else
          let idx' := if bool_decide (mType msgBody = TypePipeReq) then idx + 1 else idx in
          match werr with
          | Some _ => Close;; mret (Return, (now2, idx'))
          | None =>
              modify (λ c, set_ctlOut (ctlOut c ++ [msgBody]) c);;
              mret (Continue, (now2, idx'))
          end
    end.

(** One case of the [select] of [Serve]: the ticker fired at [now], or
    [die] is closed. In the inner [select] the send is ready when the
    queue has room. *)
Inductive serveEvent := SvTick (now : Z) (pick : bool) | SvDie.

Definition serveStep (ev : serveEvent) : M loopCtl :=
  match ev with
  | SvTick now pick =>
      lr ← gets lastRead;
      if bool_decide (u64_sub (u64 now) lr > u64 pingTimeout) then
        Close;; mret Return
      else
        room ← gets (λ c, bool_decide (length (writeChan c) < writeChanCap)%nat);
        dead ← gets dieClosed;
        match select2 room dead pick with
        | SelFirst => sendWriteChan (WriteReq TypePing BNil);; mret Continue
        | SelDie => mret Return
        | SelBlocked => mret Blocked
        end
  | SvDie => mret Return
  end.

(** ** Hand-over on [pipeAdd]

    The channel is unbuffered: the send of [putPipe] completes together
    with the manager's receive, in whichever [select] the manager is
    parked. [m] is the manager's [available] and the point it is at. *)
Definition mgrSt : Type := option session * mgrPoint.

Definition receives (pt : mgrPoint) : bool :=
  match pt with
  | AtWait | AtAvailable => true
  | _ => false
  end.

Definition handOver (p : session) (m : mgrSt) : M (putOutcome * mgrSt) :=
  o ← putPipe p (receives m.2) true;
  match o with
  | PutDelivered =>
      m' ← mgrStep m.1 m.2 (match m.2 with
                            | AtWait => MWait (WPipeAdd p)
                            | _ => MAvail (APipeAdd p)
                            end);
      mret (o, m')
  | _ => mret (o, m)
  end.

(** ** The connection handler of [ServerSyncTunnels] (lines 411-439)

    The goroutine started for an accepted connection, from the return
    of [getPipe]: [got] is what it returned, [opened] whether
    [OpenStream] succeeds for a destination, and [m] where the manager
    is when the handler comes to [putPipe]. [connSt] is what the handler
    has done to the accepted connection and to the stream. The deferred
    calls run when the handler returns, the last deferred first. *)
Record connSt := mkConnSt {
  connClosed : bool;
  streamOpen : bool;
  spliced : bool
}.

Definition conn0 : connSt := mkConnSt false false false.
Definition closeConn (st : connSt) : connSt := mkConnSt true (streamOpen st) (spliced st).
Definition openedStream (st : connSt) : connSt := mkConnSt (connClosed st) true (spliced st).
Definition closeStream (st : connSt) : connSt := mkConnSt (connClosed st) false (spliced st).
Definition splice (st : connSt) : connSt := mkConnSt (connClosed st) (streamOpen st) true.

(** Where the handler is: parked inside [putPipe], or returned. *)
Inductive hPoint := HInPutPipe | HReturned.

Definition handleConn (t : Tunnel) (got : option session) (opened : string → bool)
    (m : mgrSt) : M (hPoint * connSt * mgrSt) :=
  match got with
  | None => mret (HReturned, closeConn conn0, m)
  | Some p =>
      if opened (LocalAddress t) then
        let st := openedStream conn0 in
        r ← handOver p m;
        match r.1 with
        | PutBlocked => mret (HInPutPipe, st, r.2)
        | _ => mret (HReturned, closeConn (closeStream (splice st)), r.2)
        end
      else
        r ← handOver p m;
        match r.1 with
        | PutBlocked => mret (HInPutPipe, conn0, r.2)
        | _ => mret (HReturned, closeConn conn0, r.2)
        end
  end.

(** ** The handshakes (lines 453-526) *)

(** Go's [error]: [None] is [nil]. [wrap] is [errors.Wrap]. *)
Definition error := option string.
Definition wrap (e : string) (msg : string) : error := Some (msg +:+ ": " +:+ e).

(** The process: the Controls that exist, by address, and the registry
    [ControlMap]. *)
Definition cref := nat.

Record Server := mkServer {
  controls : gmap cref Control;
  ControlMap : gmap UUID cref
}.

(** Modelled from the spec: the crypto collaborator (section 6 of the
    specification), package [crypto] not being part of the sources at
    hand. [GenerateKeyExChange] and [GenUUID] are random; the record
    holds what they return in the run considered. *)
Record cryptoEnv := mkCrypto {
  GenerateKeyExChange : option (list Z) * option (list Z);
  ProcessKeyExchange : list Z → list Z → string + list Z;
  GenUUID : UUID;
  prf12 : list Z → UUID → list Z → list Z;
  NewCryptoConn : list Z → option string
}.

(** What the control connection does during [ServerHandShake]: the
    result of the read and the errors of the two writes. *)
Record hsIO := mkHsIO {
  ioRead : string + (MsgType * Body);
  ioWriteSKE : option string;
  ioWriteCID : option string
}.

Definition GenerateClientId (cr : cryptoEnv) : M UUID :=
  modify (set_ClientID (GenUUID cr));;
  gets ClientID.

(** The key exchange of [ServerHandShake] (lines 459-483), on the
    Control: [inl e] is an early [return e]. *)
Definition keyExchange (cr : cryptoEnv) (io : hsIO) : M (string + unit) :=
  match ioRead io with
  | inl e => mret (inl ("msg.ReadMsg: " +:+ e))
  | inr (mT, body) =>
      if bool_decide (mT ≠ TypeClientKeyExchange) then
        mret (inl "invalid msg type")
      else
        match body with
        | BCipherKeyExchange ck =>
            match GenerateKeyExChange cr with
            | (Some priv, Some keyMsg) =>
                match ProcessKeyExchange cr priv ck with
                | inl e => mret (inl ("crypto.ProcessKeyExchange: " +:+ e))
                | inr pms =>
                    modify (set_preMasterSecret pms);;
                    match ioWriteSKE io with
                    | Some e => mret (inl ("write ServerKeyExchange msg: " +:+ e))
                    | None =>
                        modify (λ c, set_ctlOut
                          (ctlOut c ++ [WriteReq TypeServerKeyExchange (BCipherKeyExchange keyMsg)]) c);;
                        mret (inr tt)
                    end
                end
            | _ => mret (inl "crypto.GenerateKeyExChange error ,exchange key is nil")
            end
        | _ => panic "interface conversion"
        end
  end.

(** [ServerHandShake] on the Control at address [a]. *)
Definition ServerHandShake (cr : cryptoEnv) (io : hsIO) (a : cref) (sv : Server)
    : res (error * Server) :=
  match controls sv !! a with
  | None => Panic "invalid memory address or nil pointer dereference"
  | Some c =>
      let kx := if bool_decide (encryptMode c ≠ "none") then keyExchange cr io
                else mret (inr tt) in
      match kx c with
      | Panic msg => Panic msg
      | Diverge => Diverge
      | Ok (inl e, c1) => Ok (Some e, mkServer (<[a := c1]> (controls sv)) (ControlMap sv))
      | Ok (inr _, c1) =>
          match GenerateClientId cr c1 with
          | Panic msg => Panic msg
          | Diverge => Diverge
          | Ok (id, c2) =>
              match ioWriteCID io with
              | Some e =>
                  Ok (Some ("Write ClientId: " +:+ e),
                      mkServer (<[a := c2]> (controls sv)) (ControlMap sv))
              | None =>
                  let c3 := set_ctlOut
                    (ctlOut c2 ++ [WriteReq TypeClientID (BClientIDExchange id)]) c2 in
                  Ok (None, mkServer (<[a := c3]> (controls sv))
                                     (<[ClientID c3 := a]> (ControlMap sv)))
              end
          end
      end
  end.

Record PipeClientHello := mkHello { helloClientID : UUID; Once : list Z }.

(** What a call has come to: it has returned, or it is parked inside
    the [putPipe] it calls. *)
Inductive callState (A : Type) := Returned (a : A) | InPutPipe.
Arguments Returned {A} a.
Arguments InPutPipe {A}.

(** [PipeHandShake]: [smuxErr] is the error of [smux.Client], [sess] the
    session it makes, [mgr] and [pick] resolve the [select] of
    [putPipe]. *)
Definition PipeHandShake (cr : cryptoEnv) (phs : PipeClientHello)
    (smuxErr : option string) (sess : session) (mgr pick : bool) (sv : Server)
    : res (callState error * Server) :=
  match ControlMap sv !! helloClientID phs ≫= (λ a, (a,.) <$> controls sv !! a) with
  | None => Panic "invalid memory address or nil pointer dereference"
  | Some (a, ctl) =>
      let made : error :=
        if bool_decide (encryptMode ctl ≠ "none") then
          let masterKey := prf12 cr (preMasterSecret ctl) (helloClientID phs) (Once phs) in
          match NewCryptoConn cr masterKey with
          | Some e => Some ("crypto.NewCryptoConn: " +:+ e)
          | None =>
              match smuxErr with
              | Some e => Some ("smux.Client: " +:+ e)
              | None => None
              end
          end
        else
          match smuxErr with
          | Some e => Some ("smux.Client: " +:+ e)
          | None => None
          end in
      match made with
      | Some e => Ok (Returned (Some e), sv)
      | None =>
          match putPipe sess mgr pick ctl with
          | Ok (PutBlocked, ctl') =>
              Ok (InPutPipe, mkServer (<[a := ctl']> (controls sv)) (ControlMap sv))
          | Ok (_, ctl') =>
              Ok (Returned None, mkServer (<[a := ctl']> (controls sv)) (ControlMap sv))
          | Panic msg => Panic msg
          | Diverge => Diverge
          end
      end
  end.

(** The ways [ServerHandShake] can fail: the read, a message of another
    type, the key exchange, or one of the two writes. *)
Definition kxFailure (cr : cryptoEnv) (io : hsIO) : Prop :=
  match ioRead io with
  | inl _ => True
  | inr (mT, body) =>
      mT ≠ TypeClientKeyExchange ∨
      match body with
      | BCipherKeyExchange ck =>
          match GenerateKeyExChange cr with
          | (Some priv, Some _) =>
              match ProcessKeyExchange cr priv ck with
              | inl _ => True
              | inr _ => ioWriteSKE io ≠ None
              end
          | _ => True
          end
      | _ => False
      end
  end.

Definition hsFailure (c : Control) (cr : cryptoEnv) (io : hsIO) : Prop :=
  (encryptMode c ≠ "none" ∧ kxFailure cr io) ∨ ioWriteCID io ≠ None.

(** The type assertion of [body] to a [msg.CipherKeyExchange] fails. *)
Definition hsBadBody (c : Control) (io : hsIO) : Prop :=
  encryptMode c ≠ "none" ∧
  match ioRead io with
  | inr (TypeClientKeyExchange, BCipherKeyExchange _) => False
  | inr (TypeClientKeyExchange, _) => True
  | _ => False
  end.

(** ** [ServerSyncTunnels] (lines 390-451)

    [syncRead] is what [msg.ReadMsg] returns (the message type is not
    looked at), [syncListen i] what the [i]-th call of [net.ListenTCP]
    returns (an error, or a listener and the port it is bound to) and
    [syncWrite] the error of the final [msg.WriteMsg], if any. The accept
    loop started for each listener is [handleConn] above, once per
    accepted connection. *)
Record syncIO := mkSyncIO {
  syncRead : string + Body;
  syncListen : nat → string + (nat * N);
  syncWrite : option string
}.

Definition set_tunnels v c :=
  mkControl (mem c) (smuxClosed c) (smuxStreams c) (ctlOut c) (ctlConnClosed c) (lisClosed c)
    v (preMasterSecret c) (lastRead c) (encryptMode c) (busyPipes c)
    (idleCount c) (idlePipes c) (dieClosed c) (toDie c) (writeChan c) (ClientID c).

(** The [for] over [sstm.Tunnels], from index [i] on: [inl e] is the
    early [return], [inr out] the entries with their [RemoteAddress]
    filled in. *)
Fixpoint bindTunnels (serverDomain : string) (listen : nat → string + (nat * N))
    (i : nat) (ts : list (string * string)) : M (string + list (string * string)) :=
  match ts with
  | [] => mret (inr [])
  | (loc, _) :: ts' =>
      match listen i with
      | inl e => mret (inl ("binding TCP listener: " +:+ e))
      | inr (lis, port) =>
          let rem := serverDomain +:+ ":" +:+ pretty port in
          modify (λ c, set_tunnels (tunnels c ++ [mkTunnel loc rem lis]) c);;
          r ← bindTunnels serverDomain listen (S i) ts';
          mret (match r with
                | inl e => inl e
                | inr out => inr ((loc, rem) :: out)
                end)
      end
  end.

Definition ServerSyncTunnels (serverDomain : string) (io : syncIO) : M error :=
  match syncRead io with
  | inl e => mret (wrap e "ReadMsg sstm")
  | inr body =>
      match body with
      | BSyncTunnels ts =>
          r ← bindTunnels serverDomain (syncListen io) 0 ts;
          match r with
          | inl e => mret (Some e)
          | inr out =>
              match syncWrite io with
              | Some e => mret (wrap e "WriteMsg sstm")
              | None =>
                  modify (λ c, set_ctlOut
                    (ctlOut c ++ [WriteReq TypeSyncTunnels (BSyncTunnels out)]) c);;
                  mret None
              end
          end
      | _ => panic "interface conversion"
      end
  end.

(** The requested tunnels bound before the first [ListenTCP] that
    fails, as the Control records them. *)
Fixpoint boundTunnels (serverDomain : string) (listen : nat → string + (nat * N))
    (i : nat) (ts : list (string * string)) : list Tunnel :=
  match ts with
  | [] => []
  | (loc, _) :: ts' =>
      match listen i with
      | inl _ => []
      | inr (lis, port) =>
          mkTunnel loc (serverDomain +:+ ":" +:+ pretty port) lis
          :: boundTunnels serverDomain listen (S i) ts'
      end
  end.

(** ** Several turns of [writeLoop]

    The loop run over the clock reads of its successive turns, every
    [msg.WriteMsg] succeeding; it stops at the first turn that does not
    end in [continue]. *)
Fixpoint writeLoopRun (clock : list (Z * Z)) (lastWrite idx : Z)
    : M (loopCtl * (Z * Z)) :=
  match clock with
  | [] => mret (Continue, (lastWrite, idx))
  | (now1, now2) :: clock' =>
      r ← writeLoopIter lastWrite idx now1 now2 None;
      match r with
      | (Continue, (lw, ix)) => writeLoopRun clock' lw ix
      | _ => mret r
      end
  end.

(** The frames of a queue that are not keepalives, and the PIPE_REQ
    frames among them. *)
Definition payload (q : list writeReq) : list writeReq :=
  List.filter (λ w, negb (isKeepalive (mType w))) q.
Definition pipeReqs (q : list writeReq) : Z :=
  Z.of_nat (length (List.filter (λ w, bool_decide (mType w = TypePipeReq)) q)).

(** ** Several moves of the manager *)
Fixpoint mgrRun (evs : list mgrEvent) (available : option session) (pt : mgrPoint)
    : M (option session * mgrPoint) :=
  match evs with
  | [] => mret (available, pt)
  | ev :: evs' =>
      r ← mgrStep available pt ev;
      mgrRun evs' r.1 r.2
  end.

(** A session as the tests of [clean] (lines 152 and 154) classify it:
    closed; live with [maxStreams] streams or more; live with fewer. *)
Definition isDead (c : Control) (s : session) : bool := bool_decide (s ∈ smuxClosed c).
Definition isBusy (c : Control) (s : session) : bool :=
  negb (isDead c s) && negb (bool_decide (Z.of_nat (smuxStreams c s) < maxStreams)).
Definition isIdle (c : Control) (s : session) : bool :=
  negb (isDead c s) && bool_decide (Z.of_nat (smuxStreams c s) < maxStreams).

(** Only PIPE_REQ frames. *)
Definition onlyPipeReqs (q : list writeReq) : Prop :=
  ∀ w, w ∈ q → w = WriteReq TypePipeReq BNil.

(** ** Several turns of [recvLoop] and of [Serve]

    [recvLoopRun] is the [for] of [recvLoop] over what its successive
    reads return, and [serveRun] that of [Serve] over the cases its
    [select] takes; each stops at the first turn that does not end in
    [continue]. [recvLoop] is the function from its first statement, the
    store of line 310: [start] is the clock read there. *)
Fixpoint recvLoopRun (reads : list ((string + MsgType) * Z)) : M loopCtl :=
  match reads with
  | [] => mret Continue
  | (rd, now) :: reads' =>
      r ← recvLoopIter rd now;
      match r with
      | Continue => recvLoopRun reads'
      | _ => mret r
      end
  end.

Definition recvLoop (start : Z) (reads : list ((string + MsgType) * Z)) : M loopCtl :=
  modify (set_lastRead (u64 start));;
  recvLoopRun reads.

Fixpoint serveRun (evs : list serveEvent) : M loopCtl :=
  match evs with
  | [] => mret Continue
  | ev :: evs' =>
      r ← serveStep ev;
      match r with
      | Continue => serveRun evs'
      | _ => mret r
      end
  end.

(** The PONG frames owed to the frames read. *)
Definition pongsFor (frames : list (MsgType * Z)) : list writeReq :=
  replicate (length (List.filter (λ f, bool_decide (f.1 = TypePing)) frames))
            (WriteReq TypePong BNil).

(** The stamp the frames read leave in [lastRead]: the clock read after
    the last of them, and [old] when there is none. *)
Definition lastStamp (frames : list (MsgType * Z)) (old : Z) : Z :=
  match last frames with
  | Some (_, now) => u64 now
  | None => old
  end.

(** ** [writeLoop] from its first statement

    Lines 332-333: [lastWrite] is the clock read at the start of the
    loop and [idx] is 0. *)
Definition writeLoop (start : Z) (clock : list (Z * Z)) : M (loopCtl * (Z * Z)) :=
  writeLoopRun clock start 0.

(** The rule for dropping keepalives, as the specification words it,
    over the frames [q] taken at the clock reads [clock]: a frame is
    dropped when it is a PING or a PONG and the clock is less than half
    of [pingInterval] past the previous write; every other frame is
    written, at the second clock read of its turn. [prev] is the time
    of the previous write, if there was one. *)
Fixpoint writtenBySpec (prev : option Z) (q : list writeReq) (clock : list (Z * Z))
    : list writeReq :=
  match q, clock with
  | m :: q', (now1, now2) :: clock' =>
      if bool_decide (mType m = TypePing ∨ mType m = TypePong) then
        match prev with
        | Some t =>
            if bool_decide (now1 - t < pingInterval / 2)
            then writtenBySpec prev q' clock'
            else m :: writtenBySpec (Some now2) q' clock'
        | None => m :: writtenBySpec (Some now2) q' clock'
        end
      else m :: writtenBySpec (Some now2) q' clock'
  | _, _ => []
  end.

(** ** The goroutines of a Control together

    [takePipe] is [getPipe] with the manager at the other end: the
    manager offers [available] on [pipeGet] while it is parked at the
    [select] under [Available] (and, as on [pipeAdd], only while [die]
    is open); the receive completes together with the manager's send. *)
Definition takePipe (pick : bool) (m : mgrSt) : M (getOutcome * mgrSt) :=
  dead ← gets dieClosed;
  let offer := if (dead : bool) then None
               else match m.2 with
                    | AtAvailable => Some m.1
                    | _ => None
                    end in
  o ← getPipe offer pick;
  match o, offer with
  | GetPipe _, Some _ =>
      m' ← mgrStep m.1 m.2 (MAvail APipeGet);
      mret (o, m')
  | _, _ => mret (o, m)
  end.

(** One step of one goroutine of the Control: a move of the manager, a
    call of [putPipe] or of [getPipe] by a handler, a turn of
    [recvLoop], of [writeLoop] (with its locals) or of [Serve], a call
    of [Close], or the moderator at its receive. *)
Inductive sysOp :=
| SMgr (ev : mgrEvent)
| SPut (p : session)
| SGet (pick : bool)
| SRecv (rd : string + MsgType) (now : Z)
| SWrite (lastWrite idx now1 now2 : Z) (werr : option string)
| SServe (ev : serveEvent)
| SClose
| SModerator.

Definition sysStep (op : sysOp) (m : mgrSt) : M mgrSt :=
  match op with
  | SMgr ev => mgrStep m.1 m.2 ev
  | SPut p => r ← handOver p m; mret r.2
  | SGet pick => r ← takePipe pick m; mret r.2
  | SRecv rd now => recvLoopIter rd now;; mret m
  | SWrite lastWrite idx now1 now2 werr =>
      writeLoopIter lastWrite idx now1 now2 werr;; mret m
  | SServe ev => serveStep ev;; mret m
  | SClose => Close;; mret m
  | SModerator => moderatorRun;; mret m
  end.

Fixpoint sysRun (ops : list sysOp) (m : mgrSt) : M mgrSt :=
  match ops with
  | [] => mret m
  | op :: ops' => m' ← sysStep op m; sysRun ops' m'
  end.

(** The cell the manager holds while parked at the send of line 206 is
    allocated. *)
Definition mgrOk (c : Control) (m : mgrSt) : Prop :=
  match m.2 with
  | AtSend (Some i) => is_Some (mem c !! i)
  | _ => True
  end.

(** The session is on one of the two lists, or the manager has it in
    hand as [available]. *)
Definition pooled (c : Control) (m : mgrSt) (p : session) : Prop :=
  p ∈ idleSessions c ∨ p ∈ busySessions c ∨ m.1 = Some p.

(** * The pool as two doubly-linked lists

    [dseg h pv l nx] says that the cells [l] (address and session, in
    list order) form in memory [h] a doubly-linked segment entered with
    back pointer [pv] and left through [nx]. *)

Definition hd_or (nx : option ptr) (l : list (ptr * session)) : option ptr :=
  match l with
  | [] => nx
  | (q, _) :: _ => Some q
  end.

Fixpoint last_or (pv : option ptr) (l : list (ptr * session)) : option ptr :=
  match l with
  | [] => pv
  | (q, _) :: l' => last_or (Some q) l'
  end.

Fixpoint dseg (h : gmap ptr pipeNode) (pv : option ptr)
    (l : list (ptr * session)) (nx : option ptr) : Prop :=
  match l with
  | [] => True
  | (p, s) :: l' =>
      h !! p = Some (PipeNode pv (hd_or nx l') s) ∧ dseg h (Some p) l' nx
  end.

(** [rep c li lb]: the idle list of [c] is [li] and its busy list is
    [lb], and no cell belongs to both or occurs twice. *)
Record rep (c : Control) (li lb : list (ptr * session)) : Prop := mkRep {
  rep_idle : dseg (mem c) None li None;
  rep_busy : dseg (mem c) None lb None;
  rep_idle_hd : idlePipes c = hd_or None li;
  rep_busy_hd : busyPipes c = hd_or None lb;
  rep_nodup : NoDup (li.*1 ++ lb.*1)
}.

(** [c'] is [c] up to the pool: the node memory, the sessions' closed
    flags, the two list heads and the idle counter. *)
Definition pool_frame (c c' : Control) : Prop :=
  c' = set_mem (mem c') (set_smuxClosed (smuxClosed c')
         (set_busyPipes (busyPipes c') (set_idleCount (idleCount c')
           (set_idlePipes (idlePipes c') c)))).

(** The pool invariant: the lists are well formed and [idleCount] is the
    length of the idle list. *)
Definition inv (c : Control) (li lb : list (ptr * session)) : Prop :=
  rep c li lb ∧ idleCount c = Z.of_nat (length li).

(** The idle cells left once the closed ones at the front are dropped. *)
Fixpoint skipClosed (X : gset session) (l : list (ptr * session)) : list (ptr * session) :=
  match l with
  | [] => []
  | (p, s) :: l' => if bool_decide (s ∈ X) then skipClosed X l' else l
  end.

(** What the first loop of [clean] keeps in the busy list, and what it
    moves to the idle list, given the closed sessions and the stream
    counts. *)
Definition staysBusy (X : gset session) (streams : session → nat)
    (ps : ptr * session) : bool :=
  negb (bool_decide (ps.2 ∈ X)) &&
  negb (bool_decide (Z.of_nat (streams ps.2) < maxStreams)).
Definition turnsIdle (X : gset session) (streams : session → nat)
    (ps : ptr * session) : bool :=
  negb (bool_decide (ps.2 ∈ X)) &&
  bool_decide (Z.of_nat (streams ps.2) < maxStreams).

(** What the second loop of [clean] does to the idle cells [l] it has
    still to visit: the cells it keeps, the sessions closed by then and
    the counter. *)
Fixpoint scanIdle (streams : session → nat) (X : gset session) (cnt : Z)
    (l : list (ptr * session)) : list (ptr * session) * gset session * Z :=
  match l with
  | [] => ([], X, cnt)
  | (i, s) :: l' =>
      if bool_decide (s ∈ X) then scanIdle streams X (cnt - 1) l'
      else if bool_decide (Z.of_nat (streams s) = 0) && bool_decide (cnt > maxIdlePipes)
      then scanIdle streams ({[s]} ∪ X) (cnt - 1) l'
      else let '(k, X', cnt') := scanIdle streams X cnt l' in ((i, s) :: k, X', cnt')
  end.

(** ** Sequences of pool operations

    The operations the manager applies to the pool, and [OpSessions] for
    what the multiplex library does to the sessions in between. *)
Inductive poolOp :=
| OpAddIdle (s : session)
| OpAddBusy (s : session)
| OpRemoveIdle (p : ptr)
| OpGetIdleFast
| OpClean
| OpSessions (X : gset session) (streams : session → nat).

Definition runOp (op : poolOp) : M unit :=
  match op with
  | OpAddIdle s => addIdlePipe s
  | OpAddBusy s => addBusyPipe s
  | OpRemoveIdle p => removeIdleNode p
  | OpGetIdleFast => getIdleFast;; mret tt
  | OpClean => clean
  | OpSessions X streams =>
      modify (λ c, set_smuxStreams streams (set_smuxClosed X c))
  end.

Fixpoint runOps (ops : list poolOp) : M unit :=
  match ops with
  | [] => mret tt
  | op :: ops => runOp op;; runOps ops
  end.

(** [removeIdleNode] is only given cells of the idle list. *)
Fixpoint wellUsed (ops : list poolOp) (c : Control) : bool :=
  match ops with
  | [] => true
  | op :: ops =>
      match op with
      | OpRemoveIdle p => bool_decide (p ∈ idleNodes c)
      | _ => true
      end &&
      match runOp op c with
      | Ok (_, c') => wellUsed ops c'
      | _ => true
      end
  end.

(** The idle cells that carry at least one stream. *)
Definition withStreams (c : Control) (l : list session) : list session :=
  List.filter (λ s, bool_decide (0 < Z.of_nat (smuxStreams c s))) l.

(** The Control a sequence of pool operations leaves, from a new one. *)
Definition stateAfter (ops : list poolOp) : Control :=
  match runOps ops (NewControl "none") with
  | Ok (_, c) => c
  | _ => NewControl "none"
  end.

(** The idle cells the second loop of [clean] has kept so far are live,
    and while the counter is above the cap none of them is without
    streams. *)
Definition keptOk (streams : session → nat) (X : gset session) (cnt : Z)
    (kept : list (ptr * session)) : Prop :=
  (∀ ps, ps ∈ kept → ps.2 ∉ X) ∧
  (cnt > maxIdlePipes → ∀ ps, ps ∈ kept → Z.of_nat (streams ps.2) ≠ 0).

(** [c'] is [c] up to the pool and the write queue. *)
Definition mgr_frame (c c' : Control) : Prop :=
  c' = set_writeChan (writeChan c')
         (set_mem (mem c') (set_smuxClosed (smuxClosed c')
           (set_busyPipes (busyPipes c') (set_idleCount (idleCount c')
             (set_idlePipes (idlePipes c') c))))).

(** What a move of the manager leaves: a well-formed pool, a write queue
    grown by PIPE_REQ frames only and not past its capacity, no session
    closed but ones without streams, and the rest of the Control as it
    was. *)
Definition mgrPost (c c' : Control) : Prop :=
  (∃ li lb, inv c' li lb) ∧ mgr_frame c c' ∧
  (∃ reqs, writeChan c' = writeChan c ++ reqs ∧ onlyPipeReqs reqs) ∧
  (length (writeChan c') ≤ length (writeChan c) `max` writeChanCap)%nat ∧
  smuxClosed c ⊆ smuxClosed c' ∧
  (∀ s, s ∈ smuxClosed c' → s ∈ smuxClosed c ∨ smuxStreams c s = 0%nat).

(** Nothing of the teardown has happened between [c] and [c']: [die]
    is open, nothing was handed over on [toDie], the control connection
    and the listeners are as they were, and no session was closed but
    ones without streams. *)
Definition untorn (c c' : Control) : Prop :=
  dieClosed c' = false ∧ toDie c' ≠ Handed ∧
  ctlConnClosed c' = ctlConnClosed c ∧ lisClosed c' = lisClosed c ∧
  smuxStreams c' = smuxStreams c ∧
  (∀ s, s ∈ smuxClosed c' → s ∈ smuxClosed c ∨ smuxStreams c s = 0%nat).

(** What a run of the Control's goroutines from [c] has come to: it
    goes on with the pool well formed and nothing of the teardown
    started, or it has ended in the panic of a [Close]. *)
Definition sysPost (c : Control) (r : res (mgrSt * Control)) : Prop :=
  match r with
  | Ok (m', c') => (∃ li' lb', inv c' li' lb') ∧ mgrOk c' m' ∧ untorn c c'
  | Panic msg => msg = "closing"
  | Diverge => False
  end.

Section segments.
Implicit Types (h : gmap ptr pipeNode) (l : list (ptr * session)).
Implicit Types (pv nx : option ptr).

Lemma hd_or_app nx l1 l2 : hd_or nx (l1 ++ l2) = hd_or (hd_or nx l2) l1.
Proof. by destruct l1 as [|[q s] l1]. Qed.

Lemma last_or_app pv l1 l2 : last_or pv (l1 ++ l2) = last_or (last_or pv l1) l2.
Proof. revert pv. induction l1 as [|[q s] l1 IH]; intros pv; simpl; auto. Qed.

Lemma last_or_None l : last_or None l = None → l = [].
Proof.
  destruct l as [|[q s] l] using rev_ind; [done|].
  rewrite last_or_app. simpl. discriminate.
Qed.

Lemma dseg_frame h h' pv l nx :
  (∀ p, p ∈ l.*1 → h' !! p = h !! p) → dseg h pv l nx → dseg h' pv l nx.
Proof.
  revert pv. induction l as [|[p s] l IH]; intros pv Hfr; simpl; [done|].
  intros [Hp Hl]. split.
  - rewrite Hfr; [done|]. simpl. left.
  - apply IH; [|done]. intros q Hq. apply Hfr. simpl. by right.
Qed.

Lemma dseg_app h pv l1 l2 nx :
  dseg h pv (l1 ++ l2) nx ↔
  dseg h pv l1 (hd_or nx l2) ∧ dseg h (last_or pv l1) l2 nx.
Proof.
  revert pv. induction l1 as [|[p s] l1 IH]; intros pv; simpl.
  - tauto.
  - rewrite IH, hd_or_app. tauto.
Qed.

Lemma dseg_dom h pv l nx p : dseg h pv l nx → p ∈ l.*1 → is_Some (h !! p).
Proof.
  revert pv. induction l as [|[q s] l IH]; intros pv; simpl.
  - intros _ Hp. by apply elem_of_nil in Hp.
  - intros [Hq Hl] Hp. apply elem_of_cons in Hp as [->|Hp]; eauto.
Qed.

Lemma dseg_pipe h pv l nx p s :
  dseg h pv l nx → (p, s) ∈ l → pipe <$> h !! p = Some s.
Proof.
  revert pv. induction l as [|[q t] l IH]; intros pv; simpl.
  - intros _ Hp. by apply elem_of_nil in Hp.
  - intros [Hq Hl] Hp. apply elem_of_cons in Hp as [[= -> ->]|Hp]; [|eauto].
    by rewrite Hq.
Qed.

(** Re-pointing the back pointer of the first cell. *)
Lemma dseg_set_prev h pv pv' p s l nx :
  p ∉ l.*1 →
  dseg h pv ((p, s) :: l) nx →
  dseg (<[p := PipeNode pv' (hd_or nx l) s]> h) pv' ((p, s) :: l) nx.
Proof.
  intros Hp [_ Hl]. split; [by rewrite lookup_insert_eq|].
  eapply dseg_frame; [|done]. intros q Hq.
  rewrite lookup_insert_ne; [done|]. intros ->. done.
Qed.

(** Re-pointing the forward pointer of the last cell. *)
Lemma dseg_set_next h pv l q sq nx nx' :
  q ∉ l.*1 →
  dseg h pv (l ++ [(q, sq)]) nx →
  dseg (<[q := PipeNode (last_or pv l) nx' sq]> h) pv (l ++ [(q, sq)]) nx'.
Proof.
  intros Hq. rewrite !dseg_app. simpl. intros [Hl _]. split.
  - eapply dseg_frame; [|done]. intros r Hr.
    rewrite lookup_insert_ne; [done|]. intros ->. done.
  - by rewrite lookup_insert_eq.
Qed.

(** A walk with enough fuel reads back the cells of a list. *)
Lemma walk_dseg h pv l (fuel : nat) :
  dseg h pv l None → (length l < fuel)%nat → walk fuel h (hd_or None l) = l.*1.
Proof.
  revert pv fuel. induction l as [|[p s] l IH]; intros pv fuel Hl Hf.
  - destruct fuel; [simpl in Hf; lia|]. done.
  - destruct fuel as [|fuel]; [simpl in Hf; lia|].
    destruct Hl as [Hp Hl]. simpl. rewrite Hp. simpl. f_equal.
    eapply IH; [done|]. simpl in Hf. lia.
Qed.

Lemma nodup_length_size h (ps : list ptr) :
  NoDup ps → (∀ p, p ∈ ps → is_Some (h !! p)) → (length ps ≤ size h)%nat.
Proof.
  intros Hnd Hin.
  rewrite <- (size_list_to_set (C := gset ptr) ps) by done.
  rewrite <- size_dom. apply subseteq_size.
  intros p Hp. apply elem_of_list_to_set in Hp. apply elem_of_dom. auto.
Qed.
End segments.

(** * Running the monad symbolically *)

Lemma pool_frame_refl c : pool_frame c c.
Proof. by destruct c. Qed.

Lemma pool_frame_trans c1 c2 c3 :
  pool_frame c1 c2 → pool_frame c2 c3 → pool_frame c1 c3.
Proof. unfold pool_frame. intros H1 H2. rewrite H2, H1. reflexivity. Qed.

Section exec.
Context {A B : Type}.

Lemma bind_eq (m : M A) (f : A → M B) c :
  (m ≫= f) c =
  match m c with
  | Ok (a, c') => f a c'
  | Panic msg => Panic msg
  | Diverge => Diverge
  end.
Proof. reflexivity. Qed.

Lemma bind_ok (m : M A) (f : A → M B) c a c' :
  m c = Ok (a, c') → (m ≫= f) c = f a c'.
Proof. intros H. by rewrite bind_eq, H. Qed.
End exec.

Lemma prevOf_eq c p n : mem c !! p = Some n → prevOf p c = Ok (prev n, c).
Proof. intros H. unfold prevOf, load. by rewrite bind_eq, H. Qed.
Lemma nextOf_eq c p n : mem c !! p = Some n → nextOf p c = Ok (next n, c).
Proof. intros H. unfold nextOf, load. by rewrite bind_eq, H. Qed.
Lemma pipeOf_eq c p n : mem c !! p = Some n → pipeOf p c = Ok (pipe n, c).
Proof. intros H. unfold pipeOf, load. by rewrite bind_eq, H. Qed.
Lemma storePrev_eq c p v n :
  mem c !! p = Some n →
  storePrev p v c = Ok (tt, set_mem (<[p := PipeNode v (next n) (pipe n)]> (mem c)) c).
Proof. intros H. unfold storePrev, load. by rewrite bind_eq, H. Qed.
Lemma storeNext_eq c p v n :
  mem c !! p = Some n →
  storeNext p v c = Ok (tt, set_mem (<[p := PipeNode (prev n) v (pipe n)]> (mem c)) c).
Proof. intros H. unfold storeNext, load. by rewrite bind_eq, H. Qed.

Arguments prevOf : simpl never.
Arguments nextOf : simpl never.
Arguments pipeOf : simpl never.
Arguments storePrev : simpl never.
Arguments storeNext : simpl never.
Arguments mbind : simpl never.
Arguments M_bind : simpl never.
Arguments modify : simpl never.
Arguments gets : simpl never.
Arguments smux.IsClosed : simpl never.
Arguments smux.NumStreams : simpl never.
Arguments smux.Close : simpl never.
Arguments new : simpl never.
Arguments walkFuel : simpl never.

Ltac solve_lookup :=
  simpl; rewrite ?lookup_insert_ne by congruence;
  first [ eassumption | apply lookup_insert_eq ].

Lemma bind_gets {A B} (f : Control → A) (k : A → M B) c :
  (gets f ≫= k) c = k (f c) c.
Proof. reflexivity. Qed.
Lemma bind_modify {B} (f : Control → Control) (k : unit → M B) c :
  (modify f ≫= k) c = k tt (f c).
Proof. reflexivity. Qed.
Lemma bind_mret {A B} (a : A) (k : A → M B) c : (mret a ≫= k) c = k a c.
Proof. reflexivity. Qed.
Lemma mret_eq {A} (a : A) c : (mret a : M A) c = Ok (a, c).
Proof. reflexivity. Qed.
Lemma bind_IsClosed {B} s (k : bool → M B) c :
  (smux.IsClosed s ≫= k) c = k (bool_decide (s ∈ smuxClosed c)) c.
Proof. reflexivity. Qed.
Lemma bind_NumStreams {B} s (k : Z → M B) c :
  (smux.NumStreams s ≫= k) c = k (Z.of_nat (smuxStreams c s)) c.
Proof. reflexivity. Qed.
Lemma bind_Close {B} s (k : unit → M B) c :
  (smux.Close s ≫= k) c = k tt (set_smuxClosed ({[s]} ∪ smuxClosed c) c).
Proof. reflexivity. Qed.

Lemma sendWriteChan_room w c :
  (length (writeChan c) < writeChanCap)%nat →
  sendWriteChan w c = Ok (true, set_writeChan (writeChan c ++ [w]) c).
Proof.
  intros H. unfold sendWriteChan. rewrite bind_gets.
  rewrite bool_decide_eq_true_2 by done. by rewrite bind_modify.
Qed.
Lemma sendWriteChan_full w c :
  (writeChanCap ≤ length (writeChan c))%nat → sendWriteChan w c = Ok (false, c).
Proof.
  intros H. unfold sendWriteChan. rewrite bind_gets.
  rewrite bool_decide_eq_false_2 by lia. reflexivity.
Qed.
Arguments sendWriteChan : simpl never.

Ltac mstep :=
  first
    [ erewrite (bind_ok (prevOf _)) by (apply prevOf_eq; solve_lookup)
    | erewrite (bind_ok (nextOf _)) by (apply nextOf_eq; solve_lookup)
    | erewrite (bind_ok (pipeOf _)) by (apply pipeOf_eq; solve_lookup)
    | erewrite (bind_ok (storePrev _ _)) by (apply storePrev_eq; solve_lookup)
    | erewrite (bind_ok (storeNext _ _)) by (apply storeNext_eq; solve_lookup)
    | rewrite bind_gets
    | rewrite bind_modify
    | rewrite bind_mret
    | rewrite bind_IsClosed
    | rewrite bind_NumStreams
    | rewrite bind_Close
    | erewrite storePrev_eq by solve_lookup
    | erewrite storeNext_eq by solve_lookup
    | rewrite bind_eq ];
  cbn.

(** * Unlinking a cell *)

Section unlink.
Implicit Types (l lo : list (ptr * session)).

Lemma dseg_insert_out h a n pv l nx :
  a ∉ l.*1 → dseg h pv l nx → dseg (<[a := n]> h) pv l nx.
Proof.
  intros Ha. apply dseg_frame. intros p Hp.
  rewrite lookup_insert_ne; [done|]. by intros ->.
Qed.

Lemma nodup_mid (xs ys : list ptr) a :
  NoDup (xs ++ a :: ys) ↔ (a ∉ xs) ∧ (a ∉ ys) ∧ NoDup (xs ++ ys).
Proof.
  rewrite <- Permutation_middle, NoDup_cons, not_elem_of_app. tauto.
Qed.

(** What the absence of duplicates says about a cell picked out of
    the idle list, and about one picked out of the busy list. *)
Lemma picked_idle l1 p s l2 lo :
  NoDup ((l1 ++ (p, s) :: l2).*1 ++ lo.*1) →
  (p ∉ l1.*1) ∧ (p ∉ l2.*1) ∧ (p ∉ lo.*1) ∧
  NoDup (l1.*1 ++ l2.*1 ++ lo.*1) ∧ NoDup ((l1 ++ l2).*1 ++ lo.*1).
Proof.
  rewrite !fmap_app, fmap_cons, <- !app_assoc, <- app_comm_cons.
  rewrite nodup_mid, not_elem_of_app. cbn [fst]. tauto.
Qed.

Lemma picked_busy l1 p s l2 lo :
  NoDup (lo.*1 ++ (l1 ++ (p, s) :: l2).*1) →
  (p ∉ l1.*1) ∧ (p ∉ l2.*1) ∧ (p ∉ lo.*1) ∧
  NoDup (l1.*1 ++ l2.*1 ++ lo.*1) ∧ NoDup (lo.*1 ++ (l1 ++ l2).*1).
Proof.
  rewrite (Permutation_app_comm lo.*1). intros H.
  apply picked_idle in H as (? & ? & ? & ? & H5). split_and!; try done.
  by rewrite (Permutation_app_comm lo.*1).
Qed.

Lemma picked_snoc l1 q sq l2 lo :
  NoDup ((l1 ++ [(q, sq)]).*1 ++ l2.*1 ++ lo.*1) →
  (q ∉ l1.*1) ∧ (q ∉ l2.*1) ∧ (q ∉ lo.*1).
Proof.
  rewrite fmap_app, <- app_assoc. cbn [fmap list_fmap fst app].
  rewrite nodup_mid, not_elem_of_app. tauto.
Qed.

Lemma picked_cons l1 r sr l2 lo :
  NoDup (l1.*1 ++ ((r, sr) :: l2).*1 ++ lo.*1) →
  (r ∉ l1.*1) ∧ (r ∉ l2.*1) ∧ (r ∉ lo.*1).
Proof.
  rewrite fmap_cons, <- app_comm_cons. cbn [fst].
  rewrite nodup_mid, not_elem_of_app. tauto.
Qed.
End unlink.

(** The four shapes of an unlink: the cell is or is not the head, and has
    or has not a successor. [H1], [Hp], [H2] describe the cells before
    the picked one, the picked one and those after it. *)
Ltac unlink_cases p l1 l2 H1 Hp H2 Hp1 Hnd :=
  let q := fresh "q" in let sq := fresh "sq" in
  let r := fresh "r" in let sr := fresh "sr" in
  let Hq := fresh "Hq" in let Hr := fresh "Hr" in
  let Hqs := fresh "Hqs" in let Hrs := fresh "Hrs" in
  let Hqp := fresh "Hqp" in
  destruct l1 as [|[q sq] l1 _] using rev_ind;
    [|pose proof H1 as Hq; apply dseg_app in Hq as [_ [Hq _]];
      rewrite last_or_app in Hp; cbn [last_or hd_or] in Hp, Hq;
      pose proof (picked_snoc _ _ _ _ _ Hnd) as Hqs;
      assert (q ≠ p) as Hqp
        by (intros ->; apply Hp1; rewrite fmap_app; apply elem_of_app; right; left)];
  (destruct l2 as [|[r sr] l2];
    [|pose proof H2 as [Hr _]; cbn [hd_or last_or] in Hp;
      pose proof (picked_cons _ _ _ _ _ Hnd) as Hrs]).

Lemma removeIdleNode_spec c l1 p s l2 lb :
  rep c (l1 ++ (p, s) :: l2) lb →
  ∃ c', removeIdleNode p c = Ok (tt, c') ∧ rep c' (l1 ++ l2) lb ∧
        idleCount c' = idleCount c - 1 ∧ mem c' !! p = mem c !! p ∧
        smuxClosed c' = smuxClosed c ∧ pool_frame c c'.
Proof.
  intros [Hi Hb Hih Hbh Hnd].
  apply picked_idle in Hnd as (Hp1 & Hp2 & Hpb & Hnd & HndT).
  apply dseg_app in Hi as [H1 [Hp H2]].
  unfold removeIdleNode.
  unlink_cases p l1 l2 H1 Hp H2 Hp1 Hnd.
  - eexists. split. { repeat mstep. reflexivity. }
    simpl. repeat split; done.
  - destruct Hrs as (_ & Hr2 & Hrb).
    assert (r ≠ p) by (intros ->; apply Hp2; left).
    eexists. split. { repeat mstep. reflexivity. }
    split; [split; [simpl|simpl|simpl|simpl|done]|simpl].
    + by apply dseg_set_prev with (pv := Some p).
    + by apply dseg_insert_out.
    + done.
    + done.
    + rewrite lookup_insert_ne by done. repeat split; try done; by destruct c.
  - destruct Hqs as (Hq1 & _ & Hqb).
    eexists. split. { repeat mstep. reflexivity. }
    split; [split; [simpl|simpl|simpl|simpl|done]|simpl].
    + rewrite app_nil_r. by apply dseg_set_next with (nx := Some p).
    + by apply dseg_insert_out.
    + rewrite Hih. by rewrite !hd_or_app.
    + done.
    + rewrite lookup_insert_ne by done. repeat split; try done; by destruct c.
  - destruct Hqs as (Hq1 & Hq2 & Hqb). destruct Hrs as (Hr1 & Hr2 & Hrb).
    assert (r ≠ p) by (intros ->; apply Hp2; left).
    assert (q ≠ r) by (intros ->; apply Hq2; left).
    eexists. split. { repeat mstep. reflexivity. }
    split; [split; [simpl|simpl|simpl|simpl|done]|simpl].
    + apply dseg_app. split.
      * apply dseg_insert_out; [done|].
        by apply dseg_set_next with (nx := Some p).
      * rewrite last_or_app. cbn [last_or].
        apply dseg_set_prev with (pv := Some p); [done|].
        by apply dseg_insert_out.
    + by do 2 (apply dseg_insert_out; [done|]).
    + rewrite Hih. by rewrite !hd_or_app.
    + done.
    + rewrite !lookup_insert_ne by done. repeat split; try done; by destruct c.
Qed.

Lemma removeBusyNode_spec c li l1 p s l2 :
  rep c li (l1 ++ (p, s) :: l2) →
  ∃ c', removeBusyNode p c = Ok (tt, c') ∧ rep c' li (l1 ++ l2) ∧
        idleCount c' = idleCount c ∧ mem c' !! p = mem c !! p ∧
        smuxClosed c' = smuxClosed c ∧ pool_frame c c'.
Proof.
  intros [Hi Hb Hih Hbh Hnd].
  apply picked_busy in Hnd as (Hp1 & Hp2 & Hpb & Hnd & HndT).
  apply dseg_app in Hb as [H1 [Hp H2]].
  unfold removeBusyNode.
  unlink_cases p l1 l2 H1 Hp H2 Hp1 Hnd.
  - eexists. split. { repeat mstep. reflexivity. }
    simpl. repeat split; done.
  - destruct Hrs as (_ & Hr2 & Hrb).
    assert (r ≠ p) by (intros ->; apply Hp2; left).
    eexists. split. { repeat mstep. reflexivity. }
    split; [split; [simpl|simpl|simpl|simpl|done]|simpl].
    + by apply dseg_insert_out.
    + by apply dseg_set_prev with (pv := Some p).
    + done.
    + done.
    + rewrite lookup_insert_ne by done. repeat split; try done; by destruct c.
  - destruct Hqs as (Hq1 & _ & Hqb).
    eexists. split. { repeat mstep. reflexivity. }
    split; [split; [simpl|simpl|simpl|simpl|done]|simpl].
    + by apply dseg_insert_out.
    + rewrite app_nil_r. by apply dseg_set_next with (nx := Some p).
    + done.
    + rewrite Hbh. by rewrite !hd_or_app.
    + rewrite lookup_insert_ne by done. repeat split; try done; by destruct c.
  - destruct Hqs as (Hq1 & Hq2 & Hqb). destruct Hrs as (Hr1 & Hr2 & Hrb).
    assert (r ≠ p) by (intros ->; apply Hp2; left).
    assert (q ≠ r) by (intros ->; apply Hq2; left).
    eexists. split. { repeat mstep. reflexivity. }
    split; [split; [simpl|simpl|simpl|simpl|done]|simpl].
    + by do 2 (apply dseg_insert_out; [done|]).
    + apply dseg_app. split.
      * apply dseg_insert_out; [done|].
        by apply dseg_set_next with (nx := Some p).
      * rewrite last_or_app. cbn [last_or].
        apply dseg_set_prev with (pv := Some p); [done|].
        by apply dseg_insert_out.
    + done.
    + rewrite Hbh. by rewrite !hd_or_app.
    + rewrite !lookup_insert_ne by done. repeat split; try done; by destruct c.
Qed.

(** * Pushing a cell *)

Lemma fresh_unused (h : gmap ptr pipeNode) : h !! fresh (dom h) = None.
Proof. apply not_elem_of_dom, is_fresh. Qed.

Lemma fresh_not_in h pv (l : list (ptr * session)) nx :
  dseg h pv l nx → fresh (dom h) ∉ l.*1.
Proof.
  intros Hl Hin. eapply dseg_dom in Hin as [n Hn]; [|done].
  by rewrite fresh_unused in Hn.
Qed.

Lemma addIdlePipe_spec c li lb s :
  rep c li lb →
  ∃ c' np, addIdlePipe s c = Ok (tt, c') ∧ rep c' ((np, s) :: li) lb ∧
        mem c !! np = None ∧
        idleCount c' = idleCount c + 1 ∧ smuxClosed c' = smuxClosed c ∧
        pool_frame c c' ∧
        (∀ a, (a ∉ li.*1) → is_Some (mem c !! a) → mem c' !! a = mem c !! a).
Proof.
  intros [Hi Hb Hih Hbh Hnd].
  pose proof (fresh_unused (mem c)) as Hf.
  pose proof (fresh_not_in _ _ _ _ Hi) as Hfi.
  pose proof (fresh_not_in _ _ _ _ Hb) as Hfb.
  set (np := fresh (dom (mem c))) in *.
  assert (NoDup (((np, s) :: li).*1 ++ lb.*1)) as HndT.
  { rewrite fmap_cons, <- app_comm_cons. apply NoDup_cons. split; [|done].
    rewrite not_elem_of_app. done. }
  unfold addIdlePipe.
  erewrite (bind_ok (new _)) by reflexivity. fold np.
  destruct li as [|[q sq] li].
  - exists (set_idleCount (idleCount c + 1) (set_idlePipes (Some np)
              (set_mem (<[np := PipeNode None None s]> (mem c)) c))), np.
    split. { repeat mstep. rewrite Hih. simpl. repeat mstep. reflexivity. }
    split; [split; [simpl|simpl|simpl|simpl|done]|simpl].
    + by rewrite lookup_insert_eq.
    + by apply dseg_insert_out.
    + done.
    + done.
    + split_and!; try done; try (by destruct c).
      intros a _ [n Hn]. rewrite lookup_insert_ne; [done|]. intros ->. congruence.
  - pose proof Hi as [Hq Hli].
    assert (q ≠ np) as Hqn by (intros ->; apply Hfi; left).
    assert ((q ∉ li.*1) ∧ (q ∉ lb.*1)) as [Hq1 Hqb].
    { rewrite fmap_cons, <- app_comm_cons in Hnd. apply NoDup_cons in Hnd as [Hnd _].
      by apply not_elem_of_app in Hnd. }
    assert (np ∉ li.*1) as Hfi' by (intros ?; apply Hfi; by right).
    eexists _, np.
    split. { repeat mstep. rewrite Hih. simpl. repeat mstep. reflexivity. }
    split; [split; [simpl|simpl|simpl|simpl|done]|simpl].
    + split_and!; [by rewrite lookup_insert_eq| |].
      * rewrite lookup_insert_ne by done. by rewrite lookup_insert_eq.
      * by do 3 (apply dseg_insert_out; [done|]).
    + by do 3 (apply dseg_insert_out; [done|]).
    + done.
    + done.
    + split_and!; try done; try (by destruct c).
      intros a Ha [n Hn].
      assert (a ≠ np) by (intros ->; congruence).
      assert (a ≠ q) by (intros ->; apply Ha; left).
      by rewrite !lookup_insert_ne.
Qed.

Lemma addBusyPipe_spec c li lb s :
  rep c li lb →
  ∃ c' np, addBusyPipe s c = Ok (tt, c') ∧ rep c' li ((np, s) :: lb) ∧
        mem c !! np = None ∧
        idleCount c' = idleCount c ∧ smuxClosed c' = smuxClosed c ∧
        pool_frame c c'.
Proof.
  intros [Hi Hb Hih Hbh Hnd].
  pose proof (fresh_unused (mem c)) as Hf.
  pose proof (fresh_not_in _ _ _ _ Hi) as Hfi.
  pose proof (fresh_not_in _ _ _ _ Hb) as Hfb.
  set (np := fresh (dom (mem c))) in *.
  assert (NoDup (li.*1 ++ ((np, s) :: lb).*1)) as HndT.
  { rewrite fmap_cons. apply nodup_mid. done. }
  unfold addBusyPipe.
  erewrite (bind_ok (new _)) by reflexivity. fold np.
  destruct lb as [|[q sq] lb].
  - eexists _, np.
    split. { repeat mstep. rewrite Hbh. simpl. repeat mstep. reflexivity. }
    split; [split; [simpl|simpl|simpl|simpl|done]|simpl].
    + by apply dseg_insert_out.
    + by rewrite lookup_insert_eq.
    + done.
    + done.
    + repeat split; try done; by destruct c.
  - pose proof Hb as [Hq Hlb].
    assert (q ≠ np) as Hqn by (intros ->; apply Hfb; left).
    assert ((q ∉ li.*1) ∧ (q ∉ lb.*1)) as [Hq1 Hqb].
    { rewrite fmap_cons in Hnd. by apply nodup_mid in Hnd as (? & ? & _). }
    assert (np ∉ lb.*1) as Hfb' by (intros ?; apply Hfb; by right).
    eexists _, np.
    split. { repeat mstep. rewrite Hbh. simpl. repeat mstep. reflexivity. }
    split; [split; [simpl|simpl|simpl|simpl|done]|simpl].
    + by do 3 (apply dseg_insert_out; [done|]).
    + split_and!; [by rewrite lookup_insert_eq| |].
      * rewrite lookup_insert_ne by done. by rewrite lookup_insert_eq.
      * by do 3 (apply dseg_insert_out; [done|]).
    + done.
    + done.
    + repeat split; try done; by destruct c.
Qed.

(** * The walks *)

Lemma rep_idle_bound c li lb : rep c li lb → (length li < walkFuel c)%nat.
Proof.
  intros [Hi _ _ _ Hnd]. apply NoDup_app in Hnd as (Hnd & _ & _).
  unfold walkFuel. rewrite <- (length_fmap fst li).
  apply Nat.lt_succ_r, nodup_length_size; [done|].
  intros p Hp. by eapply dseg_dom.
Qed.

Lemma rep_busy_bound c li lb : rep c li lb → (length lb < walkFuel c)%nat.
Proof.
  intros [_ Hb _ _ Hnd]. apply NoDup_app in Hnd as (_ & _ & Hnd).
  unfold walkFuel. rewrite <- (length_fmap fst lb).
  apply Nat.lt_succ_r, nodup_length_size; [done|].
  intros p Hp. by eapply dseg_dom.
Qed.

Lemma dseg_pipes c pv (l : list (ptr * session)) nx :
  dseg (mem c) pv l nx → pipeAt c <$> l.*1 = l.*2.
Proof.
  revert pv. induction l as [|[p s] l IH]; intros pv; [done|].
  intros [Hp Hl]. rewrite !fmap_cons. f_equal; [|by eapply IH].
  unfold pipeAt. simpl. by rewrite Hp.
Qed.

(** The executable views of the lists agree with the representation. *)
Lemma rep_views c li lb :
  rep c li lb →
  idleNodes c = li.*1 ∧ busyNodes c = lb.*1 ∧
  idleSessions c = li.*2 ∧ busySessions c = lb.*2.
Proof.
  intros Hrep.
  pose proof (rep_idle_bound _ _ _ Hrep). pose proof (rep_busy_bound _ _ _ Hrep).
  destruct Hrep as [Hi Hb Hih Hbh Hnd].
  assert (idleNodes c = li.*1) as Ei.
  { unfold idleNodes. rewrite Hih. by eapply walk_dseg. }
  assert (busyNodes c = lb.*1) as Eb.
  { unfold busyNodes. rewrite Hbh. by eapply walk_dseg. }
  unfold idleSessions, busySessions. rewrite Ei, Eb.
  split_and!; try done; by eapply dseg_pipes.
Qed.

Lemma rep_head_idle c p s li lb :
  rep c ((p, s) :: li) lb →
  mem c !! p = Some (PipeNode None (hd_or None li) s).
Proof. intros [[Hp _] _ _ _ _]. done. Qed.

Lemma rep_mid_busy c li l1 p s l2 :
  rep c li (l1 ++ (p, s) :: l2) →
  mem c !! p = Some (PipeNode (last_or None l1) (hd_or None l2) s).
Proof. intros [_ Hb _ _ _]. apply dseg_app in Hb as [_ [Hp _]]. done. Qed.

Lemma rep_mid_idle c l1 p s l2 lb :
  rep c (l1 ++ (p, s) :: l2) lb →
  mem c !! p = Some (PipeNode (last_or None l1) (hd_or None l2) s).
Proof. intros [Hi _ _ _ _]. apply dseg_app in Hi as [_ [Hp _]]. done. Qed.

Lemma skipClosed_length X l : (length (skipClosed X l) ≤ length l)%nat.
Proof.
  induction l as [|[p s] l IH]; simpl; [done|].
  case_bool_decide; simpl; lia.
Qed.

Lemma getIdleFastLoop_spec li : ∀ c lb (fuel : nat),
  inv c li lb → (length li < fuel)%nat →
  ∃ c', getIdleFastLoop fuel (hd_or None li) c
          = Ok (fst <$> head (skipClosed (smuxClosed c) li), c') ∧
        inv c' (tail (skipClosed (smuxClosed c) li)) lb ∧
        smuxClosed c' = smuxClosed c ∧ pool_frame c c' ∧
        (∀ p s, head (skipClosed (smuxClosed c) li) = Some (p, s) →
                pipe <$> mem c' !! p = Some s).
Proof.
  induction li as [|[p s] li IH]; intros c lb fuel [Hrep Hcnt] Hfuel;
    (destruct fuel as [|fuel]; [simpl in Hfuel; lia|]).
  - exists c. simpl. split_and!; try done. apply pool_frame_refl.
  - pose proof (rep_head_idle _ _ _ _ _ Hrep) as Hp.
    destruct (removeIdleNode_spec c [] p s li lb Hrep)
      as (c1 & Hrm & Hrep1 & Hcnt1 & Hp1 & HX1 & Hfr1).
    simpl in Hrep1.
    assert (inv c1 li lb) as Hinv1.
    { split; [done|]. rewrite Hcnt1, Hcnt. simpl length. lia. }
    cbn [getIdleFastLoop hd_or skipClosed].
    do 2 mstep.
    case_bool_decide as Hcl.
    + erewrite (bind_ok (removeIdleNode p)) by exact Hrm.
      erewrite (bind_ok (nextOf p)) by (apply nextOf_eq; rewrite Hp1; exact Hp).
      cbn [next].
      destruct (IH c1 lb fuel Hinv1) as (c' & Hrun & Hinv' & HX' & Hfr' & Hpipe).
      { simpl in Hfuel. lia. }
      rewrite HX1 in *.
      exists c'. split_and!; try done. by eapply pool_frame_trans.
    + erewrite (bind_ok (removeIdleNode p)) by exact Hrm.
      exists c1. split_and!; try done.
      intros p' s' [= <- <-]. by rewrite Hp1, Hp.
Qed.

Lemma getIdleFast_spec c li lb :
  inv c li lb →
  ∃ c', getIdleFast c = Ok (fst <$> head (skipClosed (smuxClosed c) li), c') ∧
        inv c' (tail (skipClosed (smuxClosed c) li)) lb ∧
        smuxClosed c' = smuxClosed c ∧ pool_frame c c' ∧
        (∀ p s, head (skipClosed (smuxClosed c) li) = Some (p, s) →
                pipe <$> mem c' !! p = Some s).
Proof.
  intros Hinv. unfold getIdleFast. do 2 mstep.
  rewrite (rep_idle_hd _ _ _ (proj1 Hinv)).
  apply getIdleFastLoop_spec; [done|]. apply (rep_idle_bound _ _ _ (proj1 Hinv)).
Qed.

Lemma pool_frame_streams c c' : pool_frame c c' → smuxStreams c' = smuxStreams c.
Proof. intros H. by rewrite H. Qed.

Lemma inv_assoc c li l1 x l2 :
  inv c li (l1 ++ x :: l2) → inv c li ((l1 ++ [x]) ++ l2).
Proof. by rewrite <- app_assoc. Qed.

Lemma cleanBusyLoop_spec rest : ∀ c li kept (fuel : nat),
  inv c li (kept ++ rest) → (length rest < fuel)%nat →
  ∃ c' new, cleanBusyLoop fuel (hd_or None rest) c = Ok (tt, c') ∧
    inv c' (new ++ li)
      (kept ++ List.filter (staysBusy (smuxClosed c) (smuxStreams c)) rest) ∧
    new.*2 = reverse (List.filter (turnsIdle (smuxClosed c) (smuxStreams c)) rest).*2 ∧
    smuxClosed c' = smuxClosed c ∧ pool_frame c c'.
Proof.
  induction rest as [|[b s] rest IH]; intros c li kept fuel [Hrep Hcnt] Hfuel;
    (destruct fuel as [|fuel]; [simpl in Hfuel; lia|]).
  - exists c, []. simpl. split_and!; try done. apply pool_frame_refl.
  - pose proof (rep_mid_busy _ _ _ _ _ _ Hrep) as Hb.
    destruct (removeBusyNode_spec c li kept b s rest Hrep)
      as (c1 & Hrm & Hrep1 & Hcnt1 & Hb1 & HX1 & Hfr1).
    assert (Hfuel' : (length rest < fuel)%nat) by (simpl in Hfuel; lia).
    cbn [cleanBusyLoop hd_or List.filter].
    unfold staysBusy at 1, turnsIdle at 1. cbn [snd].
    do 2 mstep.
    case_bool_decide as Hcl; cbn [negb andb].
    + erewrite (bind_ok (removeBusyNode b)) by exact Hrm.
      erewrite (bind_ok (nextOf b)) by (apply nextOf_eq; rewrite Hb1; exact Hb).
      cbn [next].
      destruct (IH c1 li kept fuel) as (c' & new & Hrun & Hinv' & Hnew & HX' & Hfr');
        [split; [done|congruence]|done|].
      rewrite HX1, (pool_frame_streams _ _ Hfr1) in Hinv', Hnew.
      exists c', new. split_and!; try done; [congruence|by eapply pool_frame_trans].
    + do 3 mstep.
      case_bool_decide as Hk; cbn [negb andb].
      * erewrite (bind_ok (removeBusyNode b)) by exact Hrm.
        erewrite (bind_ok (pipeOf b)) by (apply pipeOf_eq; rewrite Hb1; exact Hb).
        cbn [pipe].
        destruct (addIdlePipe_spec c1 li (kept ++ rest) s Hrep1)
          as (c2 & np & Hadd & Hrep2 & Hnp & Hcnt2 & HX2 & Hfr2 & Hmem2).
        rewrite Hadd.
        assert (mem c2 !! b = mem c !! b) as Hb2.
        { rewrite <- Hb1. apply Hmem2; [|rewrite Hb1, Hb; eauto].
          destruct Hrep as [_ _ _ _ Hnd].
          apply picked_busy in Hnd as (_ & _ & Hbli & _). done. }
        erewrite (bind_ok (nextOf b)) by (apply nextOf_eq; rewrite Hb2; exact Hb).
        cbn [next].
        destruct (IH c2 ((np, s) :: li) kept fuel)
          as (c' & new & Hrun & Hinv' & Hnew & HX' & Hfr'); [|done|].
        { split; [done|]. rewrite Hcnt2, Hcnt1, Hcnt. simpl length. lia. }
        assert (smuxClosed c2 = smuxClosed c) as HX by congruence.
        assert (smuxStreams c2 = smuxStreams c) as HS.
        { rewrite (pool_frame_streams _ _ Hfr2). apply (pool_frame_streams _ _ Hfr1). }
        rewrite HX, HS in Hinv', Hnew.
        exists c', (new ++ [(np, s)]). split_and!; try done.
        -- by rewrite <- app_assoc.
        -- rewrite fmap_app, Hnew, !fmap_cons, reverse_cons. done.
        -- congruence.
        -- eapply pool_frame_trans; [|done]. by eapply pool_frame_trans.
      * cbn.
        erewrite (bind_ok (nextOf b)) by (apply nextOf_eq; exact Hb).
        cbn [next].
        destruct (IH c li (kept ++ [(b, s)]) fuel)
          as (c' & new & Hrun & Hinv' & Hnew & HX' & Hfr'); [|done|].
        { apply inv_assoc. by split. }
        exists c', new. split_and!; try done.
        by rewrite <- app_assoc in Hinv'.
Qed.

Lemma rep_set_smuxClosed c li lb X : rep c li lb → rep (set_smuxClosed X c) li lb.
Proof. intros [? ? ? ? ?]. by split. Qed.

Lemma cleanIdleLoop_spec rest : ∀ c kept lb (fuel : nat),
  rep c (kept ++ rest) lb → (length rest < fuel)%nat →
  ∃ c', cleanIdleLoop fuel (hd_or None rest) c = Ok (tt, c') ∧
    rep c' (kept ++ (scanIdle (smuxStreams c) (smuxClosed c) (idleCount c) rest).1.1) lb ∧
    smuxClosed c' = (scanIdle (smuxStreams c) (smuxClosed c) (idleCount c) rest).1.2 ∧
    idleCount c' = (scanIdle (smuxStreams c) (smuxClosed c) (idleCount c) rest).2 ∧
    pool_frame c c'.
Proof.
  induction rest as [|[i s] rest IH]; intros c kept lb fuel Hrep Hfuel;
    (destruct fuel as [|fuel]; [simpl in Hfuel; lia|]).
  - exists c. simpl. split_and!; try done. apply pool_frame_refl.
  - pose proof (rep_mid_idle _ _ _ _ _ _ Hrep) as Hi.
    destruct (removeIdleNode_spec c kept i s rest lb Hrep)
      as (c1 & Hrm & Hrep1 & Hcnt1 & Hi1 & HX1 & Hfr1).
    assert (Hfuel' : (length rest < fuel)%nat) by (simpl in Hfuel; lia).
    pose proof (pool_frame_streams _ _ Hfr1) as HS1.
    cbn [cleanIdleLoop hd_or scanIdle].
    do 2 mstep.
    case_bool_decide as Hcl.
    + erewrite (bind_ok (removeIdleNode i)) by exact Hrm.
      erewrite (bind_ok (nextOf i)) by (apply nextOf_eq; rewrite Hi1; exact Hi).
      cbn [next].
      destruct (IH c1 kept lb fuel Hrep1 Hfuel') as (c' & Hrun & Hrep' & HX' & Hcnt' & Hfr').
      rewrite HX1, HS1, Hcnt1 in Hrep', HX', Hcnt'.
      exists c'. split_and!; try done. by eapply pool_frame_trans.
    + do 4 mstep.
      destruct (bool_decide (Z.of_nat (smuxStreams c s) = 0) &&
                bool_decide (idleCount c > maxIdlePipes)) eqn:Hsurplus.
      * erewrite (bind_ok (removeIdleNode i)) by exact Hrm.
        erewrite (bind_ok (pipeOf i)) by (apply pipeOf_eq; rewrite Hi1; exact Hi).
        cbn [pipe].
        change (smux.Close s c1) with (Ok (tt, set_smuxClosed ({[s]} ∪ smuxClosed c1) c1)).
        cbv beta iota.
        set (c2 := set_smuxClosed ({[s]} ∪ smuxClosed c1) c1).
        erewrite (bind_ok (nextOf i)) by (apply nextOf_eq; simpl; rewrite Hi1; exact Hi).
        cbn [next].
        destruct (IH c2 kept lb fuel) as (c' & Hrun & Hrep' & HX' & Hcnt' & Hfr');
          [by apply rep_set_smuxClosed|done|].
        subst c2. cbn [smuxStreams smuxClosed idleCount set_smuxClosed] in Hrep', HX', Hcnt'.
        rewrite HX1, HS1, Hcnt1 in Hrep', HX', Hcnt'.
        exists c'. split_and!; try done.
        eapply pool_frame_trans; [|done].
        eapply pool_frame_trans; [done|]. by destruct c1.
      * cbn.
        erewrite (bind_ok (nextOf i)) by (apply nextOf_eq; exact Hi).
        cbn [next].
        destruct (IH c (kept ++ [(i, s)]) lb fuel) as (c' & Hrun & Hrep' & HX' & Hcnt' & Hfr');
          [by rewrite <- app_assoc|done|].
        destruct (scanIdle (smuxStreams c) (smuxClosed c) (idleCount c) rest)
          as [[k X'] cnt'] eqn:Hscan.
        cbn [fst snd] in *. rewrite <- app_assoc in Hrep'.
        exists c'. split_and!; done.
Qed.

Lemma clean_spec c li lb :
  inv c li lb →
  ∃ c' new, clean c = Ok (tt, c') ∧
    new.*2 = reverse (List.filter (turnsIdle (smuxClosed c) (smuxStreams c)) lb).*2 ∧
    rep c'
      (scanIdle (smuxStreams c) (smuxClosed c) (Z.of_nat (length (new ++ li))) (new ++ li)).1.1
      (List.filter (staysBusy (smuxClosed c) (smuxStreams c)) lb) ∧
    smuxClosed c' =
      (scanIdle (smuxStreams c) (smuxClosed c) (Z.of_nat (length (new ++ li))) (new ++ li)).1.2 ∧
    idleCount c' =
      (scanIdle (smuxStreams c) (smuxClosed c) (Z.of_nat (length (new ++ li))) (new ++ li)).2 ∧
    pool_frame c c'.
Proof.
  intros Hinv. unfold clean. do 2 mstep.
  rewrite (rep_busy_hd _ _ _ (proj1 Hinv)).
  destruct (cleanBusyLoop_spec lb c li [] (walkFuel c))
    as (c1 & new & Hrun1 & [Hrep1 Hcnt1] & Hnew & HX1 & Hfr1);
    [done|apply (rep_busy_bound _ _ _ (proj1 Hinv))|].
  simpl in Hrep1.
  erewrite (bind_ok (cleanBusyLoop _ _)) by exact Hrun1.
  do 2 mstep.
  rewrite (rep_idle_hd _ _ _ Hrep1).
  destruct (cleanIdleLoop_spec (new ++ li) c1 []
              (List.filter (staysBusy (smuxClosed c) (smuxStreams c)) lb) (walkFuel c1))
    as (c' & Hrun2 & Hrep' & HX' & Hcnt' & Hfr');
    [done|apply (rep_idle_bound _ _ _ Hrep1)|].
  rewrite HX1, (pool_frame_streams _ _ Hfr1), Hcnt1 in Hrep', HX', Hcnt'.
  simpl in Hrep'.
  exists c', new. split_and!; try done. by eapply pool_frame_trans.
Qed.

(** ** What the idle scan computes *)

Lemma filter_all {A} (f : A → bool) (l : list A) :
  (∀ x, x ∈ l → f x = true) → List.filter f l = l.
Proof.
  induction l as [|x l IH]; intros Hall; [done|]. simpl.
  rewrite Hall by left. f_equal. apply IH. intros ? ?. apply Hall. by right.
Qed.

Section scan.
Variable streams : session → nat.
Implicit Types (X : gset session) (l k kept : list (ptr * session)).

Lemma scanIdle_count X cnt l :
  (scanIdle streams X cnt l).2 - Z.of_nat (length (scanIdle streams X cnt l).1.1)
  = cnt - Z.of_nat (length l).
Proof.
  revert X cnt. induction l as [|[i s] l IH]; intros X cnt; cbn [scanIdle].
  - simpl. lia.
  - case_bool_decide.
    + rewrite IH. simpl length. lia.
    + destruct (_ && _).
      * rewrite IH. simpl length. lia.
      * specialize (IH X cnt).
        destruct (scanIdle streams X cnt l) as [[k X'] cnt']. simpl in *. lia.
Qed.

Lemma scanIdle_sublist X cnt l : sublist (scanIdle streams X cnt l).1.1 l.
Proof.
  revert X cnt. induction l as [|[i s] l IH]; intros X cnt; cbn [scanIdle].
  - done.
  - case_bool_decide; [by apply sublist_cons|].
    destruct (_ && _); [by apply sublist_cons|].
    specialize (IH X cnt).
    destruct (scanIdle streams X cnt l) as [[k X'] cnt']. simpl in *.
    by apply sublist_skip.
Qed.

Lemma scanIdle_closed X cnt l s :
  s ∈ (scanIdle streams X cnt l).1.2 →
  s ∈ X ∨ (Z.of_nat (streams s) = 0 ∧ s ∈ l.*2).
Proof.
  revert X cnt. induction l as [|[i t] l IH]; intros X cnt; cbn [scanIdle].
  - simpl. auto.
  - rewrite fmap_cons. cbn [snd]. case_bool_decide as Hcl.
    + intros [?|[? ?]]%IH; [by left|right]. split; [done|by right].
    + destruct (_ && _) eqn:Hc.
      * apply andb_prop in Hc as [Hz%bool_decide_eq_true _].
        intros [[->%elem_of_singleton|?]%elem_of_union|[? ?]]%IH.
        -- right. split; [done|left].
        -- by left.
        -- right. split; [done|by right].
      * specialize (IH X cnt).
        destruct (scanIdle streams X cnt l) as [[k X'] cnt']. simpl in *.
        intros [?|[? ?]]%IH; [by left|right]. split; [done|by right].
Qed.

Lemma scanIdle_mono X cnt l : X ⊆ (scanIdle streams X cnt l).1.2.
Proof.
  revert X cnt. induction l as [|[i t] l IH]; intros X cnt; cbn [scanIdle].
  - done.
  - case_bool_decide; [apply IH|].
    destruct (_ && _).
    + etrans; [|apply IH]. apply union_subseteq_r.
    + specialize (IH X cnt).
      destruct (scanIdle streams X cnt l) as [[k X'] cnt']. done.
Qed.

Lemma scanIdle_keptOk X cnt l kept :
  keptOk streams X cnt kept →
  keptOk streams (scanIdle streams X cnt l).1.2 (scanIdle streams X cnt l).2
         (kept ++ (scanIdle streams X cnt l).1.1).
Proof.
  revert X cnt kept. induction l as [|[i s] l IH]; intros X cnt kept [Hlive Hbusy];
    cbn [scanIdle].
  - simpl. rewrite app_nil_r. by split.
  - case_bool_decide as Hcl.
    + apply IH. split; [done|]. intros ?. apply Hbusy. lia.
    + destruct (_ && _) eqn:Hc.
      * apply andb_prop in Hc as [Hz%bool_decide_eq_true Hgt%bool_decide_eq_true].
        apply IH. split.
        -- intros ps Hps [Heq%elem_of_singleton|?]%elem_of_union; [|by eapply Hlive].
           apply (Hbusy Hgt ps Hps). by rewrite Heq.
        -- intros ?. apply Hbusy. lia.
      * specialize (IH X cnt (kept ++ [(i, s)])).
        destruct (scanIdle streams X cnt l) as [[k X'] cnt']. simpl in *.
        rewrite <- app_assoc in IH. apply IH. split.
        -- intros ps [?|Heq%list_elem_of_singleton]%elem_of_app; [by apply Hlive|].
           by subst ps.
        -- intros Hgt ps [?|Heq%list_elem_of_singleton]%elem_of_app; [by apply Hbusy|].
           subst ps. simpl. intros Hz. apply andb_false_iff in Hc as [Hc|Hc];
             apply bool_decide_eq_false in Hc; lia.
Qed.

Lemma scanIdle_live X cnt l ps :
  ps ∈ (scanIdle streams X cnt l).1.1 → ps.2 ∉ (scanIdle streams X cnt l).1.2.
Proof.
  intros Hps.
  destruct (scanIdle_keptOk X cnt l []) as [Hlive _].
  { split; intros; by exfalso; eapply not_elem_of_nil. }
  by apply Hlive.
Qed.

(** The idle cap: the counter exceeds [maxIdlePipes] only by cells that
    carry streams. *)
Lemma scanIdle_cap X l :
  (scanIdle streams X (Z.of_nat (length l)) l).2
  ≤ maxIdlePipes +
    Z.of_nat (length (List.filter (λ ps, bool_decide (0 < Z.of_nat (streams ps.2)))
               (scanIdle streams X (Z.of_nat (length l)) l).1.1)).
Proof.
  pose proof (scanIdle_count X (Z.of_nat (length l)) l) as Hcount.
  destruct (scanIdle_keptOk X (Z.of_nat (length l)) l []) as [_ Hbusy].
  { split; intros; by exfalso; eapply not_elem_of_nil. }
  simpl in Hbusy.
  destruct (decide ((scanIdle streams X (Z.of_nat (length l)) l).2 > maxIdlePipes))
    as [Hgt|Hle]; [|lia].
  specialize (Hbusy Hgt).
  assert (List.filter (λ ps, bool_decide (0 < Z.of_nat (streams ps.2)))
            (scanIdle streams X (Z.of_nat (length l)) l).1.1
          = (scanIdle streams X (Z.of_nat (length l)) l).1.1) as ->;
    [|unfold maxIdlePipes; lia].
  apply filter_all. intros ps Hps. apply bool_decide_eq_true.
  specialize (Hbusy ps Hps). lia.
Qed.
End scan.

(** * The pool invariant over sequences of operations *)

Lemma inv_count c li lb :
  inv c li lb → idleCount c = Z.of_nat (length (idleNodes c)).
Proof.
  intros [Hrep Hcnt]. destruct (rep_views _ _ _ Hrep) as (-> & _).
  by rewrite length_fmap.
Qed.

Lemma inv_NewControl em : inv (NewControl em) [] [].
Proof. split; [|done]. split; try done. simpl. constructor. Qed.

Lemma runOp_inv op c li lb :
  inv c li lb →
  match op with OpRemoveIdle p => p ∈ idleNodes c | _ => True end →
  ∃ c' li' lb', runOp op c = Ok (tt, c') ∧ inv c' li' lb'.
Proof.
  intros Hinv Hop. pose proof Hinv as [Hrep Hcnt].
  destruct op as [s|s|p| | |X streams]; cbn [runOp].
  - destruct (addIdlePipe_spec c li lb s Hrep) as (c' & np & Hrun & Hrep' & _ & Hcnt' & _).
    exists c', ((np, s) :: li), lb. split; [done|]. split; [done|].
    rewrite Hcnt', Hcnt. simpl length. lia.
  - destruct (addBusyPipe_spec c li lb s Hrep) as (c' & np & Hrun & Hrep' & _ & Hcnt' & _).
    exists c', li, ((np, s) :: lb). split; [done|]. split; [done|]. congruence.
  - destruct (rep_views _ _ _ Hrep) as (Hn & _). rewrite Hn in Hop.
    apply list_elem_of_fmap in Hop as ([p' s] & -> & Hin).
    apply list_elem_of_split in Hin as (l1 & l2 & ->).
    destruct (removeIdleNode_spec c l1 p' s l2 lb Hrep) as (c' & Hrun & Hrep' & Hcnt' & _).
    exists c', (l1 ++ l2), lb. split; [done|]. split; [done|].
    rewrite Hcnt', Hcnt, !length_app. simpl length. lia.
  - destruct (getIdleFast_spec c li lb Hinv) as (c' & Hrun & Hinv' & _).
    eexists c', _, lb. split; [|exact Hinv'].
    by erewrite bind_ok by exact Hrun.
  - destruct (clean_spec c li lb Hinv) as (c' & new & Hrun & _ & Hrep' & _ & Hcnt' & _).
    eexists c', _, _. split; [done|]. split; [exact Hrep'|].
    pose proof (scanIdle_count (smuxStreams c) (smuxClosed c)
                  (Z.of_nat (length (new ++ li))) (new ++ li)). lia.
  - eexists _, li, lb. split; [reflexivity|]. split; [|done].
    destruct Hrep. by split.
Qed.

Lemma runOps_inv ops : ∀ c li lb,
  inv c li lb → wellUsed ops c = true →
  ∃ c' li' lb', runOps ops c = Ok (tt, c') ∧ inv c' li' lb'.
Proof.
  induction ops as [|op ops IH]; intros c li lb Hinv Hwell.
  - by exists c, li, lb.
  - cbn [wellUsed] in Hwell. apply andb_prop in Hwell as [Hop Hwell].
    destruct (runOp_inv op c li lb Hinv) as (c1 & li1 & lb1 & Hrun & Hinv1).
    { destruct op; try done. by apply bool_decide_eq_true in Hop. }
    rewrite Hrun in Hwell.
    destruct (IH c1 li1 lb1 Hinv1 Hwell) as (c' & li' & lb' & Hrun' & Hinv').
    exists c', li', lb'. split; [|done].
    cbn [runOps]. by erewrite bind_ok by exact Hrun.
Qed.

Lemma wellUsed_take ops : ∀ (n : nat) c, wellUsed ops c = true → wellUsed (take n ops) c = true.
Proof.
  induction ops as [|op ops IH]; intros [|n] c; try done.
  cbn [wellUsed take]. intros [Hop Hwell]%andb_prop.
  rewrite Hop. simpl. destruct (runOp op c) as [[[] c']| |]; auto.
Qed.

(** C4. After every operation of a sequence of [addIdlePipe],
    [addBusyPipe], [removeIdleNode] (of a cell of the idle list),
    [getIdleFast] and [clean] on a new Control, whatever the multiplex
    library does to the sessions in between, the operation has returned
    and [idleCount] is the number of cells reachable from [idlePipes]. *)
Theorem idleCount_is_idle_length (em : string) (ops : list poolOp) (n : nat) :
  wellUsed ops (NewControl em) = true →
  ∃ c', runOps (take n ops) (NewControl em) = Ok (tt, c') ∧
        idleCount c' = Z.of_nat (length (idleNodes c')).
Proof.
  intros Hwell.
  destruct (runOps_inv (take n ops) (NewControl em) [] [])
    as (c' & li' & lb' & Hrun & Hinv');
    [apply inv_NewControl|by apply wellUsed_take|].
  exists c'. split; [done|]. by eapply inv_count.
Qed.

Lemma idleCount_is_idle_length_witness :
  ∃ c', runOps (take 6 [OpAddIdle 7%nat; OpAddBusy 8%nat; OpAddIdle 9%nat; OpRemoveIdle 0%nat;
                        OpClean; OpGetIdleFast])
               (NewControl "none") = Ok (tt, c') ∧
        idleCount c' = Z.of_nat (length (idleNodes c')).
Proof.
  apply (idleCount_is_idle_length "none"
           [OpAddIdle 7%nat; OpAddBusy 8%nat; OpAddIdle 9%nat; OpRemoveIdle 0%nat;
            OpClean; OpGetIdleFast] 6).
  vm_compute. reflexivity.
Defined.

(** * What [clean] establishes *)

Lemma scanIdle_all streams X cnt l ps :
  ps ∈ l →
  ps ∈ (scanIdle streams X cnt l).1.1 ∨ ps.2 ∈ (scanIdle streams X cnt l).1.2.
Proof.
  revert X cnt. induction l as [|[i s] l IH]; intros X cnt Hps.
  - by apply elem_of_nil in Hps.
  - cbn [scanIdle]. apply elem_of_cons in Hps as [->|Hps].
    + case_bool_decide as Hcl.
      * right. by apply scanIdle_mono.
      * destruct (_ && _).
        -- right. apply scanIdle_mono. simpl. apply elem_of_union_l. by apply elem_of_singleton.
        -- destruct (scanIdle streams X cnt l) as [[k X'] cnt']. left. simpl. left.
    + case_bool_decide as Hcl; [by apply IH|].
      destruct (_ && _); [by apply IH|].
      specialize (IH X cnt Hps).
      destruct (scanIdle streams X cnt l) as [[k X'] cnt']. simpl in *.
      destruct IH; [left; by right|by right].
Qed.

Lemma elem_of_filter_bool {A} (f : A → bool) (l : list A) x :
  x ∈ List.filter f l ↔ x ∈ l ∧ f x = true.
Proof. rewrite !list_elem_of_In. apply filter_In. Qed.

Lemma filter_fmap_length {A B} (g : A → B) (f : B → bool) (l : list A) :
  length (List.filter f (g <$> l)) = length (List.filter (λ x, f (g x)) l).
Proof.
  induction l as [|x l IH]; [done|]. rewrite fmap_cons. simpl.
  destruct (f (g x)); simpl; by rewrite IH.
Qed.

Lemma filter_fmap_snd (f : session → bool) (l : list (ptr * session)) :
  (List.filter (λ ps, f ps.2) l).*2 = List.filter f l.*2.
Proof.
  induction l as [|[p s] l IH]; [done|]. rewrite fmap_cons. simpl.
  destruct (f s); [rewrite fmap_cons|]; by rewrite IH.
Qed.

Lemma scanIdle_no_close streams X cnt l :
  cnt ≤ maxIdlePipes → (scanIdle streams X cnt l).1.2 = X.
Proof.
  revert X cnt. induction l as [|[i s] l IH]; intros X cnt Hcnt; cbn [scanIdle]; [done|].
  case_bool_decide; [apply IH; lia|].
  rewrite (bool_decide_eq_false_2 (cnt > maxIdlePipes)) by lia.
  rewrite andb_false_r.
  specialize (IH X cnt Hcnt). by destruct (scanIdle streams X cnt l) as [[k X'] cnt'].
Qed.

(** C5. When [clean] is called with the pool well formed it returns.
    Its first scan closes nothing and leaves the busy list without the
    closed sessions and without the live ones below [maxStreams], each
    of which it has moved to the head of the idle list. When [clean]
    has returned: no cell left in either list holds a closed session; the
    busy list is, in order, what it was without the closed sessions and
    without those below [maxStreams], so every cell left in it carries
    at least [maxStreams] streams; a live busy session with fewer has
    left the busy list for the idle list, where it is unless the second
    scan closed it; the idle list holds nothing but those and the
    sessions it held before, in order; a live session of either list
    is still in the pool unless [clean] closed it, and [clean] closes
    only live sessions of the pool that carry no stream, none at all
    while the idle cells and the cells moved over are within
    [maxIdlePipes]; no stream count changes; and [idleCount] is the
    length of the idle list and exceeds [maxIdlePipes] by no more than
    the number of idle cells that carry streams. *)
Theorem clean_postcondition c li lb :
  inv c li lb →
  ∃ c', clean c = Ok (tt, c') ∧
    (∃ c1, cleanBusyLoop (walkFuel c) (busyPipes c) c = Ok (tt, c1) ∧
           cleanIdleLoop (walkFuel c1) (idlePipes c1) c1 = Ok (tt, c') ∧
           busySessions c1 = List.filter (isBusy c) (busySessions c) ∧
           idleSessions c1
           = reverse (List.filter (isIdle c) (busySessions c)) ++ idleSessions c ∧
           smuxClosed c1 = smuxClosed c) ∧
    (∀ s, s ∈ busySessions c' →
          (s ∉ smuxClosed c') ∧ maxStreams ≤ Z.of_nat (smuxStreams c' s)) ∧
    (∀ s, s ∈ idleSessions c' → s ∉ smuxClosed c') ∧
    busySessions c' = List.filter (isBusy c) (busySessions c) ∧
    idleSessions c' `sublist_of`
      reverse (List.filter (isIdle c) (busySessions c)) ++ idleSessions c ∧
    (∀ s, s ∈ busySessions c → s ∉ smuxClosed c →
          Z.of_nat (smuxStreams c s) < maxStreams →
          (s ∉ busySessions c') ∧
          (s ∈ idleSessions c' ∨ (s ∈ smuxClosed c' ∧ smuxStreams c s = 0%nat))) ∧
    (∀ s, s ∈ idleSessions c → s ∉ smuxClosed c →
          s ∈ idleSessions c' ∨ (s ∈ smuxClosed c' ∧ smuxStreams c s = 0%nat)) ∧
    (∀ s, s ∈ smuxClosed c' →
          s ∈ smuxClosed c ∨
          (smuxStreams c s = 0%nat ∧ (s ∈ idleSessions c ∨ s ∈ busySessions c))) ∧
    (Z.of_nat (length (idleSessions c)) +
       Z.of_nat (length (List.filter (isIdle c) (busySessions c))) ≤ maxIdlePipes →
     smuxClosed c' = smuxClosed c) ∧
    smuxClosed c ⊆ smuxClosed c' ∧ smuxStreams c' = smuxStreams c ∧
    idleCount c' = Z.of_nat (length (idleSessions c')) ∧
    idleCount c' ≤ maxIdlePipes + Z.of_nat (length (withStreams c' (idleSessions c'))).
Proof.
  intros Hinv.
  destruct (clean_spec c li lb Hinv) as (c' & new & Hrun & Hnew & Hrep' & HX' & Hcnt' & Hfr).
  pose proof (pool_frame_streams _ _ Hfr) as HS.
  destruct (rep_views _ _ _ (proj1 Hinv)) as (_ & _ & His & Hbs).
  destruct (rep_views _ _ _ Hrep') as (_ & _ & His' & Hbs').
  assert (new.*2 = reverse (List.filter (isIdle c) lb.*2)) as Hnew'.
  { rewrite Hnew. f_equal. apply (filter_fmap_snd (isIdle c)). }
  set (l := new ++ li) in *.
  set (sc := scanIdle (smuxStreams c) (smuxClosed c) (Z.of_nat (length l)) l) in *.
  assert (∀ ps, ps ∈ l → ps.2 ∉ smuxClosed c →
            ps.2 ∈ sc.1.1.*2 ∨ (ps.2 ∈ sc.1.2 ∧ smuxStreams c ps.2 = 0%nat)) as Hkeep.
  { intros ps Hin Hlive.
    destruct (scanIdle_all (smuxStreams c) (smuxClosed c) (Z.of_nat (length l)) l ps Hin)
      as [Hk|Hcl].
    - left. by apply (list_elem_of_fmap_2 snd).
    - right. split; [done|].
      apply scanIdle_closed in Hcl as [?|[Hz _]]; [done|lia]. }
  assert (∃ c1, cleanBusyLoop (walkFuel c) (busyPipes c) c = Ok (tt, c1) ∧
                cleanIdleLoop (walkFuel c1) (idlePipes c1) c1 = Ok (tt, c') ∧
                busySessions c1 = List.filter (isBusy c) lb.*2 ∧
                idleSessions c1 = reverse (List.filter (isIdle c) lb.*2) ++ li.*2 ∧
                smuxClosed c1 = smuxClosed c) as Hfirst.
  { destruct (cleanBusyLoop_spec lb c li [] (walkFuel c))
      as (c1 & new1 & Hrun1 & [Hrep1 Hcnt1] & Hnew1 & HX1 & Hfr1);
      [done|apply (rep_busy_bound _ _ _ (proj1 Hinv))|].
    simpl in Hrep1. rewrite <- (rep_busy_hd _ _ _ (proj1 Hinv)) in Hrun1.
    exists c1. destruct (rep_views _ _ _ Hrep1) as (_ & _ & His1 & Hbs1).
    split_and!; [done| | | |done].
    - revert Hrun. unfold clean. do 2 mstep.
      erewrite (bind_ok (cleanBusyLoop _ _)) by exact Hrun1.
      by do 2 mstep.
    - rewrite Hbs1. apply (filter_fmap_snd (isBusy c)).
    - rewrite His1, fmap_app, Hnew1. f_equal. f_equal.
      apply (filter_fmap_snd (isIdle c)). }
  exists c'. split; [done|]. rewrite His', Hbs', His, Hbs, HX', HS. split_and!.
  - exact Hfirst.
  - intros s ([p s'] & -> & [Hin Hst]%elem_of_filter_bool)%list_elem_of_fmap.
    unfold staysBusy in Hst. cbn [snd] in *.
    apply andb_prop in Hst as [Hlive%negb_true_iff%bool_decide_eq_false
                                 Hfull%negb_true_iff%bool_decide_eq_false].
    split; [|lia].
    intros [?|[Hz _]]%scanIdle_closed; [done|]. unfold maxStreams in Hfull. lia.
  - intros s ([p s'] & -> & Hin)%list_elem_of_fmap. by apply scanIdle_live in Hin.
  - apply (filter_fmap_snd (isBusy c)).
  - rewrite <- Hnew', <- fmap_app. apply fmap_sublist, scanIdle_sublist.
  - intros s ([p s'] & -> & Hin)%list_elem_of_fmap Hlive Hfew. cbn [snd] in *. split.
    + intros ([p2 s2] & Heq & [_ Hst]%elem_of_filter_bool)%list_elem_of_fmap.
      cbn [snd] in Heq. subst s2. unfold staysBusy in Hst. cbn [snd] in Hst.
      apply andb_prop in Hst as [_ Hfull%negb_true_iff%bool_decide_eq_false]. done.
    + assert (s' ∈ new.*2) as ([p2 s2] & Heq & Hin2)%list_elem_of_fmap.
      { rewrite Hnew. apply elem_of_reverse.
        apply (list_elem_of_fmap_2 snd _ (p, s')). apply elem_of_filter_bool.
        split; [done|]. unfold turnsIdle. cbn [snd].
        rewrite bool_decide_eq_false_2 by done. by rewrite bool_decide_eq_true_2. }
      cbn [snd] in Heq. subst s2.
      apply (Hkeep (p2, s')); [apply elem_of_app; by left|done].
  - intros s ([p s'] & -> & Hin)%list_elem_of_fmap Hlive. cbn [snd] in *.
    apply (Hkeep (p, s')); [apply elem_of_app; by right|done].
  - intros s [?|[Hz Hin]]%scanIdle_closed; [by left|right]. split; [lia|].
    unfold l in Hin. rewrite fmap_app, Hnew' in Hin.
    apply elem_of_app in Hin as [Hin|Hin]; [right|by left].
    rewrite elem_of_reverse in Hin. by apply elem_of_filter_bool in Hin as [? _].
  - intros Hcap. apply scanIdle_no_close.
    rewrite !length_fmap in Hcap.
    assert (length new = length (List.filter (isIdle c) lb.*2)) as Hlen.
    { rewrite <- (length_fmap snd new), Hnew, length_reverse.
      f_equal. apply (filter_fmap_snd (isIdle c)). }
    unfold l. rewrite length_app, Hlen. lia.
  - apply scanIdle_mono.
  - done.
  - rewrite Hcnt', length_fmap.
    pose proof (scanIdle_count (smuxStreams c) (smuxClosed c) (Z.of_nat (length l)) l).
    fold sc in H. lia.
  - rewrite Hcnt'. unfold withStreams. rewrite HS, filter_fmap_length.
    apply scanIdle_cap.
Qed.

Lemma clean_postcondition_witness :
  let c := stateAfter [OpAddBusy 8%nat; OpAddIdle 7%nat] in
  ∃ c', clean c = Ok (tt, c') ∧
    (∃ c1, cleanBusyLoop (walkFuel c) (busyPipes c) c = Ok (tt, c1) ∧
           cleanIdleLoop (walkFuel c1) (idlePipes c1) c1 = Ok (tt, c') ∧
           busySessions c1 = List.filter (isBusy c) (busySessions c) ∧
           idleSessions c1
           = reverse (List.filter (isIdle c) (busySessions c)) ++ idleSessions c ∧
           smuxClosed c1 = smuxClosed c) ∧
    (∀ s, s ∈ busySessions c' →
          (s ∉ smuxClosed c') ∧ maxStreams ≤ Z.of_nat (smuxStreams c' s)) ∧
    (∀ s, s ∈ idleSessions c' → s ∉ smuxClosed c') ∧
    busySessions c' = List.filter (isBusy c) (busySessions c) ∧
    idleSessions c' `sublist_of`
      reverse (List.filter (isIdle c) (busySessions c)) ++ idleSessions c ∧
    (∀ s, s ∈ busySessions c → s ∉ smuxClosed c →
          Z.of_nat (smuxStreams c s) < maxStreams →
          (s ∉ busySessions c') ∧
          (s ∈ idleSessions c' ∨ (s ∈ smuxClosed c' ∧ smuxStreams c s = 0%nat))) ∧
    (∀ s, s ∈ idleSessions c → s ∉ smuxClosed c →
          s ∈ idleSessions c' ∨ (s ∈ smuxClosed c' ∧ smuxStreams c s = 0%nat)) ∧
    (∀ s, s ∈ smuxClosed c' →
          s ∈ smuxClosed c ∨
          (smuxStreams c s = 0%nat ∧ (s ∈ idleSessions c ∨ s ∈ busySessions c))) ∧
    (Z.of_nat (length (idleSessions c)) +
       Z.of_nat (length (List.filter (isIdle c) (busySessions c))) ≤ maxIdlePipes →
     smuxClosed c' = smuxClosed c) ∧
    smuxClosed c ⊆ smuxClosed c' ∧ smuxStreams c' = smuxStreams c ∧
    idleCount c' = Z.of_nat (length (idleSessions c')) ∧
    idleCount c' ≤ maxIdlePipes + Z.of_nat (length (withStreams c' (idleSessions c'))).
Proof.
  intros c.
  apply (clean_postcondition c [(1%nat, 7%nat)] [(0%nat, 8%nat)]).
  split; [|reflexivity].
  split; try (vm_compute; repeat split; reflexivity).
  apply (bool_decide_unpack _). vm_compute. reflexivity.
Defined.

(** * Moves of the manager *)

Lemma clean_inv c li lb :
  inv c li lb →
  ∃ c' li' lb', clean c = Ok (tt, c') ∧ inv c' li' lb' ∧ pool_frame c c'.
Proof.
  intros Hinv.
  destruct (clean_spec c li lb Hinv) as (c' & new & Hrun & _ & Hrep' & _ & Hcnt' & Hfr).
  eexists c', _, _. split; [done|]. split; [|done]. split; [exact Hrep'|].
  pose proof (scanIdle_count (smuxStreams c) (smuxClosed c)
                (Z.of_nat (length (new ++ li))) (new ++ li)). lia.
Qed.

Lemma pool_frame_writeChan c c' : pool_frame c c' → writeChan c' = writeChan c.
Proof. intros H. by rewrite H. Qed.

Lemma pool_frame_dieClosed c c' : pool_frame c c' → dieClosed c' = dieClosed c.
Proof. intros H. by rewrite H. Qed.

Lemma pool_frame_toDie c c' : pool_frame c c' → toDie c' = toDie c.
Proof. intros H. by rewrite H. Qed.

Lemma pipeOf_pipeAt c p s :
  pipe <$> mem c !! p = Some s → pipeOf p c = Ok (s, c) ∧ pipeAt c p = s.
Proof.
  unfold pipeAt. destruct (mem c !! p) as [n|] eqn:Hn; [|done].
  intros [= <-]. split; [|done]. by apply pipeOf_eq.
Qed.

Lemma pipeOf_frame c w p s :
  pipeOf p c = Ok (s, c) → pipeOf p (set_writeChan w c) = Ok (s, set_writeChan w c).
Proof.
  unfold pipeOf, load. rewrite !bind_eq. simpl.
  destruct (mem c !! p); [|done]. by intros [= ->].
Qed.

Lemma pipeOf_alloc c p s : pipeOf p c = Ok (s, c) → is_Some (mem c !! p).
Proof.
  unfold pipeOf, load. rewrite bind_eq. destruct (mem c !! p); [by eexists|done].
Qed.

Lemma alloc_pipeOf c p : is_Some (mem c !! p) → ∃ s, pipeOf p c = Ok (s, c).
Proof. intros [n Hn]. exists (pipe n). by apply pipeOf_eq. Qed.

Lemma set_writeChan_twice q q' c : set_writeChan q' (set_writeChan q c) = set_writeChan q' c.
Proof. by destruct c. Qed.

Lemma skipClosed_split X (l : list (ptr * session)) :
  ∃ dead, l = dead ++ skipClosed X l ∧ (∀ ps, ps ∈ dead → ps.2 ∈ X) ∧
          (∀ ps, head (skipClosed X l) = Some ps → ps.2 ∉ X).
Proof.
  induction l as [|[p s] l (dead & Hl & Hdead & Hhd)]; simpl.
  - exists []. split_and!; [done| |done]. intros ps Hps. by apply elem_of_nil in Hps.
  - case_bool_decide as Hcl.
    + exists ((p, s) :: dead). split_and!; [by rewrite Hl at 1| |done].
      intros ps [->|?]%elem_of_cons; [done|by apply Hdead].
    + exists []. split_and!; [done| |].
      * intros ps Hps. by apply elem_of_nil in Hps.
      * by intros ps [= <-].
Qed.

Lemma rep_frame c c' li lb :
  mem c' = mem c → idlePipes c' = idlePipes c → busyPipes c' = busyPipes c →
  rep c li lb → rep c' li lb.
Proof. intros Hm Hi Hb [? ? ? ? ?]. split; congruence. Qed.

Lemma inv_frame c c' li lb :
  mem c' = mem c → idlePipes c' = idlePipes c → busyPipes c' = busyPipes c →
  idleCount c' = idleCount c → inv c li lb → inv c' li lb.
Proof.
  intros Hm Hi Hb Hc [Hrep Hcnt]. split; [by apply (rep_frame c)|congruence].
Qed.

Lemma pool_mgr_frame c c' : pool_frame c c' → mgr_frame c c'.
Proof.
  intros H. pose proof (pool_frame_writeChan _ _ H) as Hw.
  unfold pool_frame in H. unfold mgr_frame. rewrite Hw. rewrite H at 1. reflexivity.
Qed.

Lemma mgr_frame_trans c1 c2 c3 : mgr_frame c1 c2 → mgr_frame c2 c3 → mgr_frame c1 c3.
Proof. unfold mgr_frame. intros H1 H2. rewrite H2, H1. reflexivity. Qed.

Lemma mgr_frame_refl c : mgr_frame c c.
Proof. by destruct c. Qed.

Lemma mgr_frame_send c w : mgr_frame c (set_writeChan w c).
Proof. by destruct c. Qed.

Lemma mgr_frame_streams c c' : mgr_frame c c' → smuxStreams c' = smuxStreams c.
Proof. intros H. by rewrite H. Qed.

Lemma onlyPipeReqs_nil : onlyPipeReqs [].
Proof. intros w Hw. by apply elem_of_nil in Hw. Qed.

Lemma onlyPipeReqs_one : onlyPipeReqs [WriteReq TypePipeReq BNil].
Proof. by intros w ->%list_elem_of_singleton. Qed.

Lemma onlyPipeReqs_app q1 q2 : onlyPipeReqs q1 → onlyPipeReqs q2 → onlyPipeReqs (q1 ++ q2).
Proof. intros H1 H2 w [?|?]%elem_of_app; auto. Qed.

Lemma mgrPost_refl c li lb : inv c li lb → mgrPost c c.
Proof.
  intros Hinv. split_and!; [by exists li, lb|apply mgr_frame_refl| |lia|done|by left].
  exists []. split; [by rewrite app_nil_r|apply onlyPipeReqs_nil].
Qed.

(** A step that leaves the sessions alone. *)
Lemma mgrPost_pool c c' li lb :
  inv c' li lb → pool_frame c c' → smuxClosed c' = smuxClosed c → mgrPost c c'.
Proof.
  intros Hinv Hfr HX.
  split_and!; [by exists li, lb|by apply pool_mgr_frame| | | |].
  - exists []. split; [|apply onlyPipeReqs_nil].
    by rewrite app_nil_r, (pool_frame_writeChan _ _ Hfr).
  - rewrite (pool_frame_writeChan _ _ Hfr). lia.
  - by rewrite HX.
  - intros s. rewrite HX. by left.
Qed.

Lemma mgrPost_trans c1 c2 c3 : mgrPost c1 c2 → mgrPost c2 c3 → mgrPost c1 c3.
Proof.
  intros (_ & Hf1 & (r1 & Hw1 & Hr1) & Hl1 & Hs1 & Hz1)
         (Hinv & Hf2 & (r2 & Hw2 & Hr2) & Hl2 & Hs2 & Hz2).
  split_and!; [done|by eapply mgr_frame_trans| |lia| |].
  - exists (r1 ++ r2). split; [by rewrite Hw2, Hw1, app_assoc|by apply onlyPipeReqs_app].
  - by etrans.
  - intros s [Hs|Hs]%Hz2; [by apply Hz1|].
    right. by rewrite (mgr_frame_streams _ _ Hf1) in Hs.
Qed.

Lemma mgrPost_send c li lb :
  inv c li lb → (length (writeChan c) < writeChanCap)%nat →
  mgrPost c (set_writeChan (writeChan c ++ [WriteReq TypePipeReq BNil]) c).
Proof.
  intros [Hrep Hcnt] Hroom. split_and!.
  - exists li, lb. split; [|done]. by apply (rep_frame c).
  - apply mgr_frame_send.
  - eexists. split; [reflexivity|apply onlyPipeReqs_one].
  - simpl. rewrite length_app. simpl. lia.
  - done.
  - intros s. by left.
Qed.

Lemma mgrPost_inv c c' : mgrPost c c' → ∃ li lb, inv c' li lb.
Proof. by intros [? _]. Qed.

Lemma mgrPost_dieClosed c c' : mgrPost c c' → dieClosed c' = dieClosed c.
Proof. intros (_ & H & _). by rewrite H. Qed.

Lemma mgrPost_toDie c c' : mgrPost c c' → toDie c' = toDie c.
Proof. intros (_ & H & _). by rewrite H. Qed.

Lemma mgrPost_ctlOut c c' : mgrPost c c' → ctlOut c' = ctlOut c.
Proof. intros (_ & H & _). by rewrite H. Qed.

Lemma clean_post c li lb : inv c li lb → ∃ c', clean c = Ok (tt, c') ∧ mgrPost c c'.
Proof.
  intros Hinv.
  destruct (clean_spec c li lb Hinv) as (c' & new & Hrun & _ & Hrep' & HX' & Hcnt' & Hfr).
  exists c'. split; [done|].
  split_and!.
  - eexists _, _. split; [exact Hrep'|].
    pose proof (scanIdle_count (smuxStreams c) (smuxClosed c)
                  (Z.of_nat (length (new ++ li))) (new ++ li)). lia.
  - by apply pool_mgr_frame.
  - exists []. split; [|apply onlyPipeReqs_nil].
    by rewrite app_nil_r, (pool_frame_writeChan _ _ Hfr).
  - rewrite (pool_frame_writeChan _ _ Hfr). lia.
  - rewrite HX'. apply scanIdle_mono.
  - intros s. rewrite HX'. intros [?|[Hz _]]%scanIdle_closed; [by left|right; lia].
Qed.

(** A fast pop, and what is made of its result. *)
Lemma pop_post c li lb :
  inv c li lb →
  ∃ i c', getIdleFast c = Ok (i, c') ∧ mgrPost c c' ∧ smuxClosed c' = smuxClosed c ∧
    writeChan c' = writeChan c ∧
    match i with
    | Some p => ∃ s, pipeOf p c' = Ok (s, c') ∧ s ∉ smuxClosed c'
    | None => idleSessions c' = []
    end.
Proof.
  intros Hinv.
  destruct (getIdleFast_spec c li lb Hinv) as (c' & Hrun & Hinv' & HX & Hfr & Hpipe).
  destruct (skipClosed_split (smuxClosed c) li) as (dead & _ & _ & Hhd).
  eexists _, c'. split; [exact Hrun|].
  split_and!; [by eapply mgrPost_pool|done|by apply pool_frame_writeChan|].
  destruct (head (skipClosed (smuxClosed c) li)) as [[p s]|] eqn:Hh; simpl.
  - exists s. destruct (pipeOf_pipeAt c' p s (Hpipe p s eq_refl)) as [Hp _].
    split; [done|]. rewrite HX. by apply (Hhd (p, s)).
  - destruct (rep_views _ _ _ (proj1 Hinv')) as (_ & _ & -> & _).
    by destruct (skipClosed (smuxClosed c) li).
Qed.

(** The send of line 206 with the result of the retry in hand. *)
Lemma sendStep_post idle c li lb :
  inv c li lb →
  match idle with Some i => is_Some (mem c !! i) | None => True end →
  ∃ r c', sendStep idle c = Ok (r, c') ∧ mgrPost c c' ∧ mgrOk c' r ∧
    if bool_decide (length (writeChan c) < writeChanCap)%nat
    then c' = set_writeChan (writeChan c ++ [WriteReq TypePipeReq BNil]) c ∧
         match idle with
         | Some i => ∃ s, pipeOf i c = Ok (s, c) ∧ r = (Some s, AtAvailable)
         | None => r = (None, AtWait)
         end
    else c' = c ∧ r = (None, AtSend idle).
Proof.
  intros Hinv Hidle. unfold sendStep. case_bool_decide as Hroom.
  - erewrite bind_ok by (by apply sendWriteChan_room).
    pose proof (mgrPost_send c li lb Hinv Hroom) as Hpost.
    destruct idle as [i|]; cbn [afterSend].
    + destruct (alloc_pipeOf c i Hidle) as [s Hs].
      erewrite bind_ok by (apply pipeOf_frame; exact Hs).
      eexists _, _. split; [reflexivity|]. split_and!; try done. by exists s.
    + eexists _, _. split; [reflexivity|]. by split_and!.
  - erewrite bind_ok by (apply sendWriteChan_full; lia).
    eexists _, _. split; [reflexivity|]. split_and!; try done.
    by eapply mgrPost_refl.
Qed.

Lemma prepare_post av c li lb :
  inv c li lb → ∃ r c', prepare av c = Ok (r, c') ∧ mgrPost c c' ∧ mgrOk c' r.
Proof.
  intros Hinv. unfold prepare.
  assert (∃ stale, match av with None => mret true | Some a => smux.IsClosed a end c
                   = Ok (stale, c)) as (stale & Hst).
  { destruct av as [a|]; by eexists. }
  erewrite bind_ok by exact Hst. destruct stale.
  2:{ eexists _, c. split; [reflexivity|]. split; [by eapply mgrPost_refl|done]. }
  destruct (pop_post c li lb Hinv) as (i1 & c1 & Hrun1 & Hpost1 & _ & _ & Hi1).
  erewrite bind_ok by exact Hrun1.
  destruct i1 as [p|].
  { destruct Hi1 as (s & Hp & _). erewrite bind_ok by exact Hp.
    eexists _, c1. by split. }
  destruct (mgrPost_inv _ _ Hpost1) as (li1 & lb1 & Hinv1).
  destruct (clean_post c1 li1 lb1 Hinv1) as (c2 & Hrun2 & Hpost2).
  erewrite bind_ok by exact Hrun2.
  destruct (mgrPost_inv _ _ Hpost2) as (li2 & lb2 & Hinv2).
  destruct (pop_post c2 li2 lb2 Hinv2) as (i3 & c3 & Hrun3 & Hpost3 & _ & _ & Hi3).
  erewrite bind_ok by exact Hrun3.
  destruct (mgrPost_inv _ _ Hpost3) as (li3 & lb3 & Hinv3).
  destruct (sendStep_post i3 c3 li3 lb3 Hinv3) as (r & c4 & Hrun4 & Hpost4 & Hok4 & _).
  { destruct i3 as [i|]; [|done]. destruct Hi3 as (s & Hs & _). by eapply pipeOf_alloc. }
  exists r, c4. split; [done|]. split; [|done].
  eapply mgrPost_trans; [exact Hpost1|]. eapply mgrPost_trans; [exact Hpost2|].
  by eapply mgrPost_trans.
Qed.

Lemma addIdle_post c li lb s :
  inv c li lb → ∃ c', addIdlePipe s c = Ok (tt, c') ∧ mgrPost c c'.
Proof.
  intros [Hrep Hcnt].
  destruct (addIdlePipe_spec c li lb s Hrep) as (c' & np & Hrun & Hrep' & _ & Hcnt' & HX & Hfr & _).
  exists c'. split; [done|]. eapply (mgrPost_pool _ _ ((np, s) :: li) lb); [|done|done].
  split; [done|]. rewrite Hcnt', Hcnt. simpl length. lia.
Qed.

Lemma addBusy_post c li lb s :
  inv c li lb → ∃ c', addBusyPipe s c = Ok (tt, c') ∧ mgrPost c c'.
Proof.
  intros [Hrep Hcnt].
  destruct (addBusyPipe_spec c li lb s Hrep) as (c' & np & Hrun & Hrep' & _ & Hcnt' & HX & Hfr).
  exists c'. split; [done|]. eapply (mgrPost_pool _ _ li ((np, s) :: lb)); [|done|done].
  split; [done|]. congruence.
Qed.

Lemma waitStep_post ev c li lb :
  inv c li lb → ∃ r c', waitStep ev c = Ok (r, c') ∧ mgrPost c c' ∧ mgrOk c' r.
Proof.
  intros Hinv. destruct ev as [|p| |]; cbn [waitStep].
  - destruct (clean_post c li lb Hinv) as (c1 & Hrun1 & Hpost1).
    erewrite bind_ok by exact Hrun1.
    destruct (mgrPost_inv _ _ Hpost1) as (li1 & lb1 & Hinv1).
    destruct (pop_post c1 li1 lb1 Hinv1) as (i & c2 & Hrun2 & Hpost2 & _ & _ & Hi).
    erewrite bind_ok by exact Hrun2.
    destruct i as [q|].
    + destruct Hi as (s & Hq & _). erewrite bind_ok by exact Hq.
      eexists _, _. split; [reflexivity|]. split; [by eapply mgrPost_trans|done].
    + eexists _, _. split; [reflexivity|]. split; [by eapply mgrPost_trans|done].
  - eexists _, _. split; [reflexivity|]. split; [by eapply mgrPost_refl|done].
  - eexists _, _. split; [reflexivity|]. split; [by eapply mgrPost_refl|done].
  - eexists _, _. split; [reflexivity|]. split; [by eapply mgrPost_refl|done].
Qed.

Lemma waitGot_post p c li lb :
  inv c li lb → ∃ r c', waitGot p c = Ok (r, c') ∧ mgrPost c c' ∧ mgrOk c' r.
Proof.
  intros Hinv. unfold waitGot.
  rewrite bind_IsClosed. destruct (bool_decide (p ∈ smuxClosed c)).
  { eexists _, _. split; [reflexivity|]. split; [by eapply mgrPost_refl|done]. }
  rewrite bind_NumStreams. case_bool_decide.
  { eexists _, _. split; [reflexivity|]. split; [by eapply mgrPost_refl|done]. }
  destruct (addBusy_post c li lb p Hinv) as (c1 & Hrun1 & Hpost1).
  erewrite bind_ok by exact Hrun1. eexists _, _. by split.
Qed.

Lemma availableStep_post av ev c li lb :
  inv c li lb → ∃ r c', availableStep av ev c = Ok (r, c') ∧ mgrPost c c' ∧ mgrOk c' r.
Proof.
  intros Hinv. destruct ev as [| |p|]; cbn [availableStep].
  - destruct (clean_post c li lb Hinv) as (c1 & Hrun1 & Hpost1).
    erewrite bind_ok by exact Hrun1. eexists _, _. by split.
  - eexists _, _. split; [reflexivity|]. split; [by eapply mgrPost_refl|done].
  - eexists _, _. split; [reflexivity|]. split; [by eapply mgrPost_refl|done].
  - eexists _, _. split; [reflexivity|]. split; [by eapply mgrPost_refl|done].
Qed.

Lemma availGot_post av p c li lb :
  inv c li lb → ∃ r c', availGot av p c = Ok (r, c') ∧ mgrPost c c' ∧ mgrOk c' r.
Proof.
  intros Hinv. unfold availGot.
  rewrite bind_IsClosed. destruct (bool_decide (p ∈ smuxClosed c)).
  { eexists _, _. split; [reflexivity|]. split; [by eapply mgrPost_refl|done]. }
  rewrite bind_eq, bind_NumStreams. case_bool_decide.
  + destruct (addIdle_post c li lb p Hinv) as (c1 & Hrun1 & Hpost1).
    rewrite Hrun1. eexists _, _. by split.
  + destruct (addBusy_post c li lb p Hinv) as (c1 & Hrun1 & Hpost1).
    rewrite Hrun1. eexists _, _. by split.
Qed.

Lemma mgrStep_post av pt ev c li lb :
  inv c li lb → mgrOk c (av, pt) →
  ∃ r c', mgrStep av pt ev c = Ok (r, c') ∧ mgrPost c c' ∧ mgrOk c' r.
Proof.
  intros Hinv Hok.
  assert (∃ r c', (mret (av, pt) : M _) c = Ok (r, c') ∧ mgrPost c c' ∧ mgrOk c' r) as Hskip.
  { eexists _, _. split; [reflexivity|]. split; [by eapply mgrPost_refl|done]. }
  destruct pt, ev; cbn [mgrStep]; try exact Hskip.
  - by eapply prepare_post.
  - destruct (sendStep_post idle c li lb Hinv) as (r & c' & Hrun & Hpost & Hok' & _).
    { by destruct idle. }
    by exists r, c'.
  - by eapply waitStep_post.
  - by eapply waitGot_post.
  - by eapply availableStep_post.
  - by eapply availGot_post.
Qed.

Lemma mgrRun_post evs : ∀ av pt c li lb,
  inv c li lb → mgrOk c (av, pt) →
  ∃ r c', mgrRun evs av pt c = Ok (r, c') ∧ mgrPost c c' ∧ mgrOk c' r.
Proof.
  induction evs as [|ev evs IH]; intros av pt c li lb Hinv Hok.
  - eexists _, _. split; [reflexivity|]. split; [by eapply mgrPost_refl|done].
  - destruct (mgrStep_post av pt ev c li lb Hinv Hok) as ([av1 pt1] & c1 & Hrun1 & Hpost1 & Hok1).
    destruct (mgrPost_inv _ _ Hpost1) as (li1 & lb1 & Hinv1).
    destruct (IH av1 pt1 c1 li1 lb1 Hinv1 Hok1) as (r & c' & Hrun' & Hpost' & Hok').
    exists r, c'. split; [|split; [by eapply mgrPost_trans|done]].
    cbn [mgrRun]. by erewrite bind_ok by exact Hrun1.
Qed.

(** * The Prepare phase of the manager *)

(** C1, as the code has it. In a pass of [Prepare] in which the first
    fast pop finds nothing, the manager runs [clean], retries the fast
    pop and then sends one PIPE_REQ frame whatever the retry yielded.
    With room in the write queue the frame is enqueued at once; on a
    full queue the manager is parked at the send, nothing enqueued, and
    the frame is enqueued when the send is tried with room. After the
    send a pipe the retry yielded becomes [available], and with none the
    manager goes to the timed wait. *)
Theorem prepare_requests_pipe av c li lb :
  inv c li lb →
  match av with None => True | Some a => a ∈ smuxClosed c end →
  skipClosed (smuxClosed c) li = [] →
  ∃ c1 c2 c3 i,
    getIdleFast c = Ok (None, c1) ∧ clean c1 = Ok (tt, c2) ∧
    getIdleFast c2 = Ok (i, c3) ∧ writeChan c3 = writeChan c ∧
    let after := (pipeAt c3 <$> i, match i with Some _ => AtAvailable | None => AtWait end) in
    ((length (writeChan c) < writeChanCap)%nat →
       prepare av c
       = Ok (after, set_writeChan (writeChan c ++ [WriteReq TypePipeReq BNil]) c3)) ∧
    ((writeChanCap ≤ length (writeChan c))%nat →
       prepare av c = Ok ((None, AtSend i), c3) ∧
       ∀ q, (length q < writeChanCap)%nat →
         mgrStep None (AtSend i) MRun (set_writeChan q c3)
         = Ok (after, set_writeChan (q ++ [WriteReq TypePipeReq BNil]) c3)).
Proof.
  intros Hinv Hstale Hnone.
  destruct (getIdleFast_spec c li lb Hinv) as (c1 & Hrun1 & Hinv1 & _ & Hfr1 & _).
  rewrite Hnone in Hrun1, Hinv1. simpl in Hrun1, Hinv1.
  destruct (clean_inv c1 [] lb Hinv1) as (c2 & li2 & lb2 & Hrun2 & Hinv2 & Hfr2).
  destruct (getIdleFast_spec c2 li2 lb2 Hinv2) as (c3 & Hrun3 & Hinv3 & _ & Hfr3 & Hpipe).
  assert (writeChan c3 = writeChan c) as Hw.
  { rewrite (pool_frame_writeChan _ _ Hfr3), (pool_frame_writeChan _ _ Hfr2).
    apply (pool_frame_writeChan _ _ Hfr1). }
  set (i := fst <$> head (skipClosed (smuxClosed c2) li2)) in *.
  exists c1, c2, c3, i.
  split_and!; try done.
  assert (prepare av c = sendStep i c3) as Hprep.
  { unfold prepare.
    assert (match av with None => mret true | Some a => smux.IsClosed a end c = Ok (true, c))
      as Hst.
    { destruct av as [a|]; [|done]. unfold smux.IsClosed, gets.
      by rewrite bool_decide_eq_true_2. }
    erewrite bind_ok by exact Hst. cbv beta iota.
    erewrite bind_ok by exact Hrun1. cbv beta iota.
    erewrite bind_ok by exact Hrun2.
    by erewrite bind_ok by exact Hrun3. }
  assert (∀ q, afterSend i (set_writeChan q c3)
               = Ok ((pipeAt c3 <$> i,
                      match i with Some _ => AtAvailable | None => AtWait end),
                     set_writeChan q c3)) as Hafter.
  { intros q. subst i.
    destruct (head (skipClosed (smuxClosed c2) li2)) as [[p s]|] eqn:Hhd;
      cbn [fmap option_fmap option_map fst afterSend]; [|done].
    destruct (pipeOf_pipeAt c3 p s (Hpipe p s eq_refl)) as [Hp Hat].
    erewrite bind_ok by (apply pipeOf_frame; exact Hp). by rewrite Hat. }
  cbv zeta. split.
  - intros Hroom. rewrite Hprep. unfold sendStep.
    erewrite bind_ok by (apply sendWriteChan_room; by rewrite Hw).
    rewrite Hw. apply Hafter.
  - intros Hfull. split.
    + rewrite Hprep. unfold sendStep.
      by erewrite bind_ok by (apply sendWriteChan_full; by rewrite Hw).
    + intros q Hq. cbn [mgrStep]. unfold sendStep.
      erewrite bind_ok by (apply sendWriteChan_room; exact Hq).
      cbn [writeChan set_writeChan]. rewrite set_writeChan_twice. apply Hafter.
Qed.

Lemma prepare_requests_pipe_witness :
  ∃ c1 c2 c3 i,
    getIdleFast (stateAfter [OpAddBusy 7%nat]) = Ok (None, c1) ∧ clean c1 = Ok (tt, c2) ∧
    getIdleFast c2 = Ok (i, c3) ∧ writeChan c3 = writeChan (stateAfter [OpAddBusy 7%nat]) ∧
    let after := (pipeAt c3 <$> i, match i with Some _ => AtAvailable | None => AtWait end) in
    ((length (writeChan (stateAfter [OpAddBusy 7%nat])) < writeChanCap)%nat →
       prepare None (stateAfter [OpAddBusy 7%nat])
       = Ok (after, set_writeChan (writeChan (stateAfter [OpAddBusy 7%nat])
                                   ++ [WriteReq TypePipeReq BNil]) c3)) ∧
    ((writeChanCap ≤ length (writeChan (stateAfter [OpAddBusy 7%nat])))%nat →
       prepare None (stateAfter [OpAddBusy 7%nat]) = Ok ((None, AtSend i), c3) ∧
       ∀ q, (length q < writeChanCap)%nat →
         mgrStep None (AtSend i) MRun (set_writeChan q c3)
         = Ok (after, set_writeChan (q ++ [WriteReq TypePipeReq BNil]) c3)).
Proof.
  apply (prepare_requests_pipe None (stateAfter [OpAddBusy 7%nat]) [] [(0%nat, 7%nat)]).
  - split; [|reflexivity].
    split; try (vm_compute; repeat split; reflexivity).
    apply (bool_decide_unpack _). vm_compute. reflexivity.
  - exact I.
  - reflexivity.
Defined.

(** C1, as the specification words it, fails: with one live, unsaturated
    pipe on the busy list and none on the idle list, the retry after
    [clean] yields that pipe, and a PIPE_REQ frame is enqueued in the
    same pass. *)
Lemma prepare_pipe_req_counterexample :
  ¬ (∀ av c c1 c2 c3 i r c',
       getIdleFast c = Ok (None, c1) → clean c1 = Ok (tt, c2) →
       getIdleFast c2 = Ok (Some i, c3) →
       prepare av c = Ok (r, c') →
       writeChan c' = writeChan c).
Proof.
  intros H.
  destruct (getIdleFast (stateAfter [OpAddBusy 7%nat])) as [[[i1|] c1]| |] eqn:H1;
    try (vm_compute in H1; discriminate).
  destruct (clean c1) as [[[] c2]| |] eqn:H2;
    try (vm_compute in H1; injection H1 as <-; vm_compute in H2; discriminate).
  destruct (getIdleFast c2) as [[[i|] c3]| |] eqn:H3;
    try (vm_compute in H1; injection H1 as <-; vm_compute in H2; injection H2 as <-;
         vm_compute in H3; discriminate).
  destruct (prepare None (stateAfter [OpAddBusy 7%nat])) as [[r c']| |] eqn:H4;
    try (vm_compute in H4; discriminate).
  specialize (H None _ _ _ _ _ _ _ H1 H2 H3 H4).
  vm_compute in H4. injection H4 as <- <-.
  vm_compute in H. discriminate.
Qed.

(** * The close path *)

(** C2. [Close] does not reach its offer on [toDie]: every call panics
    on its first statement, whatever the state of the Control. The
    specification asks for a call that returns normally. *)
Theorem Close_panics (c : Control) : Close c = Panic "closing".
Proof. reflexivity. Qed.

(** What the offer would do, were it reached: it hands over to a parked
    moderator once, and repeating it changes nothing. *)
Lemma offerToDie_idempotent c c1 c2 :
  offerToDie c = Ok (tt, c1) → offerToDie c1 = Ok (tt, c2) → c2 = c1.
Proof.
  unfold offerToDie, modify. intros [= <-] [= <-].
  by destruct c as [? ? ? ? ? ? ? ? ? ? ? ? ? ? [] ? ?].
Qed.

(** The teardown walk closes the sessions of a list and nothing else. *)
Lemma closeAllLoop_spec l : ∀ c pv (fuel : nat),
  dseg (mem c) pv l None → (length l < fuel)%nat →
  ∃ c', closeAllLoop fuel (hd_or None l) c = Ok (tt, c') ∧
        c' = set_smuxClosed (smuxClosed c') c ∧
        smuxClosed c' = list_to_set l.*2 ∪ smuxClosed c.
Proof.
  induction l as [|[p s] l IH]; intros c pv fuel Hl Hfuel;
    (destruct fuel as [|fuel]; [simpl in Hfuel; lia|]).
  - exists c. simpl. split_and!; [done|by destruct c|].
    by rewrite (left_id_L ∅ (∪)).
  - destruct Hl as [Hp Hl]. assert ((length l < fuel)%nat) by (simpl in Hfuel; lia).
    cbn [closeAllLoop hd_or]. do 2 mstep.
    case_bool_decide as Hcl; cbn [negb].
    + mstep. erewrite (bind_ok (nextOf p)) by (apply nextOf_eq; exact Hp). cbn [next].
      destruct (IH c (Some p) fuel Hl) as (c' & Hrun & Hc' & HX'); [done|].
      exists c'. split_and!; try done. rewrite HX'.
      apply set_eq. intros x. rewrite !elem_of_union, elem_of_singleton.
      split; [tauto|]. intros [[->|?]|?]; tauto.
    + rewrite bind_eq. erewrite (bind_ok (pipeOf p)) by (apply pipeOf_eq; exact Hp).
      cbn [pipe]. change (smux.Close s c) with (Ok (tt, set_smuxClosed ({[s]} ∪ smuxClosed c) c)).
      cbv beta iota.
      set (c1 := set_smuxClosed ({[s]} ∪ smuxClosed c) c).
      erewrite (bind_ok (nextOf p)) by (apply nextOf_eq; exact Hp). cbn [next].
      destruct (IH c1 (Some p) fuel Hl) as (c' & Hrun & Hc' & HX'); [done|].
      exists c'. split_and!; try done.
      rewrite HX'. subst c1. simpl.
      apply set_eq. intros x. rewrite !elem_of_union, elem_of_singleton. tauto.
Qed.

(** The teardown walks the two lists only. Were the moderator's
    receive to return while the manager holds a session as [available],
    that session, popped from the idle list, would be on neither list
    and would stay open. *)
Lemma teardown_body_skips_available :
  ∃ c1 c2,
    prepare None (stateAfter [OpAddIdle 7%nat]) = Ok ((Some 7%nat, AtAvailable), c1) ∧
    idleNodes c1 = [] ∧ busyNodes c1 = [] ∧
    moderator c1 = Ok (tt, c2) ∧ dieClosed c2 = true ∧
    availableStep (Some 7%nat) ADie c2 = Ok ((Some 7%nat, Exited), c2) ∧
    7%nat ∉ smuxClosed c2.
Proof.
  eexists _, _. split_and!.
  - vm_compute. reflexivity.
  - vm_compute. reflexivity.
  - vm_compute. reflexivity.
  - vm_compute. reflexivity.
  - reflexivity.
  - reflexivity.
  - vm_compute. intros H. by apply (bool_decide_pack _) in H.
Qed.

(** * The keepalive scheduler *)

(** C6, at the ticks where the code fails it. On a tick at which more
    than [pingTimeout] has passed since the last read, [Serve] calls
    [Close], which panics: [toDie] is not offered and the scheduler does
    not return. *)
Theorem Serve_timeout_panics now pick c :
  u64_sub (u64 now) (lastRead c) > u64 pingTimeout →
  serveStep (SvTick now pick) c = Panic "closing".
Proof.
  intros Hlate. unfold serveStep. rewrite bind_gets.
  by rewrite bool_decide_eq_true_2.
Qed.

Lemma Serve_timeout_panics_witness :
  serveStep (SvTick (16 * Second) true) (set_toDie Parked (NewControl "none"))
  = Panic "closing".
Proof.
  apply Serve_timeout_panics. vm_compute. reflexivity.
Defined.

(** * The write loop *)

Lemma isKeepalive_types t :
  isKeepalive t = bool_decide (t = TypePing ∨ t = TypePong).
Proof.
  by destruct t.
Qed.

Lemma writeLoopIter_cases lastWrite idx now1 now2 werr c :
  dieClosed c = false →
  writeLoopIter lastWrite idx now1 now2 werr c
  = match writeChan c with
    | [] => Ok ((Blocked, (lastWrite, idx)), c)
    | m :: q =>
        if isKeepalive (mType m) && bool_decide (now1 < lastWrite + pingInterval `quot` 2)
        then Ok ((Continue, (lastWrite, idx)), set_writeChan q c)
        else match werr with
             | Some _ => Panic "closing"
             | None =>
                 Ok ((Continue,
                      (now2, if bool_decide (mType m = TypePipeReq) then idx + 1 else idx)),
                     set_ctlOut (ctlOut c ++ [m]) (set_writeChan q c))
             end
    end.
Proof.
  intros Hd. unfold writeLoopIter, IsClosed. rewrite bind_gets, Hd, bind_gets.
  destruct (writeChan c) as [|m q]; [done|]. rewrite bind_modify.
  destruct (_ && _); [done|]. by destruct werr.
Qed.

(** C9, as the code has it. Over the frames a live write loop takes,
    its writes succeeding, what goes on the wire is what the rule of
    the specification gives once the start of the loop stands for the
    previous write while nothing has been written: a frame is dropped
    exactly when it is a PING or a PONG and the clock is less than half
    of [pingInterval] past the previous write or, before the first
    write, past the start of the loop; every other frame, PIPE_REQ in
    particular, is written, in the order of the queue. A frame that is
    not dropped is never lost silently: when [WriteMsg] fails on it the
    loop calls [Close], which panics. *)
Theorem writeLoop_drops_only_early_keepalives start clock c :
  dieClosed c = false →
  (length clock ≤ length (writeChan c))%nat →
  (∃ lw idx,
     writeLoop start clock c
     = Ok ((Continue, (lw, idx)),
           set_ctlOut (ctlOut c ++ writtenBySpec (Some start) (writeChan c) clock)
             (set_writeChan (drop (length clock) (writeChan c)) c))) ∧
  (∀ m q lastWrite idx now1 now2 e,
     writeChan c = m :: q →
     (mType m ≠ TypePing ∧ mType m ≠ TypePong) ∨ pingInterval / 2 ≤ now1 - lastWrite →
     writeLoopIter lastWrite idx now1 now2 (Some e) c = Panic "closing").
Proof.
  intros Hd0 Hlen0. split.
  2:{ intros m q lastWrite idx now1 now2 e Hq Hkeep.
      rewrite writeLoopIter_cases, Hq by done.
      assert (isKeepalive (mType m) && bool_decide (now1 < lastWrite + pingInterval `quot` 2)
              = false) as ->; [|done].
      rewrite isKeepalive_types. destruct Hkeep as [[Hp1 Hp2]|Hlate].
      - rewrite bool_decide_eq_false_2; [done|]. by intros [?|?].
      - rewrite (bool_decide_eq_false_2 (now1 < _)); [apply andb_false_r|].
        revert Hlate. change (pingInterval `quot` 2) with 4000000000.
        change (pingInterval / 2) with 4000000000. lia. }
  revert Hd0 Hlen0. unfold writeLoop. generalize 0 as idx. revert c. generalize start as lastWrite.
  intros lastWrite c idx. revert lastWrite idx c.
  induction clock as [|[now1 now2] clock IH]; intros lastWrite idx c Hd Hlen.
  - exists lastWrite, idx. cbn. destruct (writeChan c) eqn:Hq;
      rewrite app_nil_r; destruct c; simpl in *; by subst.
  - destruct (writeChan c) as [|m q] eqn:Hq; [simpl in Hlen; lia|].
    cbn [writeLoopRun]. rewrite bind_eq.
    unfold writeLoopIter, IsClosed. rewrite bind_gets, Hd, bind_gets, Hq, bind_modify.
    cbn [writtenBySpec length drop]. rewrite isKeepalive_types.
    assert (bool_decide (now1 < lastWrite + pingInterval `quot` 2)
            = bool_decide (now1 - lastWrite < pingInterval / 2)) as ->.
    { change (pingInterval `quot` 2) with 4000000000.
      change (pingInterval / 2) with 4000000000.
      apply bool_decide_ext. lia. }
    destruct (bool_decide (mType m = TypePing ∨ mType m = TypePong)); cbn [andb].
    + destruct (bool_decide (now1 - lastWrite < pingInterval / 2)).
      * rewrite mret_eq. cbv beta iota.
        destruct (IH lastWrite idx (set_writeChan q c)) as (lw' & idx' & ->);
          [done|simpl in *; lia|].
        exists lw', idx'. by destruct c.
      * rewrite bind_modify, mret_eq. cbv beta iota.
        destruct (IH now2 (if bool_decide (mType m = TypePipeReq) then idx + 1 else idx)
                    (set_ctlOut (ctlOut (set_writeChan q c) ++ [m]) (set_writeChan q c)))
          as (lw' & idx' & ->); [done|simpl in *; lia|].
        exists lw', idx'. destruct c; simpl. by rewrite <- app_assoc.
    + rewrite bind_modify, mret_eq. cbv beta iota.
      destruct (IH now2 (if bool_decide (mType m = TypePipeReq) then idx + 1 else idx)
                  (set_ctlOut (ctlOut (set_writeChan q c) ++ [m]) (set_writeChan q c)))
        as (lw' & idx' & ->); [done|simpl in *; lia|].
      exists lw', idx'. destruct c; simpl. by rewrite <- app_assoc.
Qed.

Lemma writeLoop_drops_only_early_keepalives_witness :
  let c := set_writeChan [WriteReq TypePing BNil; WriteReq TypePipeReq BNil;
                          WriteReq TypePong BNil] (NewControl "none") in
  let clock := [(Second, Second); (2 * Second, 2 * Second); (7 * Second, 7 * Second)] in
  (∃ lw idx,
     writeLoop 0 clock c
     = Ok ((Continue, (lw, idx)),
           set_ctlOut (ctlOut c ++ writtenBySpec (Some 0) (writeChan c) clock)
             (set_writeChan (drop (length clock) (writeChan c)) c))) ∧
  (∀ m q lastWrite idx now1 now2 e,
     writeChan c = m :: q →
     (mType m ≠ TypePing ∧ mType m ≠ TypePong) ∨ pingInterval / 2 ≤ now1 - lastWrite →
     writeLoopIter lastWrite idx now1 now2 (Some e) c = Panic "closing").
Proof.
  intros c clock.
  apply (writeLoop_drops_only_early_keepalives 0 clock c).
  - reflexivity.
  - vm_compute. lia.
Defined.

(** C9, as the specification words it, fails at the start of the loop:
    a PING taken one second after the loop started is dropped although
    nothing has been written before it. *)
Lemma writeLoop_start_counterexample :
  ¬ (∀ start clock c,
       dieClosed c = false →
       (length clock ≤ length (writeChan c))%nat →
       ∃ lw idx,
         writeLoop start clock c
         = Ok ((Continue, (lw, idx)),
               set_ctlOut (ctlOut c ++ writtenBySpec None (writeChan c) clock)
                 (set_writeChan (drop (length clock) (writeChan c)) c))).
Proof.
  intros H.
  destruct (H 0 [(Second, Second)]
              (set_writeChan [WriteReq TypePing BNil] (NewControl "none")))
    as (lw & idx & Hrun); [reflexivity|simpl; lia|].
  vm_compute in Hrun. discriminate.
Qed.

(** * The connection handler *)

Lemma putPipe_cases p mgr pick c :
  putPipe p mgr pick c
  = if dieClosed c then Ok (PutClosed, set_smuxClosed ({[p]} ∪ smuxClosed c) c)
    else if mgr then Ok (PutDelivered, c) else Ok (PutBlocked, c).
Proof.
  unfold putPipe. rewrite bind_gets. by destruct (dieClosed c), mgr, pick.
Qed.

Lemma handOver_cases p m c :
  handOver p m c
  = if dieClosed c then Ok ((PutClosed, m), set_smuxClosed ({[p]} ∪ smuxClosed c) c)
    else match m.2 with
         | AtWait => Ok ((PutDelivered, (None, AtWaitGot p)), c)
         | AtAvailable => Ok ((PutDelivered, (m.1, AtAvailGot p)), c)
         | _ => Ok ((PutBlocked, m), c)
         end.
Proof.
  unfold handOver. rewrite bind_eq, putPipe_cases.
  destruct (dieClosed c); [done|]. by destruct m as [av []].
Qed.

(** The body of the manager's [pipeAdd] case puts a live session on one
    of the lists or takes it as [available]. *)
Lemma got_pooled av pt p c li lb :
  inv c li lb → p ∉ smuxClosed c → pt = AtWaitGot p ∨ pt = AtAvailGot p →
  ∃ r c', mgrStep av pt MRun c = Ok (r, c') ∧ pooled c' r p.
Proof.
  intros [Hrep Hcnt] Hlive Hpt.
  destruct (rep_views _ _ _ Hrep) as (_ & _ & His & Hbs).
  destruct Hpt as [-> | ->]; cbn [mgrStep]; unfold waitGot, availGot;
    rewrite bind_IsClosed, bool_decide_eq_false_2 by done.
  - rewrite bind_NumStreams. case_bool_decide.
    + eexists _, _. split; [reflexivity|]. right. by right.
    + destruct (addBusyPipe_spec c li lb p Hrep) as (c' & np & Hrun & Hrep' & _).
      erewrite bind_ok by exact Hrun. eexists _, _. split; [reflexivity|].
      destruct (rep_views _ _ _ Hrep') as (_ & _ & _ & Hbs').
      right. left. rewrite Hbs'. simpl. apply elem_of_cons. by left.
  - rewrite bind_eq, bind_NumStreams. case_bool_decide.
    + destruct (addIdlePipe_spec c li lb p Hrep) as (c' & np & Hrun & Hrep' & _).
      rewrite Hrun. eexists _, _. split; [reflexivity|].
      destruct (rep_views _ _ _ Hrep') as (_ & _ & His' & _).
      left. rewrite His'. simpl. apply elem_of_cons. by left.
    + destruct (addBusyPipe_spec c li lb p Hrep) as (c' & np & Hrun & Hrep' & _).
      rewrite Hrun. eexists _, _. split; [reflexivity|].
      destruct (rep_views _ _ _ Hrep') as (_ & _ & _ & Hbs').
      right. left. rewrite Hbs'. simpl. apply elem_of_cons. by left.
Qed.

(** C8. Once [getPipe] has returned a session, the handler gives it
    back with [putPipe] right after [OpenStream], whether that succeeded
    or not, and never asks the Control to close: it does not panic and
    leaves [die] and [toDie] alone. What [putPipe] makes of the session
    is in the state before anything else is done: with the manager
    parked at a receive on [pipeAdd] the manager has it, and the body of
    its case puts it, if live, back in the pool; with [die] closed the
    session is closed; otherwise the handler stays inside [putPipe], the
    connection open and nothing spliced. Once [putPipe] has returned,
    the handler splices exactly when [OpenStream] had succeeded for the
    tunnel's local address, and returns with the stream and the
    accepted connection closed, the Control untouched. *)
Theorem handleConn_returns_pipe t p opened m c :
  ∃ pt st m' c',
    handleConn t (Some p) opened m c = Ok ((pt, st, m'), c') ∧
    toDie c' = toDie c ∧ dieClosed c' = dieClosed c ∧
    (dieClosed c = true →
       pt = HReturned ∧ m' = m ∧ c' = set_smuxClosed ({[p]} ∪ smuxClosed c) c) ∧
    (dieClosed c = false → receives m.2 = true →
       pt = HReturned ∧ c' = c ∧
       m' = match m.2 with
            | AtWait => (None, AtWaitGot p)
            | _ => (m.1, AtAvailGot p)
            end) ∧
    (dieClosed c = false → receives m.2 = false →
       pt = HInPutPipe ∧ c' = c ∧ m' = m ∧ connClosed st = false ∧ spliced st = false) ∧
    (pt = HReturned →
       connClosed st = true ∧ streamOpen st = false ∧ spliced st = opened (LocalAddress t)) ∧
    (∀ c2 li lb, inv c2 li lb → p ∉ smuxClosed c2 →
       m'.2 = AtWaitGot p ∨ m'.2 = AtAvailGot p →
       ∃ r c3, mgrStep m'.1 m'.2 MRun c2 = Ok (r, c3) ∧ pooled c3 r p).
Proof.
  assert (∀ (m' : mgrSt) c2 li lb, inv c2 li lb → p ∉ smuxClosed c2 →
            m'.2 = AtWaitGot p ∨ m'.2 = AtAvailGot p →
            ∃ r c3, mgrStep m'.1 m'.2 MRun c2 = Ok (r, c3) ∧ pooled c3 r p) as Hpool.
  { intros m' c2 li lb Hinv Hlive Hpt. by eapply got_pooled. }
  unfold handleConn.
  destruct (opened (LocalAddress t)) eqn:Hop; rewrite bind_eq, handOver_cases;
    destruct (dieClosed c) eqn:Hd.
  - eexists _, _, _, _. split; [reflexivity|]. cbn. rewrite Hd.
    split_and!; try done. intros c2 li lb. apply Hpool.
  - destruct m as [av pt]. cbn [snd fst].
    destruct pt; cbn; eexists _, _, _, _; (split; [reflexivity|]);
      (split_and!; try done); intros c2 li lb; apply Hpool.
  - eexists _, _, _, _. split; [reflexivity|]. cbn. rewrite Hd.
    split_and!; try done. intros c2 li lb. apply Hpool.
  - destruct m as [av pt]. cbn [snd fst].
    destruct pt; cbn; eexists _, _, _, _; (split; [reflexivity|]);
      (split_and!; try done); intros c2 li lb; apply Hpool.
Qed.

(** * The goroutines together *)

Lemma recvLoopIter_frame mT now c :
  dieClosed c = false →
  (length (writeChan c) < writeChanCap)%nat ∨ mT ≠ TypePing →
  recvLoopIter (inr mT) now c
  = Ok (Continue,
        set_writeChan
          (writeChan c ++ if bool_decide (mT = TypePing) then [WriteReq TypePong BNil] else [])
          (set_lastRead (u64 now) c)).
Proof.
  intros Hd Hroom. unfold recvLoopIter, IsClosed. rewrite bind_gets, Hd, bind_modify.
  destruct mT; try (cbn; unfold set_writeChan, set_lastRead; simpl;
                    rewrite ?app_nil_r; reflexivity).
  destruct Hroom as [Hroom|?]; [|done].
  erewrite bind_ok by (by apply sendWriteChan_room). reflexivity.
Qed.

Lemma recvLoopIter_parked now c :
  dieClosed c = false → (writeChanCap ≤ length (writeChan c))%nat →
  recvLoopIter (inr TypePing) now c = Ok (Blocked, set_lastRead (u64 now) c).
Proof.
  intros Hd Hfull. unfold recvLoopIter, IsClosed. rewrite bind_gets, Hd, bind_modify.
  by erewrite bind_ok by (by apply sendWriteChan_full).
Qed.

Lemma takePipe_cases pick (m : mgrSt) c :
  dieClosed c = false →
  takePipe pick m c
  = match m.2 with
    | AtAvailable => Ok ((GetPipe m.1, (None, AtPrepare)), c)
    | _ => Ok ((GetBlocked, m), c)
    end.
Proof.
  intros Hd. unfold takePipe. rewrite bind_gets, Hd.
  destruct m as [av pt]. cbn [fst snd].
  unfold getPipe. rewrite bind_eq, bind_gets, Hd.
  by destruct pt, pick.
Qed.

Lemma serveStep_cases now pick c :
  dieClosed c = false →
  serveStep (SvTick now pick) c
  = if bool_decide (u64_sub (u64 now) (lastRead c) > u64 pingTimeout) then Panic "closing"
    else if bool_decide (length (writeChan c) < writeChanCap)%nat
         then Ok (Continue, set_writeChan (writeChan c ++ [WriteReq TypePing BNil]) c)
         else Ok (Blocked, c).
Proof.
  intros Hd. unfold serveStep. rewrite bind_gets.
  case_bool_decide; [done|]. rewrite !bind_gets, Hd.
  case_bool_decide as Hroom; cbn [select2].
  - by erewrite bind_ok by (by apply sendWriteChan_room).
  - done.
Qed.

Lemma moderatorRun_parked c :
  toDie c ≠ Handed → moderatorRun c = Ok (Blocked, set_toDie Parked c).
Proof.
  intros Htd. unfold moderatorRun. rewrite bind_gets. by destruct (toDie c).
Qed.

Lemma untorn_refl c : dieClosed c = false → toDie c ≠ Handed → untorn c c.
Proof. intros Hd Htd. split_and!; try done. intros s. by left. Qed.

Lemma untorn_trans c1 c2 c3 : untorn c1 c2 → untorn c2 c3 → untorn c1 c3.
Proof.
  intros (_ & _ & Hc1 & Hl1 & Hs1 & Hz1) (Hd & Htd & Hc2 & Hl2 & Hs2 & Hz2).
  split_and!; try congruence.
  intros s [Hs|Hs]%Hz2; [by apply Hz1|]. right. by rewrite Hs1 in Hs.
Qed.

Lemma mgrPost_untorn c c' :
  dieClosed c = false → toDie c ≠ Handed → mgrPost c c' → untorn c c'.
Proof.
  intros Hd Htd Hpost. pose proof Hpost as (_ & Hfr & _ & _ & _ & Hz).
  split_and!; try done.
  - by rewrite (mgrPost_dieClosed _ _ Hpost).
  - by rewrite (mgrPost_toDie _ _ Hpost).
  - by rewrite Hfr.
  - by rewrite Hfr.
  - by rewrite Hfr.
Qed.

(** A step that touches neither the pool, nor the sessions, nor the
    close path. *)
Lemma quiet_step c c' li lb (m' : mgrSt) :
  inv c li lb → mgrOk c m' → dieClosed c = false →
  mem c' = mem c → idlePipes c' = idlePipes c → busyPipes c' = busyPipes c →
  idleCount c' = idleCount c →
  smuxClosed c' = smuxClosed c → smuxStreams c' = smuxStreams c →
  dieClosed c' = dieClosed c → toDie c' ≠ Handed →
  ctlConnClosed c' = ctlConnClosed c → lisClosed c' = lisClosed c →
  sysPost c (Ok (m', c')).
Proof.
  intros Hinv Hok Hd Hm Hi Hb Hc HX HS Hd' Htd Hcc Hl. split_and!.
  - exists li, lb. by apply (inv_frame c).
  - unfold mgrOk in *. destruct m'.2; try done. destruct idle; [|done]. by rewrite Hm.
  - split_and!; try congruence. intros s. rewrite HX. by left.
Qed.

Lemma sysStep_post op m c li lb :
  inv c li lb → mgrOk c m → dieClosed c = false → toDie c ≠ Handed →
  sysPost c (sysStep op m c).
Proof.
  intros Hinv Hok Hd Htd.
  assert (∀ m' : mgrSt, mgrOk c m' → sysPost c (Ok (m', c))) as Hsame.
  { intros m' Hok'. by eapply quiet_step. }
  destruct op as [ev|p|pick|rd now|lw idx now1 now2 werr|ev| |]; cbn [sysStep].
  - destruct m as [av pt]. cbn [fst snd].
    destruct (mgrStep_post av pt ev c li lb Hinv Hok) as (r & c' & Hrun & Hpost & Hok').
    rewrite Hrun. split_and!; [by eapply mgrPost_inv|done|by apply mgrPost_untorn].
  - rewrite bind_eq, handOver_cases, Hd. destruct m as [av pt].
    destruct pt; by apply Hsame.
  - rewrite bind_eq, takePipe_cases by done. destruct m as [av pt].
    destruct pt; by apply Hsame.
  - rewrite bind_eq. destruct rd as [e|mT].
    + unfold recvLoopIter, IsClosed. by rewrite bind_gets, Hd.
    + destruct (decide (mT = TypePing ∧ (writeChanCap ≤ length (writeChan c))%nat))
        as [[-> Hfull]|Hno].
      * rewrite recvLoopIter_parked by done. cbn. by eapply quiet_step.
      * rewrite recvLoopIter_frame; [|done|].
        -- cbn. by eapply quiet_step.
        -- destruct (decide (mT = TypePing)) as [->|?]; [left|by right].
           apply Nat.nle_gt. intros ?. by apply Hno.
  - rewrite bind_eq, writeLoopIter_cases by done.
    destruct (writeChan c) as [|w q]; [by apply Hsame|].
    destruct (_ && _); [cbn; by eapply quiet_step|].
    destruct werr; [done|]. cbn. by eapply quiet_step.
  - rewrite bind_eq. destruct ev as [now pick|]; [|by apply Hsame].
    rewrite serveStep_cases by done.
    case_bool_decide; [done|]. case_bool_decide; [|by apply Hsame].
    cbn. by eapply quiet_step.
  - done.
  - rewrite bind_eq, moderatorRun_parked by done. cbn. by eapply quiet_step.
Qed.

Lemma sysRun_post ops : ∀ m c li lb,
  inv c li lb → mgrOk c m → dieClosed c = false → toDie c ≠ Handed →
  sysPost c (sysRun ops m c) ∧
  (∀ r, sysRun ops m c = Ok r → SClose ∉ ops).
Proof.
  induction ops as [|op ops IH]; intros m c li lb Hinv Hok Hd Htd.
  - split.
    + split_and!; [by exists li, lb|done|by apply untorn_refl].
    + intros r _ Hin. by apply elem_of_nil in Hin.
  - pose proof (sysStep_post op m c li lb Hinv Hok Hd Htd) as Hstep.
    cbn [sysRun]. rewrite bind_eq.
    destruct (sysStep op m c) as [[m1 c1]|msg|] eqn:Hrun; [|done|done].
    destruct Hstep as ((li1 & lb1 & Hinv1) & Hok1 & Hun1).
    pose proof Hun1 as (Hd1 & Htd1 & _).
    destruct (IH m1 c1 li1 lb1 Hinv1 Hok1 Hd1 Htd1) as [Hpost Hno].
    split.
    + destruct (sysRun ops m1 c1) as [[m2 c2]|msg|]; [|done|done].
      destruct Hpost as (Hinv2 & Hok2 & Hun2).
      split_and!; [done|done|by eapply untorn_trans].
    + intros r Hr [<-|Hin]%elem_of_cons; [discriminate Hrun|]. by eapply Hno.
Qed.

(** C3, where the code fails it. From a well-formed pool with [die]
    open and nothing handed over on [toDie], take any run of the
    Control's goroutines: moves of the manager, calls of [putPipe] and
    [getPipe], turns of the three loops, calls of [Close] and the
    moderator at its receive. A run that contains a call of [Close]
    (or a loop's call of it, on a read error, a write error or a
    keepalive timeout) ends in the panic of that call. Every other run
    goes on with [die] still open and the moderator still parked at its
    receive: the teardown has not started, the control connection and
    the listeners are as they were, and the only sessions closed are
    ones without streams, which [clean] closed. No close request ever
    reaches the moderator, so that a session of the pool that carries a
    stream is never closed. *)
Theorem close_request_starts_no_teardown ops m c li lb :
  inv c li lb → mgrOk c m → dieClosed c = false → toDie c ≠ Handed →
  match sysRun ops m c with
  | Ok (m', c') =>
      (SClose ∉ ops) ∧
      dieClosed c' = false ∧ moderatorRun c' = Ok (Blocked, set_toDie Parked c') ∧
      ctlConnClosed c' = ctlConnClosed c ∧ lisClosed c' = lisClosed c ∧
      ∀ s, s ∈ smuxClosed c' → s ∈ smuxClosed c ∨ smuxStreams c s = 0%nat
  | Panic msg => msg = "closing"
  | Diverge => False
  end.
Proof.
  intros Hinv Hok Hd Htd.
  destruct (sysRun_post ops m c li lb Hinv Hok Hd Htd) as [Hpost Hno].
  destruct (sysRun ops m c) as [[m' c']|msg|]; [|done|done].
  destruct Hpost as (_ & _ & Hd' & Htd' & Hcc & Hl & _ & Hz).
  split_and!; try done.
  - by eapply Hno.
  - by apply moderatorRun_parked.
Qed.

Lemma close_request_starts_no_teardown_witness :
  let c := stateAfter [OpAddIdle 7%nat; OpSessions ∅ (λ _, 1%nat)] in
  let ops := [SModerator; SMgr MRun; SGet true; SMgr MRun; SPut 7%nat; SMgr MRun;
              SServe (SvTick (16 * Second) true)] in
  match sysRun ops (None, AtPrepare) c with
  | Ok (m', c') =>
      (SClose ∉ ops) ∧
      dieClosed c' = false ∧ moderatorRun c' = Ok (Blocked, set_toDie Parked c') ∧
      ctlConnClosed c' = ctlConnClosed c ∧ lisClosed c' = lisClosed c ∧
      ∀ s, s ∈ smuxClosed c' → s ∈ smuxClosed c ∨ smuxStreams c s = 0%nat
  | Panic msg => msg = "closing"
  | Diverge => False
  end.
Proof.
  intros c ops.
  apply (close_request_starts_no_teardown ops (None, AtPrepare) c [(0%nat, 7%nat)] []).
  - split; [|reflexivity].
    split; try (vm_compute; repeat split; reflexivity).
    apply (bool_decide_unpack _). vm_compute. reflexivity.
  - exact I.
  - reflexivity.
  - discriminate.
Defined.

(** * The handshakes *)

Lemma keyExchange_cases cr io c :
  match keyExchange cr io c with
  | Ok (inl _, c') => kxFailure cr io ∧ ClientID c' = ClientID c
  | Ok (inr _, c') => ¬ kxFailure cr io ∧ ClientID c' = ClientID c
  | Panic _ =>
      match ioRead io with
      | inr (TypeClientKeyExchange, BCipherKeyExchange _) => False
      | inr (TypeClientKeyExchange, _) => True
      | _ => False
      end
  | Diverge => False
  end.
Proof.
  unfold keyExchange, kxFailure.
  destruct (ioRead io) as [e|[mT body]]; [done|].
  case_bool_decide as HmT.
  { split; [by left|done]. }
  subst mT.
  destruct body as [|ck| |]; try done.
  destruct (GenerateKeyExChange cr) as [[priv|] [keyMsg|]]; try (split; [by right|done]).
  destruct (ProcessKeyExchange cr priv ck) as [e|pms]; [split; [by right|done]|].
  rewrite bind_modify.
  destruct (ioWriteSKE io) as [e|].
  - split; [by right|done].
  - rewrite bind_modify. split; [|done]. intros [?|?]; done.
Qed.

(** C7. [ServerHandShake] puts the Control into the registry, under the
    client id it has just generated, exactly when it returns [nil]. When
    it returns an error, which it does on each of its failure paths (the
    read, a message of another type, the key exchange, the write of
    SERVER_KEY_EXCHANGE or of CLIENT_ID), the registry is as it was; it
    neither registers nor returns when the body of the message is not a
    key exchange. *)
Theorem ServerHandShake_registers_on_success cr io a sv c :
  controls sv !! a = Some c →
  match ServerHandShake cr io a sv with
  | Ok (None, sv') =>
      ¬ hsFailure c cr io ∧ ControlMap sv' = <[GenUUID cr := a]> (ControlMap sv)
  | Ok (Some _, sv') => hsFailure c cr io ∧ ControlMap sv' = ControlMap sv
  | Panic _ => hsBadBody c io
  | Diverge => False
  end.
Proof.
  intros Hc. unfold ServerHandShake, hsFailure, hsBadBody. rewrite Hc.
  case_bool_decide as Hmode.
  - pose proof (keyExchange_cases cr io c) as Hkx.
    destruct (keyExchange cr io c) as [[[e|[]] c1]|msg|]; [| |by split|done].
    + destruct Hkx as [Hkx _]. split; [by left|done].
    + destruct Hkx as [Hkx _]. unfold GenerateClientId. rewrite bind_modify.
      unfold gets. destruct (ioWriteCID io) as [e|]; simpl.
      * split; [by right|done].
      * split; [|done]. intros [[_ ?]|?]; done.
  - cbn. unfold GenerateClientId. rewrite bind_modify.
    unfold gets. destruct (ioWriteCID io) as [e|]; simpl.
    + split; [by right|done].
    + split; [|done]. intros [[? _]|?]; done.
Qed.

Lemma ServerHandShake_registers_on_success_witness :
  let cr := mkCrypto (Some [1], Some [2]) (λ _ _, inr [3]) 42%N (λ _ _ _, []) (λ _, None) in
  let io := mkHsIO (inr (TypeClientKeyExchange, BCipherKeyExchange [9])) None None in
  let sv := mkServer {[ 0%nat := NewControl "aes" ]} ∅ in
  match ServerHandShake cr io 0%nat sv with
  | Ok (None, sv') =>
      ¬ hsFailure (NewControl "aes") cr io ∧ ControlMap sv' = <[42%N := 0%nat]> (ControlMap sv)
  | Ok (Some _, sv') => hsFailure (NewControl "aes") cr io ∧ ControlMap sv' = ControlMap sv
  | Panic _ => hsBadBody (NewControl "aes") io
  | Diverge => False
  end.
Proof.
  intros cr io sv.
  apply (ServerHandShake_registers_on_success cr io 0%nat sv (NewControl "aes")).
  reflexivity.
Defined.

(** C10. [PipeHandShake] takes the Control from the registry without
    checking that it is there: for a hello whose client id is not
    registered it dereferences [nil] and panics, where an error was to
    be returned. *)
Theorem PipeHandShake_unregistered_panics cr phs smuxErr sess mgr pick sv :
  ControlMap sv !! helloClientID phs = None →
  PipeHandShake cr phs smuxErr sess mgr pick sv
  = Panic "invalid memory address or nil pointer dereference".
Proof. intros Hnone. unfold PipeHandShake. by rewrite Hnone. Qed.

Lemma PipeHandShake_unregistered_panics_witness :
  PipeHandShake (mkCrypto (None, None) (λ _ _, inl "") 0%N (λ _ _ _, []) (λ _, None))
    (mkHello 5%N []) None 1%nat true true (mkServer ∅ ∅)
  = Panic "invalid memory address or nil pointer dereference".
Proof.
  apply PipeHandShake_unregistered_panics. reflexivity.
Defined.

(** * Further properties of the pool *)

Lemma head_tail_eq {A} (l : list A) x : head l = Some x → l = x :: tail l.
Proof. destruct l; [done|]. by intros [= ->]. Qed.

(** X1. On a well-formed pool [getIdleFast] returns: [nil] exactly when
    every idle session is closed, the idle list being empty afterwards;
    otherwise the first idle cell whose session is live, the cells
    before it (all closed) and the cell itself having left the list.
    The busy list and the sessions are untouched and [idleCount] follows. *)
Theorem getIdleFast_first_live c li lb :
  inv c li lb →
  ∃ r c', getIdleFast c = Ok (r, c') ∧
    busySessions c' = busySessions c ∧ smuxClosed c' = smuxClosed c ∧
    idleCount c' = Z.of_nat (length (idleSessions c')) ∧
    match r with
    | None => idleSessions c' = [] ∧ ∀ s, s ∈ idleSessions c → s ∈ smuxClosed c
    | Some p =>
        ∃ dead, idleSessions c = dead ++ pipeAt c' p :: idleSessions c' ∧
                (∀ s, s ∈ dead → s ∈ smuxClosed c) ∧ pipeAt c' p ∉ smuxClosed c
    end.
Proof.
  intros Hinv.
  destruct (getIdleFast_spec c li lb Hinv) as (c' & Hrun & [Hrep' Hcnt'] & HX & Hfr & Hpipe).
  destruct (rep_views _ _ _ (proj1 Hinv)) as (_ & _ & His & Hbs).
  destruct (rep_views _ _ _ Hrep') as (_ & _ & His' & Hbs').
  destruct (skipClosed_split (smuxClosed c) li) as (dead & Hli & Hdead & Hhd).
  eexists _, c'. split; [exact Hrun|].
  rewrite His, His', Hbs, Hbs', length_fmap. split_and!; try done.
  destruct (head (skipClosed (smuxClosed c) li)) as [[p s]|] eqn:Hh; simpl.
  - destruct (pipeOf_pipeAt c' p s (Hpipe p s eq_refl)) as [_ ->].
    exists dead.*2. split_and!.
    + rewrite Hli at 1. rewrite fmap_app. f_equal.
      by rewrite (head_tail_eq _ _ Hh) at 1.
    + intros s' ([p2 s2] & -> & Hin)%list_elem_of_fmap. by apply Hdead.
    + by apply (Hhd (p, s)).
  - destruct (skipClosed (smuxClosed c) li) eqn:Hsk; [|done].
    rewrite app_nil_r in Hli. subst dead. split; [done|].
    intros s' ([p2 s2] & -> & Hin)%list_elem_of_fmap. by apply Hdead.
Qed.

Lemma getIdleFast_first_live_witness :
  ∃ r c', getIdleFast (stateAfter [OpAddIdle 7%nat; OpAddIdle 9%nat]) = Ok (r, c') ∧
    busySessions c' = busySessions (stateAfter [OpAddIdle 7%nat; OpAddIdle 9%nat]) ∧
    smuxClosed c' = smuxClosed (stateAfter [OpAddIdle 7%nat; OpAddIdle 9%nat]) ∧
    idleCount c' = Z.of_nat (length (idleSessions c')) ∧
    match r with
    | None => idleSessions c' = [] ∧
              ∀ s, s ∈ idleSessions (stateAfter [OpAddIdle 7%nat; OpAddIdle 9%nat]) →
                   s ∈ smuxClosed (stateAfter [OpAddIdle 7%nat; OpAddIdle 9%nat])
    | Some p =>
        ∃ dead, idleSessions (stateAfter [OpAddIdle 7%nat; OpAddIdle 9%nat])
                = dead ++ pipeAt c' p :: idleSessions c' ∧
                (∀ s, s ∈ dead → s ∈ smuxClosed (stateAfter [OpAddIdle 7%nat; OpAddIdle 9%nat])) ∧
                pipeAt c' p ∉ smuxClosed (stateAfter [OpAddIdle 7%nat; OpAddIdle 9%nat])
    end.
Proof.
  apply (getIdleFast_first_live (stateAfter [OpAddIdle 7%nat; OpAddIdle 9%nat])
           [(1%nat, 9%nat); (0%nat, 7%nat)] []).
  split; [|reflexivity].
  split; try (vm_compute; repeat split; reflexivity).
  apply (bool_decide_unpack _). vm_compute. reflexivity.
Defined.

(** X2. [addIdlePipe] puts the session in a new cell at the head of the
    idle list and counts it; [addBusyPipe] does the same on the busy
    list and leaves the counter alone. Neither looks whether the session
    is in the pool already, and neither touches the other list. *)
Theorem add_pipe_pushes_at_head c li lb s :
  inv c li lb →
  (∃ c', addIdlePipe s c = Ok (tt, c') ∧
         idleSessions c' = s :: idleSessions c ∧ busySessions c' = busySessions c ∧
         idleCount c' = idleCount c + 1 ∧
         ∃ p, mem c !! p = None ∧ idleNodes c' = p :: idleNodes c) ∧
  (∃ c', addBusyPipe s c = Ok (tt, c') ∧
         busySessions c' = s :: busySessions c ∧ idleSessions c' = idleSessions c ∧
         idleCount c' = idleCount c ∧
         ∃ p, mem c !! p = None ∧ busyNodes c' = p :: busyNodes c).
Proof.
  intros [Hrep Hcnt].
  destruct (rep_views _ _ _ Hrep) as (Hin & Hbn & His & Hbs).
  split.
  - destruct (addIdlePipe_spec c li lb s Hrep) as (c' & np & Hrun & Hrep' & Hnp & Hcnt' & _).
    destruct (rep_views _ _ _ Hrep') as (Hin' & Hbn' & His' & Hbs').
    exists c'. rewrite His', Hbs', His, Hbs, Hin', Hin. split_and!; try done.
    by exists np.
  - destruct (addBusyPipe_spec c li lb s Hrep) as (c' & np & Hrun & Hrep' & Hnp & Hcnt' & _).
    destruct (rep_views _ _ _ Hrep') as (Hin' & Hbn' & His' & Hbs').
    exists c'. rewrite His', Hbs', His, Hbs, Hbn', Hbn. split_and!; try done.
    by exists np.
Qed.

Lemma add_pipe_pushes_at_head_witness :
  (∃ c', addIdlePipe 5%nat (NewControl "none") = Ok (tt, c') ∧
         idleSessions c' = 5%nat :: idleSessions (NewControl "none") ∧
         busySessions c' = busySessions (NewControl "none") ∧
         idleCount c' = idleCount (NewControl "none") + 1 ∧
         ∃ p, mem (NewControl "none") !! p = None ∧ idleNodes c' = p :: idleNodes (NewControl "none")) ∧
  (∃ c', addBusyPipe 5%nat (NewControl "none") = Ok (tt, c') ∧
         busySessions c' = 5%nat :: busySessions (NewControl "none") ∧
         idleSessions c' = idleSessions (NewControl "none") ∧
         idleCount c' = idleCount (NewControl "none") ∧
         ∃ p, mem (NewControl "none") !! p = None ∧ busyNodes c' = p :: busyNodes (NewControl "none")).
Proof.
  apply (add_pipe_pushes_at_head (NewControl "none") [] [] 5%nat).
  split; [|reflexivity]. split; try reflexivity. simpl. constructor.
Defined.

Lemma fmap_fst_split (li : list (ptr * session)) l1 p l2 :
  li.*1 = l1 ++ p :: l2 →
  ∃ a s b, li = a ++ (p, s) :: b ∧ a.*1 = l1 ∧ b.*1 = l2.
Proof.
  intros (a & b' & -> & Hb & ->)%fmap_app_inv.
  symmetry in Hb. apply fmap_cons_inv in Hb as ([p' s] & b & -> & -> & ->).
  by exists a, s, b.
Qed.

Lemma hd_or_head (b : list (ptr * session)) : hd_or None b = head b.*1.
Proof. by destruct b as [|[? ?] ?]. Qed.

(** X3. [removeIdleNode], given a cell of the idle list, unlinks that
    cell and no other: the cells before and after it stay in order, the
    busy list is untouched and [idleCount] drops by one. The unlinked
    cell keeps its own [next], which is what lets the walks of [clean]
    and [getIdleFast] go on from it. *)
Theorem removeIdleNode_unlinks_one c li lb l1 p l2 :
  inv c li lb →
  idleNodes c = l1 ++ p :: l2 →
  ∃ c', removeIdleNode p c = Ok (tt, c') ∧
        idleNodes c' = l1 ++ l2 ∧ busyNodes c' = busyNodes c ∧
        idleCount c' = idleCount c - 1 ∧ mem c' !! p = mem c !! p ∧
        next <$> mem c' !! p = Some (head l2).
Proof.
  intros [Hrep Hcnt] Hl.
  destruct (rep_views _ _ _ Hrep) as (Hin & Hbn & _ & _).
  rewrite Hin in Hl. apply fmap_fst_split in Hl as (a & s & b & -> & <- & <-).
  destruct (removeIdleNode_spec c a p s b lb Hrep) as (c' & Hrun & Hrep' & Hcnt' & Hp & _).
  destruct (rep_views _ _ _ Hrep') as (Hin' & Hbn' & _ & _).
  exists c'. rewrite Hin', Hbn', Hbn, fmap_app. split_and!; try done.
  rewrite Hp, (rep_mid_idle _ _ _ _ _ _ Hrep). simpl. by rewrite hd_or_head.
Qed.

Lemma removeIdleNode_unlinks_one_witness :
  ∃ c', removeIdleNode 0%nat (stateAfter [OpAddIdle 7%nat; OpAddIdle 9%nat; OpAddBusy 8%nat])
        = Ok (tt, c') ∧
        idleNodes c' = [1%nat] ++ [] ∧
        busyNodes c' = busyNodes (stateAfter [OpAddIdle 7%nat; OpAddIdle 9%nat; OpAddBusy 8%nat]) ∧
        idleCount c' = idleCount (stateAfter [OpAddIdle 7%nat; OpAddIdle 9%nat; OpAddBusy 8%nat]) - 1 ∧
        mem c' !! 0%nat = mem (stateAfter [OpAddIdle 7%nat; OpAddIdle 9%nat; OpAddBusy 8%nat]) !! 0%nat ∧
        next <$> mem c' !! 0%nat = Some (head []).
Proof.
  apply (removeIdleNode_unlinks_one
           (stateAfter [OpAddIdle 7%nat; OpAddIdle 9%nat; OpAddBusy 8%nat])
           [(1%nat, 9%nat); (0%nat, 7%nat)] [(2%nat, 8%nat)] [1%nat] 0%nat []).
  - split; [|reflexivity].
    split; try (vm_compute; repeat split; reflexivity).
    apply (bool_decide_unpack _). vm_compute. reflexivity.
  - vm_compute. reflexivity.
Defined.

(** X4. [removeBusyNode], given a cell of the busy list, unlinks that
    cell and no other, and leaves the idle list and [idleCount] as they
    are; the unlinked cell keeps its own [next]. *)
Theorem removeBusyNode_unlinks_one c li lb l1 p l2 :
  inv c li lb →
  busyNodes c = l1 ++ p :: l2 →
  ∃ c', removeBusyNode p c = Ok (tt, c') ∧
        busyNodes c' = l1 ++ l2 ∧ idleNodes c' = idleNodes c ∧
        idleCount c' = idleCount c ∧ mem c' !! p = mem c !! p ∧
        next <$> mem c' !! p = Some (head l2).
Proof.
  intros [Hrep Hcnt] Hl.
  destruct (rep_views _ _ _ Hrep) as (Hin & Hbn & _ & _).
  rewrite Hbn in Hl. apply fmap_fst_split in Hl as (a & s & b & -> & <- & <-).
  destruct (removeBusyNode_spec c li a p s b Hrep) as (c' & Hrun & Hrep' & Hcnt' & Hp & _).
  destruct (rep_views _ _ _ Hrep') as (Hin' & Hbn' & _ & _).
  exists c'. rewrite Hin', Hbn', Hin, fmap_app. split_and!; try done.
  rewrite Hp, (rep_mid_busy _ _ _ _ _ _ Hrep). simpl. by rewrite hd_or_head.
Qed.

Lemma removeBusyNode_unlinks_one_witness :
  ∃ c', removeBusyNode 1%nat (stateAfter [OpAddIdle 7%nat; OpAddBusy 9%nat; OpAddBusy 8%nat])
        = Ok (tt, c') ∧
        busyNodes c' = [2%nat] ++ [] ∧
        idleNodes c' = idleNodes (stateAfter [OpAddIdle 7%nat; OpAddBusy 9%nat; OpAddBusy 8%nat]) ∧
        idleCount c' = idleCount (stateAfter [OpAddIdle 7%nat; OpAddBusy 9%nat; OpAddBusy 8%nat]) ∧
        mem c' !! 1%nat = mem (stateAfter [OpAddIdle 7%nat; OpAddBusy 9%nat; OpAddBusy 8%nat]) !! 1%nat ∧
        next <$> mem c' !! 1%nat = Some (head []).
Proof.
  apply (removeBusyNode_unlinks_one
           (stateAfter [OpAddIdle 7%nat; OpAddBusy 9%nat; OpAddBusy 8%nat])
           [(0%nat, 7%nat)] [(2%nat, 8%nat); (1%nat, 9%nat)] [2%nat] 1%nat []).
  - split; [|reflexivity].
    split; try (vm_compute; repeat split; reflexivity).
    apply (bool_decide_unpack _). vm_compute. reflexivity.
  - vm_compute. reflexivity.
Defined.

(** * Further properties of [clean] and of the teardown *)

Lemma filter_none {A} (f : A → bool) (l : list A) :
  (∀ x, x ∈ l → f x = false) → List.filter f l = [].
Proof.
  induction l as [|x l IH]; intros Hall; [done|]. simpl.
  rewrite Hall by left. apply IH. intros ? ?. apply Hall. by right.
Qed.

Lemma scanIdle_fix streams X cnt l :
  keptOk streams X cnt l → scanIdle streams X cnt l = (l, X, cnt).
Proof.
  induction l as [|[i s] l IH]; intros [Hlive Hbusy]; cbn [scanIdle]; [done|].
  rewrite bool_decide_eq_false_2 by (apply (Hlive (i, s)); left).
  assert (bool_decide (Z.of_nat (streams s) = 0) && bool_decide (cnt > maxIdlePipes) = false)
    as ->.
  { destruct (decide (cnt > maxIdlePipes)) as [Hgt|Hle].
    - rewrite bool_decide_eq_false_2; [done|]. apply (Hbusy Hgt (i, s)). left.
    - rewrite (bool_decide_eq_false_2 (cnt > maxIdlePipes)) by done. apply andb_false_r. }
  rewrite IH; [done|]. split.
  - intros ps Hps. apply Hlive. by right.
  - intros Hgt ps Hps. apply Hbusy; [done|by right].
Qed.

(** X5. [clean] as a function of the lists. The busy list keeps, in
    order, exactly the sessions that are live and saturated; the idle
    list afterwards is taken, in order, from the sessions moved over
    (the live unsaturated busy ones, last moved first) followed by the
    old idle ones: [clean] brings no session into the pool and moves
    none to the busy list. It only ever closes a session of the pool
    that has no stream, and reopens none. *)
Theorem clean_refines_lists c li lb :
  inv c li lb →
  ∃ c', clean c = Ok (tt, c') ∧
    busySessions c' = List.filter (isBusy c) (busySessions c) ∧
    idleSessions c' `sublist_of`
      reverse (List.filter (isIdle c) (busySessions c)) ++ idleSessions c ∧
    smuxClosed c ⊆ smuxClosed c' ∧
    (∀ s, s ∈ smuxClosed c' →
          s ∈ smuxClosed c ∨
          (smuxStreams c s = 0%nat ∧ (s ∈ idleSessions c ∨ s ∈ busySessions c))) ∧
    smuxStreams c' = smuxStreams c.
Proof.
  intros Hinv.
  destruct (clean_spec c li lb Hinv) as (c' & new & Hrun & Hnew & Hrep' & HX' & Hcnt' & Hfr).
  destruct (rep_views _ _ _ (proj1 Hinv)) as (_ & _ & His & Hbs).
  destruct (rep_views _ _ _ Hrep') as (_ & _ & His' & Hbs').
  assert (new.*2 = reverse (List.filter (isIdle c) lb.*2)) as Hnew'.
  { rewrite Hnew. f_equal. apply (filter_fmap_snd (isIdle c)). }
  exists c'. rewrite His', Hbs', His, Hbs, HX'. split_and!; try done.
  - apply (filter_fmap_snd (isBusy c)).
  - rewrite <- Hnew', <- fmap_app. apply fmap_sublist, scanIdle_sublist.
  - apply scanIdle_mono.
  - intros s [?|[Hz Hin]]%scanIdle_closed; [by left|right]. split; [lia|].
    rewrite fmap_app, Hnew' in Hin.
    apply elem_of_app in Hin as [Hin|Hin]; [right|by left].
    rewrite elem_of_reverse in Hin. by apply elem_of_filter_bool in Hin as [? _].
  - apply (pool_frame_streams _ _ Hfr).
Qed.

Lemma clean_refines_lists_witness :
  ∃ c', clean (stateAfter [OpAddBusy 8%nat; OpAddIdle 7%nat]) = Ok (tt, c') ∧
    busySessions c' = List.filter (isBusy (stateAfter [OpAddBusy 8%nat; OpAddIdle 7%nat]))
                        (busySessions (stateAfter [OpAddBusy 8%nat; OpAddIdle 7%nat])) ∧
    idleSessions c' `sublist_of`
      reverse (List.filter (isIdle (stateAfter [OpAddBusy 8%nat; OpAddIdle 7%nat]))
                 (busySessions (stateAfter [OpAddBusy 8%nat; OpAddIdle 7%nat])))
      ++ idleSessions (stateAfter [OpAddBusy 8%nat; OpAddIdle 7%nat]) ∧
    smuxClosed (stateAfter [OpAddBusy 8%nat; OpAddIdle 7%nat]) ⊆ smuxClosed c' ∧
    (∀ s, s ∈ smuxClosed c' →
          s ∈ smuxClosed (stateAfter [OpAddBusy 8%nat; OpAddIdle 7%nat]) ∨
          (smuxStreams (stateAfter [OpAddBusy 8%nat; OpAddIdle 7%nat]) s = 0%nat ∧
           (s ∈ idleSessions (stateAfter [OpAddBusy 8%nat; OpAddIdle 7%nat]) ∨
            s ∈ busySessions (stateAfter [OpAddBusy 8%nat; OpAddIdle 7%nat])))) ∧
    smuxStreams c' = smuxStreams (stateAfter [OpAddBusy 8%nat; OpAddIdle 7%nat]).
Proof.
  apply (clean_refines_lists (stateAfter [OpAddBusy 8%nat; OpAddIdle 7%nat])
           [(1%nat, 7%nat)] [(0%nat, 8%nat)]).
  split; [|reflexivity].
  split; try (vm_compute; repeat split; reflexivity).
  apply (bool_decide_unpack _). vm_compute. reflexivity.
Defined.

(** X6. [clean] closes nothing while the idle inventory is within the
    cap: when the idle cells together with the busy cells about to be
    moved over are at most [maxIdlePipes], no session is closed. *)
Theorem clean_within_cap_closes_nothing c li lb :
  inv c li lb →
  Z.of_nat (length (idleSessions c)) +
    Z.of_nat (length (List.filter (isIdle c) (busySessions c))) ≤ maxIdlePipes →
  ∃ c', clean c = Ok (tt, c') ∧ smuxClosed c' = smuxClosed c.
Proof.
  intros Hinv Hcap.
  destruct (clean_spec c li lb Hinv) as (c' & new & Hrun & Hnew & Hrep' & HX' & Hcnt' & Hfr).
  destruct (rep_views _ _ _ (proj1 Hinv)) as (_ & _ & His & Hbs).
  exists c'. split; [done|]. rewrite HX'. apply scanIdle_no_close.
  rewrite His, Hbs, !length_fmap in Hcap.
  assert (length new = length (List.filter (isIdle c) lb.*2)) as Hlen.
  { rewrite <- (length_fmap snd new), Hnew, length_reverse.
    f_equal. apply (filter_fmap_snd (isIdle c)). }
  rewrite length_app, Hlen. lia.
Qed.

Lemma clean_within_cap_closes_nothing_witness :
  ∃ c', clean (stateAfter [OpAddBusy 8%nat; OpAddIdle 7%nat]) = Ok (tt, c') ∧
        smuxClosed c' = smuxClosed (stateAfter [OpAddBusy 8%nat; OpAddIdle 7%nat]).
Proof.
  apply (clean_within_cap_closes_nothing (stateAfter [OpAddBusy 8%nat; OpAddIdle 7%nat])
           [(1%nat, 7%nat)] [(0%nat, 8%nat)]).
  - split; [|reflexivity].
    split; try (vm_compute; repeat split; reflexivity).
    apply (bool_decide_unpack _). vm_compute. reflexivity.
  - vm_compute. discriminate.
Defined.

(** X7. [clean] is idempotent while the sessions do not change: a
    second [clean] right after the first leaves both lists, the closed
    sessions and [idleCount] as the first left them. *)
Theorem clean_twice c li lb :
  inv c li lb →
  ∃ c1 c2, clean c = Ok (tt, c1) ∧ clean c1 = Ok (tt, c2) ∧
    idleNodes c2 = idleNodes c1 ∧ busyNodes c2 = busyNodes c1 ∧
    idleSessions c2 = idleSessions c1 ∧ busySessions c2 = busySessions c1 ∧
    smuxClosed c2 = smuxClosed c1 ∧ idleCount c2 = idleCount c1.
Proof.
  intros Hinv.
  destruct (clean_spec c li lb Hinv) as (c1 & new & Hrun & Hnew & Hrep1 & HX1 & Hcnt1 & Hfr).
  pose proof (pool_frame_streams _ _ Hfr) as HS.
  set (l := new ++ li) in *.
  set (lb1 := List.filter (staysBusy (smuxClosed c) (smuxStreams c)) lb) in *.
  pose proof (scanIdle_count (smuxStreams c) (smuxClosed c) (Z.of_nat (length l)) l) as Hcount.
  destruct (scanIdle_keptOk (smuxStreams c) (smuxClosed c) (Z.of_nat (length l)) l [])
    as [Hlive Hbusy].
  { split; intros; by exfalso; eapply not_elem_of_nil. }
  simpl in Hlive, Hbusy.
  destruct (scanIdle (smuxStreams c) (smuxClosed c) (Z.of_nat (length l)) l)
    as [[k X1] cnt1] eqn:Hscan.
  cbn [fst snd] in *.
  assert (inv c1 k lb1) as Hinv1 by (split; [done|lia]).
  assert (∀ ps, ps ∈ lb1 → (ps.2 ∉ X1) ∧ ¬ Z.of_nat (smuxStreams c ps.2) < maxStreams) as Hfull.
  { intros [p s] [_ Hst]%elem_of_filter_bool. unfold staysBusy in Hst. cbn [snd] in *.
    apply andb_prop in Hst as [Hl%negb_true_iff%bool_decide_eq_false
                                 Hf%negb_true_iff%bool_decide_eq_false].
    split; [|done]. intros Hin.
    pose proof (scanIdle_closed (smuxStreams c) (smuxClosed c) (Z.of_nat (length l)) l s) as Hc.
    rewrite Hscan in Hc. destruct (Hc Hin) as [?|[Hz _]]; [done|].
    unfold maxStreams in Hf. lia. }
  destruct (clean_spec c1 k lb1 Hinv1) as (c2 & new2 & Hrun2 & Hnew2 & Hrep2 & HX2 & Hcnt2 & _).
  rewrite HX1, HS in Hnew2, Hrep2, HX2, Hcnt2.
  assert (new2 = []) as ->.
  { apply (fmap_nil_inv snd). rewrite Hnew2, filter_none; [done|].
    intros ps Hps. destruct (Hfull ps Hps) as [_ Hf]. unfold turnsIdle.
    rewrite (bool_decide_eq_false_2 _ Hf). apply andb_false_r. }
  rewrite filter_all in Hrep2.
  2:{ intros ps Hps. destruct (Hfull ps Hps) as [Hl Hf]. unfold staysBusy.
      by rewrite (bool_decide_eq_false_2 _ Hl), (bool_decide_eq_false_2 _ Hf). }
  simpl in Hrep2, HX2, Hcnt2.
  rewrite scanIdle_fix in Hrep2, HX2, Hcnt2.
  2,3,4: (split; [done|]; intros Hgt; apply Hbusy; lia).
  simpl in Hrep2, HX2, Hcnt2.
  destruct (rep_views _ _ _ Hrep1) as (Hin1 & Hbn1 & His1 & Hbs1).
  destruct (rep_views _ _ _ Hrep2) as (Hin2 & Hbn2 & His2 & Hbs2).
  exists c1, c2. split_and!; try done; try congruence. lia.
Qed.

Lemma clean_twice_witness :
  ∃ c1 c2, clean (stateAfter [OpAddBusy 8%nat; OpAddIdle 7%nat]) = Ok (tt, c1) ∧
    clean c1 = Ok (tt, c2) ∧
    idleNodes c2 = idleNodes c1 ∧ busyNodes c2 = busyNodes c1 ∧
    idleSessions c2 = idleSessions c1 ∧ busySessions c2 = busySessions c1 ∧
    smuxClosed c2 = smuxClosed c1 ∧ idleCount c2 = idleCount c1.
Proof.
  apply (clean_twice (stateAfter [OpAddBusy 8%nat; OpAddIdle 7%nat])
           [(1%nat, 7%nat)] [(0%nat, 8%nat)]).
  split; [|reflexivity].
  split; try (vm_compute; repeat split; reflexivity).
  apply (bool_decide_unpack _). vm_compute. reflexivity.
Defined.

(** X8. The moderator's teardown, on a well-formed pool whose [die] is
    still open, returns having closed [die], every tunnel listener,
    every session on either list and the control connection. It unlinks
    nothing (both lists and [idleCount] are as before) and it closes no
    session outside the two lists. *)
Theorem moderator_tears_down c li lb :
  inv c li lb → dieClosed c = false →
  ∃ c', moderator c = Ok (tt, c') ∧
    dieClosed c' = true ∧ ctlConnClosed c' = true ∧
    lisClosed c' = list_to_set (listener <$> tunnels c) ∪ lisClosed c ∧
    smuxClosed c' = list_to_set (idleSessions c ++ busySessions c) ∪ smuxClosed c ∧
    idleNodes c' = idleNodes c ∧ busyNodes c' = busyNodes c ∧
    idleCount c' = idleCount c.
Proof.
  intros [Hrep Hcnt] Hlive.
  destruct (rep_views _ _ _ Hrep) as (Hin & Hbn & His & Hbs).
  pose proof (rep_idle_bound _ _ _ Hrep) as Hfi.
  pose proof (rep_busy_bound _ _ _ Hrep) as Hfb.
  unfold moderator.
  assert (closeDie c = Ok (tt, set_dieClosed true c)) as Hdie.
  { unfold closeDie. by rewrite Hlive. }
  erewrite bind_ok by exact Hdie.
  do 4 mstep.
  set (c0 := set_lisClosed _ _).
  assert (rep c0 li lb) as Hrep0
    by (apply (rep_frame c c0); [reflexivity|reflexivity|reflexivity|exact Hrep]).
  change (walkFuel c0) with (walkFuel c).
  change (idlePipes c0) with (idlePipes c). rewrite (rep_idle_hd _ _ _ Hrep).
  destruct (closeAllLoop_spec li c0 None (walkFuel c)) as (c1 & Hrun1 & Hc1 & HX1);
    [apply Hrep0|done|].
  erewrite bind_ok by exact Hrun1. mstep.
  assert (rep c1 li lb) as Hrep1.
  { rewrite Hc1. by apply rep_set_smuxClosed. }
  assert (busyPipes c1 = busyPipes c) as -> by (by rewrite Hc1).
  rewrite (rep_busy_hd _ _ _ Hrep).
  destruct (closeAllLoop_spec lb c1 None (walkFuel c)) as (c2 & Hrun2 & Hc2 & HX2);
    [apply Hrep1|done|].
  erewrite bind_ok by exact Hrun2.
  eexists. split; [reflexivity|].
  assert (rep (set_ctlConnClosed true c2) li lb) as Hrep2.
  { apply (rep_frame c1 _); [by rewrite Hc2|by rewrite Hc2|by rewrite Hc2|exact Hrep1]. }
  destruct (rep_views _ _ _ Hrep2) as (Hin2 & Hbn2 & _ & _).
  rewrite Hin2, Hbn2, Hin, Hbn, His, Hbs. simpl.
  split_and!; try done.
  - by rewrite Hc2, Hc1.
  - by rewrite Hc2, Hc1.
  - rewrite HX2, HX1. simpl. rewrite list_to_set_app_L.
    apply set_eq. intros x. rewrite !elem_of_union. tauto.
  - by rewrite Hc2, Hc1.
Qed.

Lemma moderator_tears_down_witness :
  ∃ c', moderator (stateAfter [OpAddBusy 8%nat; OpAddIdle 7%nat]) = Ok (tt, c') ∧
    dieClosed c' = true ∧ ctlConnClosed c' = true ∧
    lisClosed c' = list_to_set (listener <$> tunnels (stateAfter [OpAddBusy 8%nat; OpAddIdle 7%nat]))
                   ∪ lisClosed (stateAfter [OpAddBusy 8%nat; OpAddIdle 7%nat]) ∧
    smuxClosed c' = list_to_set (idleSessions (stateAfter [OpAddBusy 8%nat; OpAddIdle 7%nat])
                                 ++ busySessions (stateAfter [OpAddBusy 8%nat; OpAddIdle 7%nat]))
                    ∪ smuxClosed (stateAfter [OpAddBusy 8%nat; OpAddIdle 7%nat]) ∧
    idleNodes c' = idleNodes (stateAfter [OpAddBusy 8%nat; OpAddIdle 7%nat]) ∧
    busyNodes c' = busyNodes (stateAfter [OpAddBusy 8%nat; OpAddIdle 7%nat]) ∧
    idleCount c' = idleCount (stateAfter [OpAddBusy 8%nat; OpAddIdle 7%nat]).
Proof.
  apply (moderator_tears_down (stateAfter [OpAddBusy 8%nat; OpAddIdle 7%nat])
           [(1%nat, 7%nat)] [(0%nat, 8%nat)]).
  - split; [|reflexivity].
    split; try (vm_compute; repeat split; reflexivity).
    apply (bool_decide_unpack _). vm_compute. reflexivity.
  - reflexivity.
Defined.

(** * The manager as a whole *)

(** X9. A pass of [Prepare] on a well-formed pool neither panics nor
    runs forever, and ends in one of three ways: with a session in hand
    that is not closed, at the [Available] select; in the timed wait,
    with nothing in hand, the idle list empty and a PIPE_REQ frame at
    the tail of the write queue; or parked at the send of the PIPE_REQ,
    the write queue full and as it was, with what the retry popped (a
    cell whose session is not closed, or nothing and the idle list
    empty). With room in the write queue it is one of the first two. It
    enqueues at most one frame, a PIPE_REQ. *)
Theorem prepare_holds_live_or_waits av c li lb :
  inv c li lb →
  ∃ r c', prepare av c = Ok (r, c') ∧ mgrPost c c' ∧
    ((∃ s, r = (Some s, AtAvailable) ∧ (s ∉ smuxClosed c') ∧
           (writeChan c' = writeChan c ∨
            writeChan c' = writeChan c ++ [WriteReq TypePipeReq BNil])) ∨
     (r = (None, AtWait) ∧ idleSessions c' = [] ∧
      writeChan c' = writeChan c ++ [WriteReq TypePipeReq BNil]) ∨
     (∃ idle, r = (None, AtSend idle) ∧
        (writeChanCap ≤ length (writeChan c))%nat ∧ writeChan c' = writeChan c ∧
        match idle with
        | Some i => ∃ s, pipeOf i c' = Ok (s, c') ∧ s ∉ smuxClosed c'
        | None => idleSessions c' = []
        end)) ∧
    ((length (writeChan c) < writeChanCap)%nat → r.2 = AtAvailable ∨ r.2 = AtWait).
Proof.
  intros Hinv. unfold prepare.
  assert (∃ stale, match av with None => mret true | Some a => smux.IsClosed a end c
                   = Ok (stale, c) ∧
                   (stale = false → ∃ a, av = Some a ∧ a ∉ smuxClosed c)) as (stale & Hst & Hav).
  { destruct av as [a|]; [|by exists true].
    exists (bool_decide (a ∈ smuxClosed c)). split; [done|].
    intros Hf%bool_decide_eq_false. by exists a. }
  erewrite bind_ok by exact Hst. destruct stale.
  2:{ destruct (Hav eq_refl) as (a & -> & Ha).
      eexists _, c. split; [reflexivity|]. split; [by eapply mgrPost_refl|].
      split; [|by left]. left. exists a. split_and!; try done. by left. }
  destruct (pop_post c li lb Hinv) as (i1 & c1 & Hrun1 & Hpost1 & HX1 & Hw1 & Hi1).
  erewrite bind_ok by exact Hrun1.
  destruct i1 as [p|].
  { destruct Hi1 as (s & Hp & Hs). erewrite bind_ok by exact Hp.
    eexists _, c1. split; [reflexivity|]. split; [done|].
    split; [|by left]. left. exists s. split_and!; try done. by left. }
  destruct (mgrPost_inv _ _ Hpost1) as (li1 & lb1 & Hinv1).
  destruct (clean_post c1 li1 lb1 Hinv1) as (c2 & Hrun2 & Hpost2).
  erewrite bind_ok by exact Hrun2.
  destruct (mgrPost_inv _ _ Hpost2) as (li2 & lb2 & Hinv2).
  destruct (pop_post c2 li2 lb2 Hinv2) as (i3 & c3 & Hrun3 & Hpost3 & HX3 & Hw3 & Hi3).
  erewrite bind_ok by exact Hrun3.
  destruct (mgrPost_inv _ _ Hpost3) as (li3 & lb3 & Hinv3).
  assert (writeChan c3 = writeChan c) as Hw.
  { rewrite Hw3. destruct Hpost2 as (_ & _ & (reqs & Hreq & _) & _).
    destruct (clean_inv c1 li1 lb1 Hinv1) as (? & ? & ? & Hr2 & _ & Hf2).
    rewrite Hrun2 in Hr2. injection Hr2 as <-.
    by rewrite (pool_frame_writeChan _ _ Hf2). }
  destruct (sendStep_post i3 c3 li3 lb3 Hinv3) as (r & c4 & Hrun4 & Hpost4 & Hok4 & Hcase).
  { destruct i3 as [i|]; [|done]. destruct Hi3 as (s & Hs & _). by eapply pipeOf_alloc. }
  exists r, c4. split; [done|].
  split.
  { eapply mgrPost_trans; [exact Hpost1|]. eapply mgrPost_trans; [exact Hpost2|].
    by eapply mgrPost_trans. }
  rewrite Hw in Hcase. case_bool_decide as Hroom.
  - destruct Hcase as [-> Hr]. destruct i3 as [i|].
    + destruct Hr as (s & Hs & ->). destruct Hi3 as (s' & Hs' & Hlive).
      rewrite Hs in Hs'. injection Hs' as <-.
      split; [|by left]. left. exists s. split_and!; try done. by right.
    + subst r. split; [|by right]. right. left. by split_and!.
  - destruct Hcase as [-> ->]. split; [|by intros ?].
    right. right. exists i3. split_and!; try done. lia.
Qed.

Lemma prepare_holds_live_or_waits_witness :
  ∃ r c', prepare None (stateAfter [OpAddBusy 7%nat]) = Ok (r, c') ∧
    mgrPost (stateAfter [OpAddBusy 7%nat]) c' ∧
    ((∃ s, r = (Some s, AtAvailable) ∧ (s ∉ smuxClosed c') ∧
           (writeChan c' = writeChan (stateAfter [OpAddBusy 7%nat]) ∨
            writeChan c' = writeChan (stateAfter [OpAddBusy 7%nat])
                           ++ [WriteReq TypePipeReq BNil])) ∨
     (r = (None, AtWait) ∧ idleSessions c' = [] ∧
      writeChan c' = writeChan (stateAfter [OpAddBusy 7%nat]) ++ [WriteReq TypePipeReq BNil]) ∨
     (∃ idle, r = (None, AtSend idle) ∧
        (writeChanCap ≤ length (writeChan (stateAfter [OpAddBusy 7%nat])))%nat ∧
        writeChan c' = writeChan (stateAfter [OpAddBusy 7%nat]) ∧
        match idle with
        | Some i => ∃ s, pipeOf i c' = Ok (s, c') ∧ s ∉ smuxClosed c'
        | None => idleSessions c' = []
        end)) ∧
    ((length (writeChan (stateAfter [OpAddBusy 7%nat])) < writeChanCap)%nat →
     r.2 = AtAvailable ∨ r.2 = AtWait).
Proof.
  apply (prepare_holds_live_or_waits None (stateAfter [OpAddBusy 7%nat]) [] [(0%nat, 7%nat)]).
  split; [|reflexivity].
  split; try (vm_compute; repeat split; reflexivity).
  apply (bool_decide_unpack _). vm_compute. reflexivity.
Defined.

(** X10. However the manager is driven (any sequence of ticks, arrivals
    on [pipeAdd], hand-offs on [pipeGet], timeouts, deaths and moves of
    its own, from any point), no move panics or runs forever on a
    well-formed pool, and every move leaves the pool well formed:
    [idleCount] is the length of the idle list after every move. The
    manager puts nothing but PIPE_REQ frames on the write queue and
    never fills it past its capacity (a move that finds the queue full
    leaves the manager parked at the send); it never closes [die],
    never offers on [toDie], never writes to the control connection,
    and closes no session that carries a stream. *)
Theorem manager_keeps_pool evs : ∀ av pt c li lb,
  inv c li lb → mgrOk c (av, pt) →
  ∃ r c', mgrRun evs av pt c = Ok (r, c') ∧
    idleCount c' = Z.of_nat (length (idleNodes c')) ∧
    (∃ reqs, writeChan c' = writeChan c ++ reqs ∧ onlyPipeReqs reqs) ∧
    (length (writeChan c') ≤ length (writeChan c) `max` writeChanCap)%nat ∧
    dieClosed c' = dieClosed c ∧ toDie c' = toDie c ∧ ctlOut c' = ctlOut c ∧
    lastRead c' = lastRead c ∧ lisClosed c' = lisClosed c ∧
    (∀ s, s ∈ smuxClosed c' → s ∈ smuxClosed c ∨ smuxStreams c s = 0%nat).
Proof.
  intros av pt c li lb Hinv Hok.
  destruct (mgrRun_post evs av pt c li lb Hinv Hok) as (r & c' & Hr & Hpost & _).
  exists r, c'. split; [done|].
  destruct (mgrPost_inv _ _ Hpost) as (li' & lb' & Hinv').
  pose proof Hpost as (_ & Hfr & Hreqs & Hlen & _ & Hz).
  split_and!; try done.
  - by eapply inv_count.
  - by eapply mgrPost_dieClosed.
  - by eapply mgrPost_toDie.
  - by eapply mgrPost_ctlOut.
  - by rewrite Hfr.
  - by rewrite Hfr.
Qed.

Lemma manager_keeps_pool_witness :
  ∃ r c', mgrRun [MRun; MAvail (APipeAdd 3%nat); MRun; MRun; MAvail APipeGet; MRun;
                  MWait WTick]
            None AtPrepare (stateAfter [OpAddBusy 7%nat]) = Ok (r, c') ∧
    idleCount c' = Z.of_nat (length (idleNodes c')) ∧
    (∃ reqs, writeChan c' = writeChan (stateAfter [OpAddBusy 7%nat]) ++ reqs ∧
             onlyPipeReqs reqs) ∧
    (length (writeChan c')
     ≤ length (writeChan (stateAfter [OpAddBusy 7%nat])) `max` writeChanCap)%nat ∧
    dieClosed c' = dieClosed (stateAfter [OpAddBusy 7%nat]) ∧
    toDie c' = toDie (stateAfter [OpAddBusy 7%nat]) ∧
    ctlOut c' = ctlOut (stateAfter [OpAddBusy 7%nat]) ∧
    lastRead c' = lastRead (stateAfter [OpAddBusy 7%nat]) ∧
    lisClosed c' = lisClosed (stateAfter [OpAddBusy 7%nat]) ∧
    (∀ s, s ∈ smuxClosed c' →
          s ∈ smuxClosed (stateAfter [OpAddBusy 7%nat]) ∨
          smuxStreams (stateAfter [OpAddBusy 7%nat]) s = 0%nat).
Proof.
  apply (manager_keeps_pool
           [MRun; MAvail (APipeAdd 3%nat); MRun; MRun; MAvail APipeGet; MRun; MWait WTick]
           None AtPrepare (stateAfter [OpAddBusy 7%nat]) [] [(0%nat, 7%nat)]).
  - split; [|reflexivity].
    split; try (vm_compute; repeat split; reflexivity).
    apply (bool_decide_unpack _). vm_compute. reflexivity.
  - exact I.
Defined.

(** * Hand-over of pipes, and the three loops *)

(** X11. [putPipe] never panics. While [die] is open it leaves the
    Control as it is: the session is handed over when the manager is
    parked at a receive on [pipeAdd], and otherwise the call stays
    parked in its [select]. Once [die] is closed it closes the session
    it was given, and nothing else, and returns, whether or not the
    manager was at a receive. *)
Theorem putPipe_closes_only_after_death p mgr pick c :
  ∃ o c', putPipe p mgr pick c = Ok (o, c') ∧
    (dieClosed c = false → c' = c ∧ o = if mgr then PutDelivered else PutBlocked) ∧
    (dieClosed c = true →
       o = PutClosed ∧ c' = set_smuxClosed ({[p]} ∪ smuxClosed c) c) ∧
    (o = PutClosed → dieClosed c = true) ∧
    (o ≠ PutClosed → c' = c).
Proof.
  unfold putPipe. rewrite bind_gets.
  destruct mgr, (dieClosed c) eqn:Hd, pick; cbn;
    eexists _, _; (split; [reflexivity|]); split_and!; try done.
Qed.

(** X12. [getPipe] returns [nil] only when [die] is closed; on a live
    Control it returns what the manager offers, and waits when the
    manager offers nothing. It never changes the Control. *)
Theorem getPipe_nil_only_after_death offer pick c :
  ∃ o, getPipe offer pick c = Ok (o, c) ∧
    (dieClosed c = false →
       o = match offer with Some p => GetPipe p | None => GetBlocked end) ∧
    (dieClosed c = true → offer = None → o = GetPipe None) ∧
    (o = GetPipe None → dieClosed c = true ∨ offer = Some None).
Proof.
  unfold getPipe. rewrite bind_gets.
  destruct offer as [[p|]|], (dieClosed c) eqn:Hd, pick; cbn;
    eexists; (split; [reflexivity|]); split_and!; try done; auto.
Qed.

Lemma pongsFor_cons f frames :
  pongsFor (f :: frames)
  = (if bool_decide (f.1 = TypePing) then [WriteReq TypePong BNil] else []) ++ pongsFor frames.
Proof. unfold pongsFor. simpl. by case_bool_decide. Qed.

Lemma lastStamp_cons mT now frames old :
  lastStamp ((mT, now) :: frames) old = lastStamp frames (u64 now).
Proof.
  unfold lastStamp. destruct frames as [|f frames]; [done|].
  change (last ((mT, now) :: f :: frames)) with (last (f :: frames)).
  destruct (last (f :: frames)) as [[? ?]|] eqn:Hl; [done|].
  by apply last_None in Hl.
Qed.

Lemma recvLoopRun_frames frames : ∀ c,
  dieClosed c = false →
  (length (writeChan c) + length (pongsFor frames) ≤ writeChanCap)%nat →
  recvLoopRun ((λ f, (inr f.1, f.2)) <$> frames) c
  = Ok (Continue,
        set_writeChan (writeChan c ++ pongsFor frames)
          (set_lastRead (lastStamp frames (lastRead c)) c)).
Proof.
  induction frames as [|[mT now] frames IH]; intros c Hd Hroom.
  - cbn. unfold pongsFor, lastStamp. simpl. rewrite app_nil_r. by destruct c.
  - rewrite fmap_cons. cbn [fst snd recvLoopRun].
    rewrite pongsFor_cons, length_app in Hroom. cbn [fst] in Hroom.
    erewrite bind_ok.
    2:{ apply recvLoopIter_frame; [done|].
        case_bool_decide; [left; simpl in Hroom; lia|by right]. }
    cbv iota. rewrite IH; [| done |].
    + f_equal. f_equal. rewrite pongsFor_cons, lastStamp_cons.
      destruct c; cbn. by rewrite app_assoc.
    + cbn [writeChan set_writeChan]. rewrite length_app. lia.
Qed.

Lemma recvLoopRun_app l1 l2 : ∀ c c1,
  recvLoopRun l1 c = Ok (Continue, c1) → recvLoopRun (l1 ++ l2) c = recvLoopRun l2 c1.
Proof.
  induction l1 as [|[rd now] l1 IH]; intros c c1.
  - by intros [= ->].
  - cbn [recvLoopRun app]. rewrite !bind_eq.
    destruct (recvLoopIter rd now c) as [[[] c0]|msg|]; try done. apply IH.
Qed.

(** X14. [recvLoop] stamps [lastRead] with the clock when it starts.
    Over a run of frames read on a live Control, with room in the write
    queue for the PONGs owed, it goes on after each of them: [lastRead]
    ends as the clock read after the last frame (whatever its type),
    the write queue has grown by one PONG per PING read and by nothing
    else, and nothing else in the Control has changed. A read error
    after them makes the loop call [Close], which panics; a PING read
    when the queue is full leaves the loop parked at its send,
    [lastRead] stamped and no PONG queued. *)
Theorem recvLoop_answers_pings start frames c :
  dieClosed c = false →
  (length (writeChan c) + length (pongsFor frames) ≤ writeChanCap)%nat →
  recvLoop start ((λ f, (inr f.1, f.2)) <$> frames) c
  = Ok (Continue,
        set_writeChan (writeChan c ++ pongsFor frames)
          (set_lastRead (lastStamp frames (u64 start)) c)) ∧
  (∀ e now, recvLoop start (((λ f, (inr f.1, f.2)) <$> frames) ++ [(inl e, now)]) c
            = Panic "closing") ∧
  (∀ now, (length (writeChan c) + length (pongsFor frames) = writeChanCap)%nat →
          recvLoop start (((λ f, (inr f.1, f.2)) <$> frames) ++ [(inr TypePing, now)]) c
          = Ok (Blocked,
                set_writeChan (writeChan c ++ pongsFor frames) (set_lastRead (u64 now) c))).
Proof.
  intros Hd Hroom. unfold recvLoop. rewrite !bind_modify.
  pose proof (recvLoopRun_frames frames (set_lastRead (u64 start) c) Hd Hroom) as Hrun.
  assert (∀ q z z', set_writeChan q (set_lastRead z (set_lastRead z' c))
                    = set_writeChan q (set_lastRead z c)) as Hset by (by destruct c).
  cbn [lastRead set_lastRead writeChan] in Hrun. rewrite Hset in Hrun.
  split_and!.
  - exact Hrun.
  - intros e now. setoid_rewrite bind_modify.
    erewrite recvLoopRun_app by exact Hrun.
    cbn [recvLoopRun]. unfold recvLoopIter, IsClosed.
    rewrite bind_eq, bind_gets.
    change (dieClosed (set_writeChan _ _)) with (dieClosed c). by rewrite Hd.
  - intros now Hfull. setoid_rewrite bind_modify.
    erewrite recvLoopRun_app by exact Hrun.
    cbn [recvLoopRun]. erewrite bind_ok.
    2:{ apply recvLoopIter_parked; [done|]. cbn [writeChan set_writeChan].
        rewrite length_app. lia. }
    cbv iota. by destruct c.
Qed.

Lemma recvLoop_answers_pings_witness :
  let frames := [(TypePing, Second); (TypePong, 2 * Second)] in
  let c := NewControl "none" in
  recvLoop 7 ((λ f, (inr f.1, f.2)) <$> frames) c
  = Ok (Continue,
        set_writeChan (writeChan c ++ pongsFor frames)
          (set_lastRead (lastStamp frames (u64 7)) c)) ∧
  (∀ e now, recvLoop 7 (((λ f, (inr f.1, f.2)) <$> frames) ++ [(inl e, now)]) c
            = Panic "closing") ∧
  (∀ now, (length (writeChan c) + length (pongsFor frames) = writeChanCap)%nat →
          recvLoop 7 (((λ f, (inr f.1, f.2)) <$> frames) ++ [(inr TypePing, now)]) c
          = Ok (Blocked,
                set_writeChan (writeChan c ++ pongsFor frames) (set_lastRead (u64 now) c))).
Proof.
  intros frames c.
  apply (recvLoop_answers_pings 7 frames c).
  - reflexivity.
  - vm_compute. lia.
Defined.

(** X15. [Serve], over any run of ticks and deaths, touches nothing of
    the Control but the write queue, and puts on it nothing but PING
    frames, at most one per tick. The only way it ends other than by
    going on, waiting or returning is the panic of the [Close] it calls
    on a timeout. *)
Theorem Serve_only_pings evs : ∀ c,
  match serveRun evs c with
  | Ok (r, c') =>
      ∃ k : nat, (k ≤ length evs)%nat ∧
        c' = set_writeChan (writeChan c ++ replicate k (WriteReq TypePing BNil)) c
  | Panic msg => msg = "closing"
  | Diverge => False
  end.
Proof.
  induction evs as [|ev evs IH]; intros c.
  - cbn. exists 0%nat. split; [done|]. simpl. rewrite app_nil_r. by destruct c.
  - cbn [serveRun]. rewrite bind_eq.
    assert (∀ c0, c0 = set_writeChan (writeChan c0 ++ replicate 0 (WriteReq TypePing BNil)) c0)
      as Hsame.
    { intros c0. simpl. rewrite app_nil_r. by destruct c0. }
    destruct ev as [now pick|]; cbn [serveStep].
    2:{ cbn. exists 0%nat. split; [lia|apply Hsame]. }
    rewrite bind_gets. case_bool_decide; [done|].
    rewrite !bind_gets.
    destruct (select2 _ _ _) eqn:Hsel; cbn.
    + assert ((length (writeChan c) < writeChanCap)%nat) as Hroom.
      { apply (bool_decide_unpack _). revert Hsel. unfold select2.
        by destruct (bool_decide _), (dieClosed c), pick. }
      erewrite bind_ok by (by apply sendWriteChan_room). cbn.
      specialize (IH (set_writeChan (writeChan c ++ [WriteReq TypePing BNil]) c)).
      destruct (serveRun evs _) as [[r c']|msg|]; [|done|done].
      destruct IH as (k & Hk & ->). exists (S k). split; [simpl; lia|].
      simpl. rewrite <- app_assoc. by destruct c.
    + exists 0%nat. split; [lia|apply Hsame].
    + exists 0%nat. split; [lia|apply Hsame].
Qed.

(** X16. The deadline test of [Serve] is done in [uint64]: when the
    stamp in [lastRead] is later than the clock read of the tick (a
    frame was read between the tick and the test, or the clock stepped
    back), the difference wraps around and the tick is taken for a
    timeout, so that [Close] is called. *)
Theorem Serve_later_stamp_is_timeout now pick c :
  0 ≤ now → now < lastRead c → lastRead c < 2 ^ 64 →
  lastRead c - now < 2 ^ 64 - pingTimeout →
  serveStep (SvTick now pick) c = (Close ≫= λ _, mret Return) c.
Proof.
  intros Hnow Hlater Hrange Hgap. unfold serveStep. rewrite bind_gets.
  rewrite bool_decide_eq_true_2; [done|].
  unfold u64_sub, u64, pingTimeout, Second in *.
  rewrite (Z.mod_small now) by lia.
  rewrite (Z.mod_small (1000000000 * 15)) by lia.
  replace (now - lastRead c) with (2 ^ 64 - (lastRead c - now) + (-1) * 2 ^ 64) by lia.
  rewrite Z.mod_add by lia. rewrite Z.mod_small by lia. lia.
Qed.

Lemma Serve_later_stamp_is_timeout_witness :
  serveStep (SvTick (5 * Second) true) (set_lastRead (5 * Second + 1) (NewControl "none"))
  = (Close ≫= λ _, mret Return) (set_lastRead (5 * Second + 1) (NewControl "none")).
Proof.
  apply Serve_later_stamp_is_timeout; vm_compute; (reflexivity || discriminate).
Defined.

(** * The write loop over several turns *)

Lemma payload_app q1 q2 : payload (q1 ++ q2) = payload q1 ++ payload q2.
Proof. unfold payload. induction q1 as [|w q1 IH]; [done|]. simpl. destruct (negb _); simpl; by rewrite IH. Qed.

Lemma pipeReqs_cons w q :
  pipeReqs (w :: q) = (if bool_decide (mType w = TypePipeReq) then 1 else 0) + pipeReqs q.
Proof.
  unfold pipeReqs. simpl. case_bool_decide; simpl length; lia.
Qed.

Lemma keepalive_not_pipeReq w : isKeepalive (mType w) = true → mType w ≠ TypePipeReq.
Proof. unfold isKeepalive. intros H Heq. rewrite Heq in H. done. Qed.

(** X17. However many turns the write loop makes on a live Control
    whose writes succeed, it takes frames from the head of the queue in
    order and writes them in that order; whatever it drops is a PING or
    a PONG, so that every other frame taken (PIPE_REQ in particular) is
    on the wire, in queue order; and [idx] has advanced by the number
    of PIPE_REQ frames taken. The loop stops only on an empty queue. *)
Theorem writeLoop_keeps_payload clock : ∀ lw idx c,
  dieClosed c = false →
  ∃ r lw' idx' c' taken sent,
    writeLoopRun clock lw idx c = Ok ((r, (lw', idx')), c') ∧
    writeChan c = taken ++ writeChan c' ∧
    ctlOut c' = ctlOut c ++ sent ∧
    sent `sublist_of` taken ∧ payload sent = payload taken ∧
    idx' = idx + pipeReqs taken ∧
    (r = Continue ∨ (r = Blocked ∧ writeChan c' = [])) ∧
    dieClosed c' = false.
Proof.
  induction clock as [|[now1 now2] clock IH]; intros lw idx c Hlive.
  - exists Continue, lw, idx, c, [], []. cbn. rewrite app_nil_r.
    split_and!; try done. unfold pipeReqs. simpl. lia. by left.
  - cbn [writeLoopRun]. unfold writeLoopIter, IsClosed.
    rewrite bind_eq, bind_gets, Hlive. rewrite bind_gets.
    destruct (writeChan c) as [|m q] eqn:Hq.
    { exists Blocked, lw, idx, c, [], []. cbn. rewrite Hq, app_nil_r.
      split_and!; try done. unfold pipeReqs. simpl. lia. by right. }
    rewrite bind_modify.
    destruct (isKeepalive (mType m) && bool_decide (now1 < lw + pingInterval `quot` 2))
      eqn:Hearly; cbn.
    + apply andb_prop in Hearly as [Hka _].
      destruct (IH lw idx (set_writeChan q c) Hlive)
        as (r & lw' & idx' & c' & taken & sent & Hrun & Hw & Ho & Hsub & Hpay & Hidx & Hr & Hd).
      exists r, lw', idx', c', (m :: taken), sent.
      split_and!; try done.
      * simpl in Hw. by rewrite Hw.
      * by apply sublist_cons.
      * rewrite Hpay. unfold payload. simpl. by rewrite Hka.
      * rewrite pipeReqs_cons, bool_decide_eq_false_2 by (by apply keepalive_not_pipeReq). lia.
    + set (idx1 := if bool_decide (mType m = TypePipeReq) then idx + 1 else idx).
      destruct (IH now2 idx1 (set_ctlOut (ctlOut c ++ [m]) (set_writeChan q c)) Hlive)
        as (r & lw' & idx' & c' & taken & sent & Hrun & Hw & Ho & Hsub & Hpay & Hidx & Hr & Hd).
      exists r, lw', idx', c', (m :: taken), (m :: sent).
      split_and!; try done.
      * simpl in Hw. by rewrite Hw.
      * simpl in Ho. by rewrite Ho, <- app_assoc.
      * by apply sublist_skip.
      * unfold payload in *. simpl. destruct (negb _); by rewrite Hpay.
      * rewrite pipeReqs_cons, Hidx. subst idx1. case_bool_decide; lia.
Qed.

Lemma writeLoop_keeps_payload_witness :
  ∃ r lw' idx' c' taken sent,
    writeLoopRun [(Second, Second); (2 * Second, 2 * Second); (3 * Second, 3 * Second)] 0 0
      (set_writeChan [WriteReq TypePipeReq BNil; WriteReq TypePing BNil; WriteReq TypePipeReq BNil]
         (NewControl "none"))
    = Ok ((r, (lw', idx')), c') ∧
    writeChan (set_writeChan [WriteReq TypePipeReq BNil; WriteReq TypePing BNil;
                              WriteReq TypePipeReq BNil] (NewControl "none"))
    = taken ++ writeChan c' ∧
    ctlOut c' = ctlOut (set_writeChan [WriteReq TypePipeReq BNil; WriteReq TypePing BNil;
                                       WriteReq TypePipeReq BNil] (NewControl "none")) ++ sent ∧
    sent `sublist_of` taken ∧ payload sent = payload taken ∧
    idx' = 0 + pipeReqs taken ∧
    (r = Continue ∨ (r = Blocked ∧ writeChan c' = [])) ∧
    dieClosed c' = false.
Proof.
  apply writeLoop_keeps_payload. reflexivity.
Defined.

(** * Tunnel sync *)

Lemma bindTunnels_spec d listen ts : ∀ i c,
  ∃ r, bindTunnels d listen i ts c
       = Ok (r, set_tunnels (tunnels c ++ boundTunnels d listen i ts) c) ∧
       match r with
       | inl e =>
           (length (boundTunnels d listen i ts) < length ts)%nat ∧
           ∃ err, listen (i + length (boundTunnels d listen i ts))%nat = inl err ∧
                  Some e = wrap err "binding TCP listener"
       | inr out =>
           length (boundTunnels d listen i ts) = length ts ∧
           out = (λ t, (LocalAddress t, RemoteAddress t)) <$> boundTunnels d listen i ts
       end.
Proof.
  induction ts as [|[loc rem] ts IH]; intros i c; cbn [bindTunnels boundTunnels].
  - exists (inr []). rewrite app_nil_r. split; [by destruct c|done].
  - destruct (listen i) as [e|[lis port]] eqn:Hl.
    + eexists (inl _). rewrite app_nil_r. split; [by destruct c|]. simpl.
      split; [lia|]. exists e. rewrite Nat.add_0_r. by split.
    + rewrite bind_modify.
      destruct (IH (S i) (set_tunnels
                  (tunnels c ++ [mkTunnel loc (d +:+ ":" +:+ pretty port) lis]) c))
        as (r & Hrun & Hr).
      erewrite bind_ok by exact Hrun. cbn [tunnels set_tunnels].
      rewrite <- app_assoc. cbn [app].
      destruct r as [e|out].
      * exists (inl e). split; [reflexivity|]. destruct Hr as (Hlen & err & Herr & He).
        split; [simpl; lia|]. exists err. split; [|done].
        cbn [length]. by rewrite Nat.add_succ_r.
      * destruct Hr as [Hlen ->]. eexists (inr _). split; [reflexivity|].
        split; [simpl; lia|done].
Qed.

(** Each tunnel recorded is the request at its index, bound by the call
    of [ListenTCP] at that index. *)
Lemma boundTunnels_lookup d listen ts : ∀ i k t,
  boundTunnels d listen i ts !! k = Some t →
  ∃ loc rem lis port,
    ts !! k = Some (loc, rem) ∧ listen (i + k)%nat = inr (lis, port) ∧
    t = mkTunnel loc (d +:+ ":" +:+ pretty port) lis.
Proof.
  induction ts as [|[loc rem] ts IH]; intros i k t; cbn [boundTunnels]; [done|].
  destruct (listen i) as [e|[lis port]] eqn:Hl; [done|].
  destruct k as [|k]; cbn [lookup list_lookup].
  - intros [= <-]. exists loc, rem, lis, port. rewrite Nat.add_0_r. by split_and!.
  - intros Hk. destruct (IH (S i) k t Hk) as (loc' & rem' & lis' & port' & Hts & Hli & ->).
    exists loc', rem', lis', port'. split_and!; try done.
    by rewrite Nat.add_succ_r.
Qed.

Lemma boundTunnels_length d listen ts i :
  (length (boundTunnels d listen i ts) ≤ length ts)%nat.
Proof.
  revert i. induction ts as [|[loc rem] ts IH]; intros i; cbn [boundTunnels]; [done|].
  destruct (listen i) as [e|[lis port]]; simpl; [lia|]. specialize (IH (S i)). lia.
Qed.

(** X18. [ServerSyncTunnels], once the request is read, calls
    [ListenTCP] for the requested tunnels in order and stops at the
    first call that fails: the tunnels it appends to [tunnels] are, in
    order, the requests before that failure, each with its requested
    local address, the listener its call returned and
    [<serverDomain>:<port>] of that listener as remote address. When a
    call fails it returns that error wrapped and writes no reply; when
    every tunnel is bound it writes the reply, the requests with the
    remote addresses filled in, and returns [nil], or the wrapped error
    of the write. On a failure there is no rollback: the tunnels bound
    before it stay recorded and none of their listeners is closed. *)
Theorem ServerSyncTunnels_binds_in_order d io ts c :
  syncRead io = inr (BSyncTunnels ts) →
  ∃ e c' bound,
    ServerSyncTunnels d io c = Ok (e, c') ∧
    tunnels c' = tunnels c ++ bound ∧ lisClosed c' = lisClosed c ∧
    (length bound ≤ length ts)%nat ∧
    (∀ i t, bound !! i = Some t →
       ∃ loc rem lis port,
         ts !! i = Some (loc, rem) ∧ syncListen io i = inr (lis, port) ∧
         t = mkTunnel loc (d +:+ ":" +:+ pretty port) lis) ∧
    ((length bound < length ts)%nat →
       ∃ err, syncListen io (length bound) = inl err ∧
              e = wrap err "binding TCP listener") ∧
    (length bound = length ts →
       e = match syncWrite io with
           | Some err => wrap err "WriteMsg sstm"
           | None => None
           end) ∧
    ctlOut c' = ctlOut c ++
      match e with
      | None => [WriteReq TypeSyncTunnels
                   (BSyncTunnels ((λ t, (LocalAddress t, RemoteAddress t)) <$> bound))]
      | Some _ => []
      end.
Proof.
  intros Hrd. unfold ServerSyncTunnels. rewrite Hrd.
  destruct (bindTunnels_spec d (syncListen io) ts 0%nat c) as (r & Hrun & Hr).
  erewrite bind_ok by exact Hrun.
  pose proof (boundTunnels_length d (syncListen io) ts 0) as Hle.
  pose proof (boundTunnels_lookup d (syncListen io) ts 0) as Hlook.
  set (bound := boundTunnels d (syncListen io) 0 ts) in *.
  destruct r as [e|out].
  - destruct Hr as (Hlt & err & Herr & He).
    eexists _, _, bound. split; [reflexivity|]. cbn.
    split_and!; try done.
    + intros _. by exists err.
    + intros Heq. lia.
    + by rewrite app_nil_r.
  - destruct Hr as [Hlen ->]. destruct (syncWrite io) as [e|] eqn:Hw.
    + eexists _, _, bound. split; [reflexivity|]. cbn.
      split_and!; try done.
      * intros Hlt. lia.
      * by rewrite app_nil_r.
    + rewrite bind_modify. eexists _, _, bound. split; [reflexivity|]. cbn.
      split_and!; try done.
      intros Hlt. lia.
Qed.

Lemma ServerSyncTunnels_binds_in_order_witness :
  let ts := [("127.0.0.1:22", ""); ("127.0.0.1:80", "")] in
  let io := mkSyncIO (inr (BSyncTunnels ts))
              (λ i, if bool_decide (i = 0%nat) then inr (4%nat, 8080%N) else inl "in use")
              None in
  ∃ e c' bound,
    ServerSyncTunnels "example.com" io (NewControl "none") = Ok (e, c') ∧
    tunnels c' = tunnels (NewControl "none") ++ bound ∧
    lisClosed c' = lisClosed (NewControl "none") ∧
    (length bound ≤ length ts)%nat ∧
    (∀ i t, bound !! i = Some t →
       ∃ loc rem lis port,
         ts !! i = Some (loc, rem) ∧ syncListen io i = inr (lis, port) ∧
         t = mkTunnel loc ("example.com" +:+ ":" +:+ pretty port) lis) ∧
    ((length bound < length ts)%nat →
       ∃ err, syncListen io (length bound) = inl err ∧
              e = wrap err "binding TCP listener") ∧
    (length bound = length ts →
       e = match syncWrite io with
           | Some err => wrap err "WriteMsg sstm"
           | None => None
           end) ∧
    ctlOut c' = ctlOut (NewControl "none") ++
      match e with
      | None => [WriteReq TypeSyncTunnels
                   (BSyncTunnels ((λ t, (LocalAddress t, RemoteAddress t)) <$> bound))]
      | Some _ => []
      end.
Proof.
  intros ts io.
  apply (ServerSyncTunnels_binds_in_order "example.com" io ts (NewControl "none")).
  reflexivity.
Defined.

(** * The handshakes, further *)

Lemma keyExchange_ok cr io c c1 :
  keyExchange cr io c = Ok (inr tt, c1) →
  ∃ ck priv keyMsg pms,
    ioRead io = inr (TypeClientKeyExchange, BCipherKeyExchange ck) ∧
    GenerateKeyExChange cr = (Some priv, Some keyMsg) ∧
    ProcessKeyExchange cr priv ck = inr pms ∧
    c1 = set_ctlOut (ctlOut c ++ [WriteReq TypeServerKeyExchange (BCipherKeyExchange keyMsg)])
           (set_preMasterSecret pms c).
Proof.
  unfold keyExchange.
  destruct (ioRead io) as [e|[mT body]]; [done|].
  case_bool_decide as HmT; [done|]. subst mT.
  destruct body as [|ck| |]; try done.
  destruct (GenerateKeyExChange cr) as [[priv|] [keyMsg|]] eqn:Hgen; try done.
  destruct (ProcessKeyExchange cr priv ck) as [e|pms] eqn:Hproc; [done|].
  rewrite bind_modify.
  destruct (ioWriteSKE io) as [e|]; [done|].
  rewrite bind_modify. intros Heq. exists ck, priv, keyMsg, pms.
  split_and!; try done. by injection Heq as <-.
Qed.

(** X19. What a successful [ServerHandShake] leaves. The Control has the
    generated client id, is registered under it, and no other Control
    was touched. Without encryption nothing was read, the pre-master
    secret is as it was and the only frame written is CLIENT_ID; with
    encryption the frame read was a CLIENT_KEY_EXCHANGE, the pre-master
    secret is what [ProcessKeyExchange] made of the server's private key
    and the client's key, and SERVER_KEY_EXCHANGE (carrying the server's
    public key) was written before CLIENT_ID. *)
Theorem ServerHandShake_success_state cr io a sv sv' c :
  controls sv !! a = Some c →
  ServerHandShake cr io a sv = Ok (None, sv') →
  ∃ c', controls sv' !! a = Some c' ∧
    ClientID c' = GenUUID cr ∧ ControlMap sv' !! GenUUID cr = Some a ∧
    (∀ b, b ≠ a → controls sv' !! b = controls sv !! b) ∧
    (encryptMode c = "none" →
       preMasterSecret c' = preMasterSecret c ∧
       ctlOut c' = ctlOut c ++ [WriteReq TypeClientID (BClientIDExchange (GenUUID cr))]) ∧
    (encryptMode c ≠ "none" →
       ∃ ck priv keyMsg,
         ioRead io = inr (TypeClientKeyExchange, BCipherKeyExchange ck) ∧
         GenerateKeyExChange cr = (Some priv, Some keyMsg) ∧
         ProcessKeyExchange cr priv ck = inr (preMasterSecret c') ∧
         ctlOut c' = ctlOut c ++
           [WriteReq TypeServerKeyExchange (BCipherKeyExchange keyMsg);
            WriteReq TypeClientID (BClientIDExchange (GenUUID cr))]).
Proof.
  intros Hc. unfold ServerHandShake. rewrite Hc.
  case_bool_decide as Hmode.
  - destruct (keyExchange cr io c) as [[[e|[]] c1]|msg|] eqn:Hkx; try done.
    apply keyExchange_ok in Hkx as (ck & priv & keyMsg & pms & Hrd & Hgen & Hproc & ->).
    unfold GenerateClientId. rewrite bind_modify. unfold gets.
    destruct (ioWriteCID io) as [e|]; [done|]. intros [= <-]. simpl.
    eexists. split; [apply lookup_insert_eq|]. simpl.
    split_and!; try done.
    + apply lookup_insert_eq.
    + intros b Hb. by rewrite lookup_insert_ne.
    + exists ck, priv, keyMsg. split_and!; try done. by rewrite <- app_assoc.
  - cbn.
    unfold GenerateClientId. rewrite bind_modify. unfold gets.
    destruct (ioWriteCID io) as [e|]; [done|]. intros [= <-]. simpl.
    eexists. split; [apply lookup_insert_eq|]. simpl.
    split_and!; try done.
    + apply lookup_insert_eq.
    + intros b Hb. by rewrite lookup_insert_ne.
Qed.

Lemma ServerHandShake_success_state_witness :
  let cr := mkCrypto (Some [1], Some [2]) (λ _ _, inr [3]) 42%N (λ _ _ _, []) (λ _, None) in
  let io := mkHsIO (inr (TypeClientKeyExchange, BCipherKeyExchange [9])) None None in
  let sv := mkServer {[ 0%nat := NewControl "aes" ]} ∅ in
  ∃ sv' c', ServerHandShake cr io 0%nat sv = Ok (None, sv') ∧
    controls sv' !! 0%nat = Some c' ∧
    ClientID c' = GenUUID cr ∧ ControlMap sv' !! GenUUID cr = Some 0%nat ∧
    (∀ b, b ≠ 0%nat → controls sv' !! b = controls sv !! b) ∧
    (encryptMode (NewControl "aes") = "none" →
       preMasterSecret c' = preMasterSecret (NewControl "aes") ∧
       ctlOut c' = ctlOut (NewControl "aes")
                   ++ [WriteReq TypeClientID (BClientIDExchange (GenUUID cr))]) ∧
    (encryptMode (NewControl "aes") ≠ "none" →
       ∃ ck priv keyMsg,
         ioRead io = inr (TypeClientKeyExchange, BCipherKeyExchange ck) ∧
         GenerateKeyExChange cr = (Some priv, Some keyMsg) ∧
         ProcessKeyExchange cr priv ck = inr (preMasterSecret c') ∧
         ctlOut c' = ctlOut (NewControl "aes") ++
           [WriteReq TypeServerKeyExchange (BCipherKeyExchange keyMsg);
            WriteReq TypeClientID (BClientIDExchange (GenUUID cr))]).
Proof.
  intros cr io sv.
  destruct (ServerHandShake cr io 0%nat sv) as [[[e|] sv']|msg|] eqn:Hrun;
    try (vm_compute in Hrun; discriminate).
  exists sv'.
  destruct (ServerHandShake_success_state cr io 0%nat sv sv' (NewControl "aes") eq_refl Hrun)
    as (c' & H).
  exists c'. split; [reflexivity|exact H].
Defined.

(** X20. [PipeHandShake] for a registered client id never panics and
    never touches the registry. It returns an error exactly when making
    the session met one ([smux.Client] failed or, with encryption,
    [NewCryptoConn] failed on the key derived by the PRF from the
    Control's pre-master secret, the client id and the hello's nonce),
    and then the server state is as it was and the session is not
    offered. Otherwise it calls [putPipe] on that Control: it returns
    [nil] when the manager takes the session or, [die] being closed,
    when [putPipe] has closed it; and it has not returned, parked
    inside [putPipe], while [die] is open and the manager is not at a
    receive. Nothing else of the server changes. *)
Theorem PipeHandShake_registered cr phs smuxErr sess mgr pick sv a ctl :
  ControlMap sv !! helloClientID phs = Some a →
  controls sv !! a = Some ctl →
  let made :=
    smuxErr = None ∧
    (encryptMode ctl = "none" ∨
     NewCryptoConn cr (prf12 cr (preMasterSecret ctl) (helloClientID phs) (Once phs)) = None) in
  ∃ r sv',
    PipeHandShake cr phs smuxErr sess mgr pick sv = Ok (r, sv') ∧
    ControlMap sv' = ControlMap sv ∧
    ((∃ e, r = Returned (Some e)) ↔ ¬ made) ∧
    (r = Returned None ↔ made ∧ (dieClosed ctl = true ∨ mgr = true)) ∧
    (r = InPutPipe ↔ made ∧ dieClosed ctl = false ∧ mgr = false) ∧
    (made → dieClosed ctl = true →
       controls sv' = <[a := set_smuxClosed ({[sess]} ∪ smuxClosed ctl) ctl]> (controls sv)) ∧
    (¬ made ∨ dieClosed ctl = false → controls sv' = controls sv).
Proof.
  intros Hreg Hctl made. unfold PipeHandShake. rewrite Hreg.
  unfold mbind at 1, option_bind. rewrite Hctl. cbn [fmap option_fmap option_map].
  rewrite putPipe_cases.
  pose (P := λ (r : callState error) (sv' : Server),
    ControlMap sv' = ControlMap sv ∧
    ((∃ e, r = Returned (Some e)) ↔ ¬ made) ∧
    (r = Returned None ↔ made ∧ (dieClosed ctl = true ∨ mgr = true)) ∧
    (r = InPutPipe ↔ made ∧ dieClosed ctl = false ∧ mgr = false) ∧
    (made → dieClosed ctl = true →
       controls sv' = <[a := set_smuxClosed ({[sess]} ∪ smuxClosed ctl) ctl]> (controls sv)) ∧
    (¬ made ∨ dieClosed ctl = false → controls sv' = controls sv)).
  assert (∀ e : string, ¬ made →
            ∃ r sv', Ok (Returned (Some e), sv) = Ok (r, sv') ∧ P r sv') as Herr.
  { intros e Hno. eexists _, _. split; [reflexivity|]. unfold P. split_and!.
    - done.
    - split; [done|]. intros _. by exists e.
    - split; [done|]. by intros [? _].
    - split; [done|]. by intros [? _].
    - intros Hm. by destruct Hno.
    - done. }
  assert (made →
            ∃ r sv',
              match (if dieClosed ctl
                     then Ok (PutClosed, set_smuxClosed ({[sess]} ∪ smuxClosed ctl) ctl)
                     else if mgr then Ok (PutDelivered, ctl) else Ok (PutBlocked, ctl)) with
              | Ok (PutBlocked, ctl') =>
                  Ok (InPutPipe, mkServer (<[a := ctl']> (controls sv)) (ControlMap sv))
              | Ok (_, ctl') =>
                  Ok (Returned None, mkServer (<[a := ctl']> (controls sv)) (ControlMap sv))
              | Panic msg => Panic msg
              | Diverge => Diverge
              end = Ok (r, sv') ∧ P r sv') as Hok.
  { intros Hmade. unfold P. destruct (dieClosed ctl) eqn:Hd; [|destruct mgr].
    - eexists _, _. split; [reflexivity|]. split_and!.
      + done.
      + split; [by intros [e ?]|done].
      + split; [|done]. intros _. split; [done|by left].
      + split; [done|]. by intros (_ & ? & _).
      + done.
      + by intros [?|?].
    - eexists _, _. split; [reflexivity|]. split_and!.
      + done.
      + split; [by intros [e ?]|done].
      + split; [|done]. intros _. split; [done|by right].
      + split; [done|]. by intros (_ & _ & ?).
      + done.
      + intros _. simpl. by apply insert_id.
    - eexists _, _. split; [reflexivity|]. split_and!.
      + done.
      + split; [by intros [e ?]|done].
      + split; [done|]. by intros [_ [?|?]].
      + split; [|done]. by intros _.
      + done.
      + intros _. simpl. by apply insert_id. }
  unfold P in *. clear P.
  case_bool_decide as Hmode.
  - destruct (NewCryptoConn cr _) as [e|] eqn:Hcc.
    + apply Herr. intros [_ [?|?]]; done.
    + destruct smuxErr as [e|].
      * apply Herr. by intros [? _].
      * apply Hok. split; [done|by right].
  - destruct smuxErr as [e|].
    + apply Herr. by intros [? _].
    + apply Hok. split; [done|by left].
Qed.

Lemma PipeHandShake_registered_witness :
  let cr := mkCrypto (None, None) (λ _ _, inl "") 0%N (λ s _ _, s) (λ _, None) in
  let sv := mkServer {[ 0%nat := NewControl "aes" ]} {[ 42%N := 0%nat ]} in
  let made :=
    (None : option string) = None ∧
    (encryptMode (NewControl "aes") = "none" ∨
     NewCryptoConn cr (prf12 cr (preMasterSecret (NewControl "aes")) 42%N [1]) = None) in
  ∃ r sv',
    PipeHandShake cr (mkHello 42%N [1]) None 7%nat true true sv = Ok (r, sv') ∧
    ControlMap sv' = ControlMap sv ∧
    ((∃ e, r = Returned (Some e)) ↔ ¬ made) ∧
    (r = Returned None ↔ made ∧ (dieClosed (NewControl "aes") = true ∨ true = true)) ∧
    (r = InPutPipe ↔ made ∧ dieClosed (NewControl "aes") = false ∧ true = false) ∧
    (made → dieClosed (NewControl "aes") = true →
       controls sv' = <[0%nat := set_smuxClosed ({[7%nat]} ∪ smuxClosed (NewControl "aes"))
                                   (NewControl "aes")]> (controls sv)) ∧
    (¬ made ∨ dieClosed (NewControl "aes") = false → controls sv' = controls sv).
Proof.
  intros cr sv.
  apply (PipeHandShake_registered cr (mkHello 42%N [1]) None 7%nat true true sv 0%nat
           (NewControl "aes")); reflexivity.
Defined.


